(** * chibilibs [hash.h]: the SwissTable-style hash map, embedded and verified

    The header implements an open-addressed map from [uint64_t] keys to
    values of a caller-chosen type.  One aligned block holds
    [metadata[capacity] | keys[capacity] | hash__info_t | values[capacity]]
    and the user pointer addresses [values[0]].

    Embedding conventions:
    - [uint8_t], [uint64_t], [size_t] and [int] values are [Z]; 64-bit
      wrap-around is written [wrap64] wherever the C arithmetic can wrap;
    - the three arrays of an image are lists indexed from 0; a load or a
      store outside the array is [Fault];
    - a C loop without a static bound runs on fuel and yields [Diverge]
      when the fuel is gone; the fuel handed out is the length of one full
      revolution of the loop's cursor, after which the loop state repeats:
      the number of groups for the two group probes, the number of slots
      for the linear probe of the rehash, 16 candidates for the scan of one
      group, 64 doublings for the rounding loop of [hash_reserve] (lemmas
      [hash__get_idx_loop_more_fuel] and [hash__get_idx_loop_diverges] make
      this precise for the match probe);
    - the user pointer is an [option image]: [None] is [NULL];
    - the seed, the value type and the allocator are parameters of the
      whole development; an allocation either yields a block or does not.

    Layout: the model of the header, the vocabulary of the invariants
    ([hash_wf] and its propositional reading [WF]), the probes, the rehash,
    the operations and what holds of them in general, and last the
    scenarios and the general theorems at concrete tables. *)

From Stdlib Require Import ZArith Lia Bool List.
From stdpp Require Import base list.

Local Open Scope Z_scope.

(** ** Outcomes of a call *)

Inductive result (A : Type) : Type :=
| Ok (a : A)
| Fault
| Diverge.

Arguments Ok {A} a.
Arguments Fault {A}.
Arguments Diverge {A}.

Definition bind {A B : Type} (c : result A) (k : A -> result B) : result B :=
  match c with
  | Ok a => k a
  | Fault => Fault
  | Diverge => Diverge
  end.

Declare Scope result_scope.
Delimit Scope result_scope with result.
Notation "'do' x <- c ; k" := (bind c (fun x => k))
  (at level 10, x name, c at level 100, k at level 200) : result_scope.
Local Open Scope result_scope.

(** ** Machine integers and arrays *)

Definition wrap64 (z : Z) : Z := z mod 2 ^ 64.

Definition len {A : Type} (a : list A) : Z := Z.of_nat (length a).

(** The cell of an array at a [size_t] index, if there is one. *)
Definition slot {A : Type} (a : list A) (i : Z) : option A :=
  if 0 <=? i then a !! Z.to_nat i else None.

(** [a[i]] as an r-value. *)
Definition load {A : Type} (a : list A) (i : Z) : result A :=
  match slot a i with
  | Some x => Ok x
  | None => Fault
  end.

Definition upd {A : Type} (a : list A) (i : Z) (x : A) : list A :=
  <[Z.to_nat i := x]> a.

(** [a[i] = x]. *)
Definition store {A : Type} (a : list A) (i : Z) (x : A) : result (list A) :=
  if (0 <=? i) && (i <? len a) then Ok (upd a i x) else Fault.

(** ** The SSE2 intrinsics the header uses, on 16 byte lanes *)

(** [_mm_load_si128((__m128i * )(a + i))]: an aligned 16-byte load. *)
Definition _mm_load_si128 (a : list Z) (i : Z) : result (list Z) :=
  if (0 <=? i) && (i mod 16 =? 0) && (i + 16 <=? len a)
  then Ok (take 16 (drop (Z.to_nat i) a))
  else Fault.

Definition _mm_set1_epi8 (b : Z) : list Z := replicate 16 b.

Definition _mm_setzero_si128 : list Z := replicate 16 0.

Definition _mm_cmpeq_epi8 (a b : list Z) : list Z :=
  zip_with (fun x y => if x =? y then 0xFF else 0x00) a b.

Definition _mm_and_si128 (a b : list Z) : list Z := zip_with Z.land a b.

(** Little-endian value of a list of bits. *)
Fixpoint bits_to_Z (bs : list bool) : Z :=
  match bs with
  | [] => 0
  | b :: bs' => 2 * bits_to_Z bs' + Z.b2z b
  end.

(** [_mm_movemask_epi8]: bit [j] of the result is the top bit of lane [j]. *)
Definition _mm_movemask_epi8 (a : list Z) : Z :=
  bits_to_Z (map (fun x => Z.testbit x 7) a).

(** [_BitScanForward(&off, mask)]: [Some off] for the lowest set bit of the
    32-bit mask, [None] (return value 0) when the mask is zero. *)
Definition _BitScanForward (mask : Z) : option Z :=
  find (fun j => Z.testbit mask j) (map Z.of_nat (seq 0 32)).

(** ** Constants and byte predicates *)

Definition HASH__START_CAPACITY : Z := 16.
Definition HASH__FREE : Z := 0x00.
Definition HASH__TOMB : Z := 0x01.

Definition hash_is_full (b : Z) : bool := Z.land b 0x80 =? 0x80.
Definition hash_is_free (b : Z) : bool := b =? 0.

Definition hash__hash57 (h : Z) : Z := Z.land h 0x01FFFFFFFFFFFFFF.
Definition hash__hash7 (h : Z) : Z := Z.land (Z.shiftr h 57) 0x7F.

(** [sizeof(hash__info_t)]: three [size_t] fields. *)
Definition sizeof_info : Z := 24.

(** The byte count of [hash__malloc] before it is cut to [size_t]: the
    size of the layout of [capacity] slots with values of [val_size]
    bytes. *)
Definition hash__bytes (capacity val_size : Z) : Z :=
  1 * capacity + 8 * capacity + sizeof_info + val_size * capacity.

(** The cut changes nothing: the block requested is as large as the
    layout.  When the count wraps, the block is shorter than the table the
    code goes on to write ([memset], the header, the values); the images of
    the model have no counterpart there, so a theorem that lets a table be
    allocated at a capacity the caller chooses states [hash__fits] of it. *)
Definition hash__fits (capacity val_size : Z) : bool :=
  (0 <=? val_size) && (hash__bytes capacity val_size <? 2 ^ 64).

(** The seed every translation unit starts with. *)
Definition hash__seed_default : Z := 0x12345678ABCDEF00.

Record hash__info_t : Type := {
  size : Z;
  capacity : Z;
  val_size : Z
}.

(** [_aligned_free(p)]: a null pointer is ignored; the only other pointers
    the allocator accepts are block bases it handed out. *)
Definition hash__aligned_free (p : Z) (is_block_base : bool) : result unit :=
  if p =? 0 then Ok tt
  else if is_block_base then Ok tt
  else Fault.

(** ** Sequences of public operations, and the ones the scenarios use *)

Inductive op (V : Type) : Type :=
| Put (key : Z) (val : V)
| Del (key : Z) (free_val : bool)
| Reserve (n : Z).

Arguments Put {V} key val.
Arguments Del {V} key free_val.
Arguments Reserve {V} n.

(** An allocator that never runs out of memory. *)
Definition plentiful (bytes align : Z) : bool := true.

(** An allocator that has nothing left. *)
Definition refusing (bytes align : Z) : bool := false.

(** Insert keys [0 .. n-1] with value [key * 10]. *)
Definition insert_x10 (n : nat) : list (op Z) :=
  map (fun k => Put (Z.of_nat k) (Z.of_nat k * 10)) (seq 0 n).

(** Sixteen keys whose probe starts in group 0 of a 32-slot table, ten of
    them deleted again, then sixteen keys whose probe starts in group 1
    (default seed). *)
Definition fill_group0 : list (op Z) :=
  map (fun k => Put k (k + 100))
    [0; 3; 4; 7; 10; 12; 16; 21; 22; 26; 27; 29; 30; 31; 33; 34].

Definition thin_group0 : list (op Z) :=
  map (fun k => Del k false) [0; 3; 4; 7; 10; 12; 16; 21; 22; 26].

Definition fill_group1 : list (op Z) :=
  map (fun k => Put k (k + 100))
    [1; 2; 5; 6; 8; 9; 11; 13; 14; 15; 17; 18; 19; 20; 23; 24].

Definition saturating_ops : list (op Z) :=
  fill_group0 ++ thin_group0 ++ fill_group1.

Section Hash.

Set Default Proof Using "Type".

(** The value type of the map, [sizeof] of it, and what an uninitialised
    value slot of a fresh block holds. *)
Variable V : Type.
Variable sizeof_V : Z.
Variable junk : V.

(** The translation unit's [hash__seed]; it is read by every operation and
    written only by [hash_set_hash_seed], so it is a parameter here. *)
Variable hash__seed : Z.

(** [hash__aligned_allocation(bytes, align)]: does the request return a
    block. *)
Variable hash__aligned_allocation : Z -> Z -> bool.

Record image : Type := {
  meta : list Z;
  keys : list Z;
  info : hash__info_t;
  vals : list V
}.

Definition handle : Type := option image.

Definition hash_size (map : handle) : Z :=
  match map with
  | Some t => size (info t)
  | None => 0
  end.

Definition hash_capacity (map : handle) : Z :=
  match map with
  | Some t => capacity (info t)
  | None => 0
  end.

(** [hash__get_base(map)] as an address, for a user pointer at address
    [p]: back over the header, the keys and the metadata. *)
Definition hash__get_base_addr (p : Z) (map : handle) : Z :=
  wrap64 (p - sizeof_info - 8 * hash_capacity map - hash_capacity map).

(** [hash_free(map)].  For [NULL] the macro still computes
    [hash__get_base(NULL)], which is [NULL] moved back by the header, and
    hands that to the deallocator. *)
Definition hash_free (map : handle) : result unit :=
  match map with
  | Some t => Ok tt (* the base of the image's own block *)
  | None => hash__aligned_free (hash__get_base_addr 0 None) false
  end.

(** [hash__malloc]: the byte count is computed in [size_t]; only whether
    the block was obtained matters here. *)
Definition hash__malloc (capacity val_size : Z) : bool :=
  let bytes := wrap64 (hash__bytes capacity val_size) in
  hash__aligned_allocation bytes 16.

(** The image the allocation code writes into a block it obtained:
    metadata [memset] to [HASH__FREE], keys and values left as they were. *)
Definition fresh_image (cap sz vsz : Z) : image :=
  {| meta := replicate (Z.to_nat cap) HASH__FREE;
     keys := replicate (Z.to_nat cap) 0;
     info := {| size := sz; capacity := cap; val_size := vsz |};
     vals := replicate (Z.to_nat cap) junk |}.

Definition hash__init (map : handle) : handle :=
  match map with
  | None =>
      if hash__malloc HASH__START_CAPACITY sizeof_V
      then Some (fresh_image HASH__START_CAPACITY 0 sizeof_V)
      else None
  | Some t => Some t
  end.

Definition hash__hash (val : Z) : Z :=
  let val := Z.lxor val hash__seed in
  let val := Z.lxor val (Z.shiftr val 33) in
  let val := wrap64 (val * 0xff51afd7ed558ccd) in
  let val := Z.lxor val (Z.shiftr val 33) in
  let val := wrap64 (val * 0xc4ceb9fe1a85ec53) in
  let val := Z.lxor val (Z.shiftr val 33) in
  val.

(** Start group of a key in a table of [m] slots, as a slot index. *)
Definition hash__start (m key : Z) : Z :=
  let grpidx := Z.land (hash__hash57 (hash__hash key)) (wrap64 (m / 16 - 1)) in
  wrap64 (grpidx * 16).

Definition hash__mask (key : Z) : Z := Z.lor (hash__hash7 (hash__hash key)) 0x80.

(** [idx = (idx + step) & (m - 1)]. *)
Definition hash__next (m i step : Z) : Z :=
  Z.land (wrap64 (i + step)) (wrap64 (m - 1)).

(** *** hash__rehash *)

(** [while(!hash_is_free(nbase[idx])) idx = (idx + 1) & (cap - 1);] *)
Fixpoint hash__rehash_probe (fuel : nat) (nbase : list Z) (ncap idx : Z)
  : result Z :=
  match fuel with
  | O => Diverge
  | S fuel' =>
      do b <- load nbase idx;
      if negb (hash_is_free b)
      then hash__rehash_probe fuel' nbase ncap (hash__next ncap idx 1)
      else Ok idx
  end.

(** Body of the [for] loop of [hash__rehash] at old index [i]. *)
Definition hash__rehash_slot (map nmap : image) (i : Z) : result image :=
  do b <- load (meta map) i;
  if hash_is_full b then
    do key <- load (keys map) i;
    let ncap := capacity (info nmap) in
    let idx := hash__start ncap key in
    do idx <- hash__rehash_probe (Z.to_nat ncap) (meta nmap) ncap idx;
    do nmeta <- store (meta nmap) idx b;
    do nkeys <- store (keys nmap) idx key;
    do v <- load (vals map) i;
    do nvals <- store (vals nmap) idx v;
    Ok {| meta := nmeta; keys := nkeys; info := info nmap; vals := nvals |}
  else Ok nmap.

(** [for (i = 0; i < n; i++) body], the body threading the new image. *)
Fixpoint hash__rehash_upto (map nmap : image) (n : nat) : result image :=
  match n with
  | O => Ok nmap
  | S n' =>
      do nmap' <- hash__rehash_upto map nmap n';
      hash__rehash_slot map nmap' (Z.of_nat n')
  end.

Definition hash__rehash (map nmap : image) : result image :=
  hash__rehash_upto map nmap (Z.to_nat (capacity (info map))).

(** *** hash__resize

    When the allocation fails the macro leaves the map as it is.  The new
    image has [ncapacity] cells in each array: that is the block obtained
    as long as the byte count did not wrap ([hash__fits]). *)
Definition hash__resize (map : image) (ncapacity : Z) : result image :=
  let val_size := val_size (info map) in
  if hash__malloc ncapacity val_size then
    hash__rehash map (fresh_image ncapacity (size (info map)) val_size)
  else Ok map.

(** *** hash__get_idx *)

(** The [while(_BitScanForward(&off, match))] loop over the candidates of
    one group. *)
Fixpoint hash__match_scan (fuel : nat) (keys : list Z) (key i mtch : Z)
  : result (option Z) :=
  match fuel with
  | O => Diverge
  | S fuel' =>
      match _BitScanForward mtch with
      | None => Ok None
      | Some off =>
          do k <- load keys (i + off);
          if k =? key then Ok (Some (i + off))
          else hash__match_scan fuel' keys key i (Z.land mtch (mtch - 1))
      end
  end.

(** The [for(;;)] loop of [hash__get_idx], with the cursor at [i].
    [Some idx] is "return 1 with [*idx = idx]", [None] is "return -1". *)
Fixpoint hash__get_idx_loop (fuel : nat) (meta keys : list Z)
    (key m mask i : Z) : result (option Z) :=
  match fuel with
  | O => Diverge
  | S fuel' =>
      do vmeta <- _mm_load_si128 meta i;
      let mtch :=
        _mm_movemask_epi8 (_mm_cmpeq_epi8 vmeta (_mm_set1_epi8 mask)) in
      do hit <- (if negb (mtch =? 0) then hash__match_scan 17 keys key i mtch
                 else Ok None);
      match hit with
      | Some idx => Ok (Some idx)
      | None =>
          let free :=
            _mm_movemask_epi8 (_mm_cmpeq_epi8 vmeta _mm_setzero_si128) in
          if negb (free =? 0) then Ok None
          else hash__get_idx_loop fuel' meta keys key m mask (hash__next m i 16)
      end
  end.

(** Number of groups of the table: one revolution of the group cursor. *)
Definition hash__groups (t : image) : nat := Z.to_nat (capacity (info t) / 16).

Definition hash__get_idx (t : image) (key : Z) : result (option Z) :=
  let m := capacity (info t) in
  hash__get_idx_loop (hash__groups t) (meta t) (keys t) key m
    (hash__mask key) (hash__start m key).

(** *** hash_get

    The returned pointer [map + val_size * idx] is the slot index [idx];
    [None] is the [NULL] result.  The function reads the header before
    anything else, also when [map] is [NULL]. *)
Definition hash_get (map : handle) (key : Z) : result (option Z) :=
  match map with
  | None => Fault
  | Some t => hash__get_idx t key
  end.

(** What a pointer returned by [hash_get] points to. *)
Definition deref (map : handle) (p : option Z) : option V :=
  match map, p with
  | Some t, Some idx => slot (vals t) idx
  | _, _ => None
  end.

(** *** hash_del

    The result carries the returned [bool], the image after the call and,
    when [free_val] is set, the value handed to [free].  The code takes
    that value from the first 8 bytes of the cell, [*(void ** )(map +
    val_size * idx)]: it is the cell when the values are pointers
    ([val_size = 8]), which is the use [free_val] is made for. *)
Record del_result : Type := {
  deleted : bool;
  after : image;
  released : option V
}.

Definition hash_del (map : handle) (key : Z) (free_val : bool)
  : result del_result :=
  match map with
  | None => Fault
  | Some t =>
      do r <- hash__get_idx t key;
      match r with
      | Some idx =>
          do nmeta <- store (meta t) idx HASH__TOMB;
          do rel <- (if free_val then
                       do v <- load (vals t) idx; Ok (Some v)
                     else Ok None);
          let ninfo := {| size := wrap64 (size (info t) - 1);
                          capacity := capacity (info t);
                          val_size := val_size (info t) |} in
          Ok {| deleted := true;
                after := {| meta := nmeta; keys := keys t;
                            info := ninfo; vals := vals t |};
                released := rel |}
      | None => Ok {| deleted := false; after := t; released := None |}
      end
  end.

(** *** hash__get_freetombidx *)

Fixpoint hash__get_freetombidx_loop (fuel : nat) (meta : list Z) (m i : Z)
  : result Z :=
  match fuel with
  | O => Diverge
  | S fuel' =>
      do vmeta <- _mm_load_si128 meta i;
      let vmask := _mm_and_si128 vmeta (_mm_set1_epi8 0x80) in
      let freetomb :=
        _mm_movemask_epi8 (_mm_cmpeq_epi8 vmask _mm_setzero_si128) in
      if negb (freetomb =? 0) then
        match _BitScanForward freetomb with
        | Some off => Ok (i + off)
        | None => Fault
        end
      else hash__get_freetombidx_loop fuel' meta m (hash__next m i 16)
  end.

Definition hash__get_freetombidx (t : image) (key : Z) : result Z :=
  let m := capacity (info t) in
  hash__get_freetombidx_loop (hash__groups t) (meta t) m (hash__start m key).

(** *** hash_put

    The profiling counters of the macro ([perf_ticks], [perf_count]) are
    outside the table and left out.  The result is the caller's pointer
    after the macro. *)

(** The [if(hash__get_idx(...) == 1) ... else ...] statement of the macro:
    overwrite the value of a key that is there, or claim a slot for it. *)
Definition hash__put_slot (t : image) (k mask : Z) (val : V) : result image :=
  do r <- hash__get_idx t k;
  match r with
  | Some idx =>
      do nvals <- store (vals t) idx val;
      Ok {| meta := meta t; keys := keys t; info := info t; vals := nvals |}
  | None =>
      do idx <- hash__get_freetombidx t k;
      do nmeta <- store (meta t) idx mask;
      do nkeys <- store (keys t) idx k;
      do nvals <- store (vals t) idx val;
      Ok {| meta := nmeta; keys := nkeys;
            info := {| size := wrap64 (size (info t) + 1);
                       capacity := capacity (info t);
                       val_size := val_size (info t) |};
            vals := nvals |}
  end.

Definition hash_put (map : handle) (key : Z) (val : V) : result handle :=
  let map := match map with None => hash__init map | Some _ => map end in
  let k := key in
  let mask := hash__mask k in
  match map with
  | None => Fault
  | Some t =>
      do t1 <- hash__put_slot t k mask val;
      if size (info t1) >=? wrap64 ((capacity (info t1) / 4) * 3) then
        do t2 <- hash__resize t1 (wrap64 (capacity (info t1) * 2));
        Ok (Some t2)
      else Ok (Some t1)
  end.

(** *** hash_reserve *)

(** [while (true_cap < cap) true_cap <<= 1;] *)
Fixpoint hash__round_up (fuel : nat) (true_cap cap : Z) : result Z :=
  match fuel with
  | O => Diverge
  | S fuel' =>
      if true_cap <? cap
      then hash__round_up fuel' (wrap64 (Z.shiftl true_cap 1)) cap
      else Ok true_cap
  end.

Definition hash_reserve (map : handle) (capacity : Z) : result handle :=
  let map := match map with None => hash__init map | Some _ => map end in
  let cap := wrap64 capacity in
  if cap >? hash_capacity map then
    do true_cap <- hash__round_up 66 1 cap;
    match map with
    | None => Fault
    | Some t => do t' <- hash__resize t true_cap; Ok (Some t')
    end
  else Ok map.

(** ** Specification vocabulary

    Everything below is executable, so that the invariants can be checked
    on a concrete image. *)

(** Byte of a metadata or key array, [0] outside the array. *)
Definition rd (a : list Z) (i : Z) : Z := default 0 (slot a i).

(** [p j] for the [n] indices from [i] on. *)
Fixpoint forall_from (n : nat) (i : Z) (p : Z -> bool) : bool :=
  match n with
  | O => true
  | S n' => p i && forall_from n' (i + 1) p
  end.

(** [p i] for every [0 <= i < n]. *)
Definition forall_range (n : Z) (p : Z -> bool) : bool :=
  forall_from (Z.to_nat n) 0 p.

Fixpoint count_full (meta : list Z) : Z :=
  match meta with
  | [] => 0
  | b :: rest => Z.b2z (hash_is_full b) + count_full rest
  end.

(** Group [g] holds no Free byte. *)
Definition group_no_free (meta : list Z) (g : Z) : bool :=
  forall_range 16 (fun j => negb (hash_is_free (rd meta (16 * g + j)))).

(** Slot [i] lies on the probe sequence of [key]: every group the probe
    visits before the group of [i], starting from the key's own group,
    is without a Free byte. *)
Definition on_probe_path (meta : list Z) (m key i : Z) : bool :=
  let G := m / 16 in
  let g := hash__start m key / 16 in
  forall_range ((i / 16 - g) mod G)
    (fun e => group_no_free meta ((g + e) mod G)).

Definition probe_inv (meta keys : list Z) (m : Z) : bool :=
  forall_range m (fun i =>
    implb (hash_is_full (rd meta i)) (on_probe_path meta m (rd keys i) i)).

(** A Full byte carries the tag of the key stored with it. *)
Definition tags_ok (meta keys : list Z) (m : Z) : bool :=
  forall_range m (fun i =>
    implb (hash_is_full (rd meta i)) (rd meta i =? hash__mask (rd keys i))).

(** No two Full slots have equal keys. *)
Definition keys_unique (meta keys : list Z) (m : Z) : bool :=
  forall_range m (fun i => forall_range m (fun j =>
    implb (hash_is_full (rd meta i) && hash_is_full (rd meta j)
           && (rd keys i =? rd keys j))
          (i =? j))).

(** Free, Tombstone or [0x80 | tag7]. *)
Definition bytes_ok (meta : list Z) (m : Z) : bool :=
  forall_range m (fun i =>
    let b := rd meta i in
    (b =? HASH__FREE) || (b =? HASH__TOMB) || ((0x80 <=? b) && (b <=? 0xFF))).

(** The invariants of an image: capacity a power of two from 16 up, three
    arrays of that many cells, well-formed metadata, tags, distinct keys,
    the probe invariant, and [size] the number of Full bytes. *)
Definition hash_wf (t : image) : bool :=
  let m := capacity (info t) in
  (m =? 2 ^ Z.log2 m) && (16 <=? m) && (m <=? 2 ^ 63)
  && (len (meta t) =? m) && (len (keys t) =? m) && (len (vals t) =? m)
  && bytes_ok (meta t) m
  && tags_ok (meta t) (keys t) m
  && keys_unique (meta t) (keys t) m
  && probe_inv (meta t) (keys t) m
  && (size (info t) =? count_full (meta t)).

(** Some metadata byte is Free. *)
Definition has_free (t : image) : bool :=
  negb (forall_range (capacity (info t))
          (fun i => negb (hash_is_free (rd (meta t) i)))).

(** Some Full slot holds [key]. *)
Definition holds_key (t : image) (key : Z) : bool :=
  negb (forall_range (capacity (info t)) (fun i =>
    negb (hash_is_full (rd (meta t) i) && (rd (keys t) i =? key)))).

(** The image after [(map)[idx] = val]. *)
Definition set_val (t : image) (idx : Z) (val : V) : image :=
  {| meta := meta t; keys := keys t; info := info t;
     vals := upd (vals t) idx val |}.

(** The image after slot [idx] has been claimed for [key] and [val]. *)
Definition claim (t : image) (idx key : Z) (val : V) : image :=
  {| meta := upd (meta t) idx (hash__mask key);
     keys := upd (keys t) idx key;
     info := {| size := size (info t) + 1;
                capacity := capacity (info t);
                val_size := val_size (info t) |};
     vals := upd (vals t) idx val |}.

(** The image after slot [idx] has been marked Tombstone. *)
Definition bury (t : image) (idx : Z) : image :=
  {| meta := upd (meta t) idx HASH__TOMB;
     keys := keys t;
     info := {| size := size (info t) - 1;
                capacity := capacity (info t);
                val_size := val_size (info t) |};
     vals := vals t |}.

(** The probe invariant, as a check on the arrays and as what the match
    probe does: the lookup of the key of a Full slot ends at that slot. *)
Definition probe_ok (t : image) : Prop :=
  probe_inv (meta t) (keys t) (capacity (info t)) = true
  /\ forall i, 0 <= i < capacity (info t) ->
       hash_is_full (rd (meta t) i) = true ->
       hash__get_idx t (rd (keys t) i) = Ok (Some i).

(** Running a sequence of operations on the caller's pointer.  [hash_del]
    works in place: the pointer stays, the image behind it changes. *)
Definition run_op (map : handle) (o : op V) : result handle :=
  match o with
  | Put key val => hash_put map key val
  | Del key free_val => do r <- hash_del map key free_val; Ok (Some (after r))
  | Reserve n => hash_reserve map n
  end.

Fixpoint run (ops : list (op V)) (map : handle) : result handle :=
  match ops with
  | [] => Ok map
  | o :: rest => do map' <- run_op map o; run rest map'
  end.

(** The image a run ended with (a fresh one when there is none). *)
Definition image_of (r : result handle) : image :=
  match r with
  | Ok (Some t) => t
  | _ => fresh_image HASH__START_CAPACITY 0 sizeof_V
  end.

(** [hash_get] followed by a read through the pointer it returned. *)
Definition hash_lookup (map : handle) (key : Z) : result (option V) :=
  do p <- hash_get map key; Ok (deref map p).

(** Smallest power of two that is at least [n] (for [n >= 1]). *)
Definition next_pow2 (n : Z) : Z := 2 ^ Z.log2_up n.

(** [match &= match - 1] clears the bit [_BitScanForward] reported and
    nothing else: the check run on one mask. *)
Definition clear_lowest_check (m : Z) : bool :=
  match _BitScanForward m with
  | None => m =? 0
  | Some off =>
      let m' := Z.land m (m - 1) in
      (off <? 16) && (0 <=? m') && (m' <? m)
      && forall_range 16 (fun j =>
           eqb (Z.testbit m' j) (Z.testbit m j && negb (j =? off)))
  end.

(** No slot of the group at [i] carries [mask] together with [key]. *)
Definition no_hit_in (meta keys : list Z) (mask key i : Z) : Prop :=
  forall j, 0 <= j < 16 -> ~ (rd meta (i + j) = mask /\ rd keys (i + j) = key).

(** The group at [i] has a Free byte. *)
Definition free_in (meta : list Z) (i : Z) : Prop :=
  exists j, 0 <= j < 16 /\ rd meta (i + j) = 0.

(** Shape of the two probed arrays: [m = 2 ^ k] slots, 16 or more. *)
Definition shape (meta keys : list Z) (m : Z) : Prop :=
  (exists k, 4 <= k <= 63 /\ m = 2 ^ k) /\ len meta = m /\ len keys = m.

(** Group index at which the probe for [key] starts. *)
Definition home (m key : Z) : Z := hash__start m key / 16.

(** The invariants as propositions over the arrays. *)
Definition bytesP (meta : list Z) (m : Z) : Prop :=
  forall i, 0 <= i < m ->
    rd meta i = 0 \/ rd meta i = 1 \/ 128 <= rd meta i <= 255.

Definition tagsP (meta keys : list Z) (m : Z) : Prop :=
  forall i, 0 <= i < m -> hash_is_full (rd meta i) = true ->
    rd meta i = hash__mask (rd keys i).

Definition uniqP (meta keys : list Z) (m : Z) : Prop :=
  forall i j, 0 <= i < m -> 0 <= j < m ->
    hash_is_full (rd meta i) = true -> hash_is_full (rd meta j) = true ->
    rd keys i = rd keys j -> i = j.

Definition pathP (meta : list Z) (m key i : Z) : Prop :=
  forall e, 0 <= e < (i / 16 - home m key) mod (m / 16) ->
    ~ free_in meta (16 * ((home m key + e) mod (m / 16))).

Definition probeP (meta keys : list Z) (m : Z) : Prop :=
  forall i, 0 <= i < m -> hash_is_full (rd meta i) = true ->
    pathP meta m (rd keys i) i.

(** Slot [s] of [t] is Full and holds [key]. *)
Definition held (t : image) (key s : Z) : Prop :=
  0 <= s < capacity (info t)
  /\ hash_is_full (rd (meta t) s) = true /\ rd (keys t) s = key.

(** The invariants of the metadata and key arrays... *)
Record Core (meta keys : list Z) (m : Z) : Prop := {
  core_shape : shape meta keys m;
  core_bytes : bytesP meta m;
  core_tags : tagsP meta keys m;
  core_uniq : uniqP meta keys m;
  core_probe : probeP meta keys m
}.

(** ... and of the image as a whole: what [hash_wf] computes. *)
Record WF (t : image) : Prop := {
  wf_core : Core (meta t) (keys t) (capacity (info t));
  wf_vals : len (vals t) = capacity (info t);
  wf_size : size (info t) = count_full (meta t)
}.

(** Loop invariant of [hash__rehash]: the new image [nm] after the old
    slots below [n] have been visited. *)
Record rehashed (t nm : image) (n : nat) : Prop := {
  ri_core : Core (meta nm) (keys nm) (capacity (info nm));
  ri_vals : len (vals nm) = capacity (info nm);
  ri_clean :
    forall s, 0 <= s < capacity (info nm) ->
      rd (meta nm) s = 0 \/ hash_is_full (rd (meta nm) s) = true;
  ri_from :
    forall s, 0 <= s < capacity (info nm) ->
      hash_is_full (rd (meta nm) s) = true ->
      exists i, 0 <= i < Z.of_nat n
        /\ hash_is_full (rd (meta t) i) = true
        /\ rd (keys nm) s = rd (keys t) i
        /\ slot (vals nm) s = slot (vals t) i;
  ri_to :
    forall i, 0 <= i < Z.of_nat n -> hash_is_full (rd (meta t) i) = true ->
      exists s, 0 <= s < capacity (info nm)
        /\ hash_is_full (rd (meta nm) s) = true
        /\ rd (keys nm) s = rd (keys t) i
        /\ slot (vals nm) s = slot (vals t) i;
  ri_count : count_full (meta nm) = count_full (take n (meta t))
}.

(** Every byte is Free or Full. *)
Definition no_tombstone (t : image) : Prop :=
  forall s, 0 <= s < capacity (info t) ->
    rd (meta t) s = 0 \/ hash_is_full (rd (meta t) s) = true.

(** [t'] holds the keys of [t], each with the value it has in [t], and no
    other key. *)
Definition same_content (t t' : image) : Prop :=
  (forall key s, held t key s ->
     exists s', held t' key s' /\ slot (vals t') s' = slot (vals t) s)
  /\ (forall key s', held t' key s' ->
       exists s, held t key s /\ slot (vals t') s' = slot (vals t) s).

(** The [e]-th group the probe visits from group [x] on has neither a hit
    for [key] nor a Free byte: the probe moves on. *)
Definition quiet (meta keys : list Z) (m mask key x e : Z) : Prop :=
  no_hit_in meta keys mask key (16 * ((x + e) mod (m / 16)))
  /\ ~ free_in meta (16 * ((x + e) mod (m / 16))).

(** The map a sequence of operations describes, in the specification's
    words: [put] binds the key to the value, [del] removes the key,
    [reserve] changes nothing. *)
Definition bind_key (m : Z -> option V) (key : Z) (v : option V)
  : Z -> option V :=
  fun x => if x =? key then v else m x.

Definition model_op (m : Z -> option V) (o : op V) : Z -> option V :=
  match o with
  | Put key val => bind_key m key (Some val)
  | Del key _ => bind_key m key None
  | Reserve _ => m
  end.

Fixpoint model (ops : list (op V)) (m : Z -> option V) : Z -> option V :=
  match ops with
  | [] => m
  | o :: rest => model rest (model_op m o)
  end.

(** The image holds exactly the bindings of [m]. *)
Definition agrees (t : image) (m : Z -> option V) : Prop :=
  forall key,
    match m key with
    | Some v => exists s, held t key s /\ slot (vals t) s = Some v
    | None => forall s, ~ held t key s
    end.

Definition handle_agrees (h : handle) (m : Z -> option V) : Prop :=
  match h with
  | None => forall key, m key = None
  | Some t => WF t /\ agrees t m
  end.

(** The operations stay within what [size_t] can express: no capacity
    beyond [2 ^ 62] is doubled and no [reserve] asks for more than
    [2 ^ 63] slots. *)
Fixpoint in_bounds (ops : list (op V)) (h : handle) : Prop :=
  match ops with
  | [] => True
  | o :: rest =>
      hash_capacity h <= 2 ^ 62
      /\ match o with Reserve n => 0 <= n <= 2 ^ 63 | _ => True end
      /\ forall h', run_op h o = Ok h' -> in_bounds rest h'
  end.

(** Addresses inside a block at [base] that holds [cap] slots: the header
    [(hash__info_t * )(base + cap + sizeof(uint64_t) * cap)] and the pointer
    [info + 1] that [hash__init] and [hash__resize] hand to the caller. *)
Definition hash__info_addr (base cap : Z) : Z := wrap64 (base + cap + 8 * cap).

Definition hash__user_addr (base cap : Z) : Z :=
  wrap64 (hash__info_addr base cap + sizeof_info).

(** [hash__get_info(map)] and [hash__get_keys(map)] as addresses, for a
    user pointer at address [p]. *)
Definition hash__get_info_addr (p : Z) : Z := wrap64 (p - sizeof_info).

Definition hash__get_keys_addr (p : Z) (map : handle) : Z :=
  wrap64 (hash__get_info_addr p - 8 * hash_capacity map).

(** A handle is in order when it is null or its image satisfies the
    invariants. *)
Definition handle_wf (h : handle) : bool :=
  match h with
  | None => true
  | Some t => hash_wf t
  end.

(** A sequence without deletions. *)
Definition no_del (ops : list (op V)) : bool :=
  forallb (fun o => match o with Del _ _ => false | _ => true end) ops.

(** The load check of [hash_put], as a property of an image. *)
Definition within_load (t : image) : Prop :=
  size (info t) < capacity (info t) / 4 * 3.

(** A sequence of insertions and deletions only. *)
Definition no_reserve (ops : list (op V)) : bool :=
  forallb (fun o => match o with Reserve _ => false | _ => true end) ops.

(** The keys of the Full slots below [n], in slot order, and those of the
    whole table: what a walk over the slots with [hash_is_full] sees. *)
Fixpoint stored_upto (meta keys : list Z) (n : nat) : list Z :=
  match n with
  | O => []
  | S n' =>
      stored_upto meta keys n'
      ++ (if hash_is_full (rd meta (Z.of_nat n'))
          then [rd keys (Z.of_nat n')] else [])
  end.

Definition stored_keys (t : image) : list Z :=
  stored_upto (meta t) (keys t) (Z.to_nat (capacity (info t))).

(** Number of Tombstone bytes. *)
Fixpoint count_tomb (meta : list Z) : Z :=
  match meta with
  | [] => 0
  | b :: rest => Z.b2z (b =? HASH__TOMB) + count_tomb rest
  end.

(** Number of deletions in a sequence. *)
Fixpoint count_del (ops : list (op V)) : Z :=
  match ops with
  | [] => 0
  | Del _ _ :: rest => 1 + count_del rest
  | _ :: rest => count_del rest
  end.

(** The table behind a handle lies in a block of its size. *)
Definition handle_fits (h : handle) : bool :=
  match h with
  | None => true
  | Some t => hash__fits (capacity (info t)) (val_size (info t))
  end.

(** Every table a sequence of operations comes to hold lies in a block of
    its size: no byte count wrapped on the way. *)
Fixpoint in_memory (ops : list (op V)) (h : handle) : Prop :=
  match ops with
  | [] => True
  | o :: rest =>
      forall h', run_op h o = Ok h' ->
        handle_fits h' = true /\ in_memory rest h'
  end.

(** ** Arrays *)

Lemma slot_Some_lt {A : Type} (a : list A) (i : Z) (x : A) :
  slot a i = Some x -> 0 <= i < len a.
Proof.
  unfold slot, len. destruct (Z.leb_spec 0 i) as [Hi|Hi]; [|discriminate].
  intros H. apply lookup_lt_Some in H. lia.
Qed.

Lemma slot_in_range {A : Type} (a : list A) (i : Z) :
  0 <= i < len a -> exists x, slot a i = Some x.
Proof.
  unfold slot, len. intros [H0 H1].
  destruct (Z.leb_spec 0 i) as [_|Hi]; [|lia].
  destruct (lookup_lt_is_Some_2 a (Z.to_nat i)) as [x Hx]; [lia|eauto].
Qed.

Lemma slot_out_of_range {A : Type} (a : list A) (i : Z) :
  ~ (0 <= i < len a) -> slot a i = None.
Proof.
  intros H. destruct (slot a i) as [x|] eqn:E; [|reflexivity].
  apply slot_Some_lt in E. contradiction.
Qed.

Lemma len_upd {A : Type} (a : list A) (i : Z) (x : A) : len (upd a i x) = len a.
Proof. unfold len, upd. now rewrite length_insert. Qed.

Lemma slot_upd_eq {A : Type} (a : list A) (i : Z) (x : A) :
  0 <= i < len a -> slot (upd a i x) i = Some x.
Proof.
  unfold slot, upd, len. intros [H0 H1].
  destruct (Z.leb_spec 0 i) as [_|Hi]; [|lia].
  apply list_lookup_insert_eq. lia.
Qed.

Lemma slot_upd_ne {A : Type} (a : list A) (i j : Z) (x : A) :
  0 <= i -> i <> j -> slot (upd a i x) j = slot a j.
Proof.
  unfold slot, upd. intros H0 Hne.
  destruct (Z.leb_spec 0 j) as [Hj|Hj]; [|reflexivity].
  apply list_lookup_insert_ne. lia.
Qed.

Lemma rd_upd_eq (a : list Z) (i x : Z) :
  0 <= i < len a -> rd (upd a i x) i = x.
Proof. intros H. unfold rd. now rewrite slot_upd_eq. Qed.

Lemma rd_upd_ne (a : list Z) (i j x : Z) :
  0 <= i -> i <> j -> rd (upd a i x) j = rd a j.
Proof. intros H0 Hne. unfold rd. now rewrite slot_upd_ne. Qed.

Lemma slot_rd (a : list Z) (i : Z) : 0 <= i < len a -> slot a i = Some (rd a i).
Proof. intros H. unfold rd. destruct (slot_in_range a i H) as [x ->]. reflexivity. Qed.

Lemma load_rd (a : list Z) (i : Z) : 0 <= i < len a -> load a i = Ok (rd a i).
Proof. intros H. unfold load. now rewrite slot_rd. Qed.

Lemma load_slot {A : Type} (a : list A) (i : Z) :
  0 <= i < len a -> exists x, slot a i = Some x /\ load a i = Ok x.
Proof.
  intros H. destruct (slot_in_range a i H) as [x Hx].
  exists x. unfold load. now rewrite Hx.
Qed.

Lemma store_ok {A : Type} (a : list A) (i : Z) (x : A) :
  0 <= i < len a -> store a i x = Ok (upd a i x).
Proof.
  intros [H0 H1]. unfold store.
  destruct (Z.leb_spec 0 i); [|lia]. destruct (Z.ltb_spec i (len a)); [|lia].
  reflexivity.
Qed.

Lemma len_replicate {A : Type} (n : Z) (x : A) :
  0 <= n -> len (replicate (Z.to_nat n) x) = n.
Proof. intros H. unfold len. rewrite length_replicate. lia. Qed.

Lemma slot_replicate {A : Type} (n i : Z) (x : A) :
  0 <= i < n -> slot (replicate (Z.to_nat n) x) i = Some x.
Proof.
  intros [H0 H1]. unfold slot. destruct (Z.leb_spec 0 i); [|lia].
  apply lookup_replicate_2. lia.
Qed.

Lemma rd_replicate (n i x : Z) :
  0 <= i < n -> rd (replicate (Z.to_nat n) x) i = x.
Proof. intros H. unfold rd. now rewrite slot_replicate. Qed.

Lemma forall_from_spec (n : nat) (i : Z) (p : Z -> bool) :
  forall_from n i p = true <-> (forall j, i <= j < i + Z.of_nat n -> p j = true).
Proof.
  revert i. induction n as [|n IH]; intros i; cbn [forall_from].
  - split; [intros _ j Hj; lia|reflexivity].
  - rewrite andb_true_iff, IH. split.
    + intros [H0 H] j Hj. destruct (Z.eq_dec j i) as [->|Hne]; [exact H0|].
      apply H. lia.
    + intros H. split; [apply H; lia|]. intros j Hj. apply H. lia.
Qed.

Lemma forall_range_spec (n : Z) (p : Z -> bool) :
  forall_range n p = true <-> (forall i, 0 <= i < n -> p i = true).
Proof.
  unfold forall_range. rewrite forall_from_spec. split.
  - intros H i Hi. apply H. lia.
  - intros H i Hi. apply H. lia.
Qed.

Lemma forall_from_false (n : nat) (i : Z) (p : Z -> bool) :
  forall_from n i p = false ->
  exists j, i <= j < i + Z.of_nat n /\ p j = false.
Proof.
  revert i. induction n as [|n IH]; intros i; cbn [forall_from];
    [discriminate|].
  destruct (p i) eqn:E; simpl.
  - intros H. destruct (IH _ H) as [j [Hj Hp]]. exists j. split; [lia|exact Hp].
  - intros _. exists i. split; [lia|exact E].
Qed.

Lemma forall_range_false (n : Z) (p : Z -> bool) :
  forall_range n p = false -> exists i, 0 <= i < n /\ p i = false.
Proof.
  unfold forall_range. intros H. destruct (forall_from_false _ _ _ H) as [j [Hj Hp]].
  exists j. split; [lia|exact Hp].
Qed.

(** ** The intrinsics *)

Lemma bitmap_testbit (p : Z -> bool) (v : list Z) (n : nat) (x : Z) :
  v !! n = Some x -> Z.testbit (bits_to_Z (map p v)) (Z.of_nat n) = p x.
Proof.
  revert n. induction v as [|y v IH]; intros n H; [discriminate|].
  destruct n as [|n]; simpl in H.
  - injection H as ->. cbn [map bits_to_Z]. apply Z.testbit_0_r.
  - cbn [map bits_to_Z]. rewrite Nat2Z.inj_succ.
    rewrite Z.testbit_succ_r by lia. now apply IH.
Qed.

Lemma bitmap_all_false (p : Z -> bool) (v : list Z) :
  (forall n x, v !! n = Some x -> p x = false) -> bits_to_Z (map p v) = 0.
Proof.
  induction v as [|y v IH]; intros H; [reflexivity|].
  cbn [map bits_to_Z]. rewrite (H 0%nat y eq_refl).
  rewrite IH; [reflexivity|]. intros n x Hn. exact (H (S n) x Hn).
Qed.

Lemma bitmap_range (bs : list bool) : 0 <= bits_to_Z bs < 2 ^ len bs.
Proof.
  unfold len. induction bs as [|b bs IH]; [simpl; lia|].
  cbn [bits_to_Z length]. rewrite Nat2Z.inj_succ, Z.pow_succ_r by lia.
  destruct b; simpl Z.b2z; lia.
Qed.

Lemma zip_with_replicate_const {A B C : Type} (f : A -> B -> C)
    (v : list A) (n : nat) (c : B) :
  (length v <= n)%nat -> zip_with f v (replicate n c) = map (fun x => f x c) v.
Proof.
  revert n. induction v as [|x v IH]; intros n H; [reflexivity|].
  destruct n as [|n]; simpl in H; [lia|].
  simpl. f_equal. apply IH. lia.
Qed.

Lemma load16_lanes (a : list Z) (i : Z) :
  0 <= i -> i mod 16 = 0 -> i + 16 <= len a ->
  exists v, _mm_load_si128 a i = Ok v /\ length v = 16%nat /\
    forall n, (n < 16)%nat -> v !! n = Some (rd a (i + Z.of_nat n)).
Proof.
  intros H0 Hal Hlen. exists (take 16 (drop (Z.to_nat i) a)).
  unfold _mm_load_si128.
  destruct (Z.leb_spec 0 i); [|lia]. rewrite Hal. simpl.
  destruct (Z.leb_spec (i + 16) (len a)); [|lia]. split; [reflexivity|].
  unfold len in Hlen. split.
  - rewrite length_take, length_drop. lia.
  - intros n Hn. rewrite lookup_take_lt by lia. rewrite lookup_drop.
    assert (Hr : 0 <= i + Z.of_nat n < len a) by (unfold len; lia).
    pose proof (slot_rd a _ Hr) as Hs. unfold slot in Hs.
    destruct (Z.leb_spec 0 (i + Z.of_nat n)); [|lia].
    rewrite <- Hs. f_equal. lia.
Qed.

Lemma movemask_cmpeq (v : list Z) (c : Z) :
  length v = 16%nat ->
  _mm_movemask_epi8 (_mm_cmpeq_epi8 v (replicate 16 c))
  = bits_to_Z (map (fun x => x =? c) v).
Proof.
  intros Hl. unfold _mm_movemask_epi8, _mm_cmpeq_epi8.
  rewrite zip_with_replicate_const by lia. rewrite map_map.
  f_equal. apply map_ext. intros x. now destruct (x =? c).
Qed.

Lemma movemask_nonfull (v : list Z) :
  length v = 16%nat ->
  _mm_movemask_epi8
    (_mm_cmpeq_epi8 (_mm_and_si128 v (_mm_set1_epi8 0x80)) _mm_setzero_si128)
  = bits_to_Z (map (fun x => Z.land x 0x80 =? 0) v).
Proof.
  intros Hl. unfold _mm_and_si128, _mm_set1_epi8, _mm_setzero_si128.
  rewrite zip_with_replicate_const by lia.
  rewrite movemask_cmpeq by (rewrite length_map; exact Hl).
  now rewrite map_map.
Qed.

Lemma find_range_first (p : Z -> bool) (n a : nat) (off : Z) :
  find p (map Z.of_nat (seq a n)) = Some off ->
  Z.of_nat a <= off < Z.of_nat (a + n) /\ p off = true /\
  forall j, Z.of_nat a <= j < off -> p j = false.
Proof.
  revert a. induction n as [|n IH]; intros a H; [discriminate|].
  cbn [seq map find] in H. destruct (p (Z.of_nat a)) eqn:E.
  - injection H as <-. repeat split; try lia. exact E.
  - apply IH in H. destruct H as (Hr & Hp & Hlow).
    repeat split; try lia; [exact Hp|].
    intros j Hj. destruct (Z.eq_dec j (Z.of_nat a)) as [->|Hne]; [exact E|].
    apply Hlow. lia.
Qed.

Lemma find_range_none (p : Z -> bool) (n a : nat) :
  find p (map Z.of_nat (seq a n)) = None ->
  forall j, Z.of_nat a <= j < Z.of_nat (a + n) -> p j = false.
Proof.
  revert a. induction n as [|n IH]; intros a H j Hj; [lia|].
  cbn [seq map find] in H. destruct (p (Z.of_nat a)) eqn:E; [discriminate|].
  destruct (Z.eq_dec j (Z.of_nat a)) as [->|Hne]; [exact E|].
  apply (IH (S a) H). lia.
Qed.

Lemma BitScanForward_Some (m off : Z) :
  _BitScanForward m = Some off ->
  0 <= off < 32 /\ Z.testbit m off = true /\
  forall j, 0 <= j < off -> Z.testbit m j = false.
Proof.
  intros H. apply find_range_first in H. simpl in H.
  destruct H as (Hr & Hp & Hlow). repeat split; try lia; auto.
Qed.

Lemma BitScanForward_None (m : Z) :
  _BitScanForward m = None -> forall j, 0 <= j < 32 -> Z.testbit m j = false.
Proof.
  intros H j Hj. apply (find_range_none _ _ _ H). simpl. lia.
Qed.

Lemma clear_lowest_all : forall_range 65536 clear_lowest_check = true.
Proof. vm_compute. reflexivity. Qed.

Lemma clear_lowest (m off : Z) :
  0 <= m < 2 ^ 16 -> _BitScanForward m = Some off ->
  off < 16 /\ 0 <= Z.land m (m - 1) < m /\
  forall j, 0 <= j < 16 ->
    Z.testbit (Z.land m (m - 1)) j = Z.testbit m j && negb (j =? off).
Proof.
  intros Hm Hb.
  pose proof (proj1 (forall_range_spec _ _) clear_lowest_all m) as H.
  unfold clear_lowest_check in H. rewrite Hb in H.
  assert (Hr : 0 <= m < 65536) by (change (2 ^ 16) with 65536 in Hm; lia).
  specialize (H Hr). rewrite !andb_true_iff in H.
  destruct H as [[[H1 H2] H3] H4].
  split; [lia|]. split; [lia|].
  intros j Hj. rewrite forall_range_spec in H4. specialize (H4 j Hj).
  now apply eqb_prop in H4.
Qed.

Lemma BitScanForward_zero (m : Z) :
  0 <= m < 2 ^ 16 -> _BitScanForward m = None -> m = 0.
Proof.
  intros Hm Hb.
  pose proof (proj1 (forall_range_spec _ _) clear_lowest_all m) as H.
  unfold clear_lowest_check in H. rewrite Hb in H.
  assert (Hr : 0 <= m < 65536) by (change (2 ^ 16) with 65536 in Hm; lia).
  specialize (H Hr). lia.
Qed.

(** ** One group of the match probe *)

Lemma classic_free (meta : list Z) (i : Z) : free_in meta i \/ ~ free_in meta i.
Proof.
  destruct (forall_range 16 (fun j => negb (rd meta (i + j) =? 0))) eqn:E.
  - right. intros [j [Hj Hz]]. rewrite forall_range_spec in E.
    specialize (E j Hj). rewrite Hz in E. discriminate.
  - left. apply forall_range_false in E. destruct E as [j [Hj Hp]].
    exists j. split; [exact Hj|]. apply negb_false_iff in Hp. lia.
Qed.

Lemma match_scan_spec (keys : list Z) (key i : Z) :
  0 <= i -> i + 16 <= len keys ->
  forall fuel m lo,
    0 <= m < 2 ^ 16 -> 0 <= lo <= 16 ->
    (forall j, 0 <= j < lo -> Z.testbit m j = false) ->
    17 - lo <= Z.of_nat fuel ->
    exists r, hash__match_scan fuel keys key i m = Ok r /\
      match r with
      | Some idx => exists off, idx = i + off /\ 0 <= off < 16 /\
                      Z.testbit m off = true /\ rd keys idx = key
      | None => forall j, 0 <= j < 16 -> Z.testbit m j = true ->
                  rd keys (i + j) <> key
      end.
Proof.
  intros Hi Hlen. induction fuel as [|fuel IH]; intros m lo Hm Hlo Hlow Hfuel;
    [lia|].
  cbn [hash__match_scan]. destruct (_BitScanForward m) as [off|] eqn:Hb.
  - destruct (clear_lowest m off Hm Hb) as (Hoff & Hm' & Hbits).
    destruct (BitScanForward_Some m off Hb) as (Hoff0 & Hset & Hleast).
    assert (Hge : lo <= off).
    { destruct (Z.lt_ge_cases off lo) as [Hlt|]; [|assumption].
      rewrite Hlow in Hset by lia. discriminate. }
    rewrite load_rd by lia. cbn [bind].
    destruct (Z.eqb_spec (rd keys (i + off)) key) as [Heq|Hne].
    + eexists. split; [reflexivity|]. exists off. repeat split; auto; lia.
    + destruct (IH (Z.land m (m - 1)) (off + 1)) as (r & Hr & Hspec);
        try lia.
      { intros j Hj. rewrite Hbits by lia.
        destruct (Z.eqb_spec j off) as [->|Hjo].
        - now rewrite andb_false_r.
        - rewrite Hleast by lia. reflexivity. }
      exists r. split; [exact Hr|]. destruct r as [idx|].
      * destruct Hspec as (off' & -> & Ho' & Hs' & Hk').
        exists off'. repeat split; auto; try lia.
        rewrite Hbits in Hs' by lia. now apply andb_true_iff in Hs'.
      * intros j Hj Hs. destruct (Z.eq_dec j off) as [->|Hjo]; [exact Hne|].
        apply Hspec; [exact Hj|]. rewrite Hbits by lia. rewrite Hs.
        destruct (Z.eqb_spec j off); [contradiction|reflexivity].
  - eexists. split; [reflexivity|]. intros j Hj Hs.
    rewrite (BitScanForward_None m Hb) in Hs by lia. discriminate.
Qed.

Lemma lanes_testbit (p : Z -> bool) (a v : list Z) (i j : Z) :
  (forall n, (n < 16)%nat -> v !! n = Some (rd a (i + Z.of_nat n))) ->
  0 <= j < 16 ->
  Z.testbit (bits_to_Z (map p v)) j = p (rd a (i + j)).
Proof.
  intros Hv Hj. replace j with (Z.of_nat (Z.to_nat j)) at 1 by lia.
  rewrite (bitmap_testbit p v _ (rd a (i + j))); [reflexivity|].
  rewrite Hv by lia. do 2 f_equal. lia.
Qed.

Lemma lanes_bitmap_range (p : Z -> bool) (v : list Z) :
  length v = 16%nat -> 0 <= bits_to_Z (map p v) < 2 ^ 16.
Proof.
  intros Hl. pose proof (bitmap_range (map p v)) as H.
  unfold len in H. rewrite length_map, Hl in H. exact H.
Qed.

Lemma lanes_bitmap_zero (p : Z -> bool) (a v : list Z) (i : Z) :
  length v = 16%nat ->
  (forall n, (n < 16)%nat -> v !! n = Some (rd a (i + Z.of_nat n))) ->
  (bits_to_Z (map p v) = 0 <-> forall j, 0 <= j < 16 -> p (rd a (i + j)) = false).
Proof.
  intros Hl Hv. split.
  - intros H0 j Hj. rewrite <- (lanes_testbit p a v i j Hv Hj), H0.
    apply Z.testbit_0_l.
  - intros H. apply bitmap_all_false. intros n x Hn.
    assert (Hlt : (n < 16)%nat) by (apply lookup_lt_Some in Hn; lia).
    rewrite Hv in Hn by exact Hlt. injection Hn as <-. apply H. lia.
Qed.

(** One turn of the [for(;;)] loop of [hash__get_idx]. *)
Lemma get_idx_step (fuel : nat) (meta keys : list Z) (key m mask i : Z) :
  0 <= i -> i mod 16 = 0 -> i + 16 <= len meta -> len keys = len meta ->
  let r := hash__get_idx_loop (S fuel) meta keys key m mask i in
  (exists idx, i <= idx < i + 16 /\ rd meta idx = mask /\ rd keys idx = key /\
     r = Ok (Some idx))
  \/ (no_hit_in meta keys mask key i /\ free_in meta i /\ r = Ok None)
  \/ (no_hit_in meta keys mask key i /\ ~ free_in meta i /\
      r = hash__get_idx_loop fuel meta keys key m mask (hash__next m i 16)).
Proof.
  intros Hi Hal Hlen Hk r. subst r. cbn [hash__get_idx_loop].
  destruct (load16_lanes meta i Hi Hal Hlen) as (v & -> & Hl & Hv).
  cbn [bind]. unfold _mm_set1_epi8, _mm_setzero_si128.
  rewrite !movemask_cmpeq by exact Hl.
  set (mtch := bits_to_Z (map (fun x => x =? mask) v)).
  set (free := bits_to_Z (map (fun x => x =? 0) v)).
  assert (Hfree : free = 0 <-> ~ free_in meta i).
  { unfold free. rewrite (lanes_bitmap_zero _ meta v i Hl Hv). split.
    - intros H [j [Hj Hz]]. specialize (H j Hj). rewrite Hz in H. discriminate.
    - intros H j Hj. destruct (Z.eqb_spec (rd meta (i + j)) 0) as [Hz|]; auto.
      exfalso. apply H. now exists j. }
  assert (Hmiss : no_hit_in meta keys mask key i ->
    (no_hit_in meta keys mask key i /\ free_in meta i /\
       (if negb (free =? 0) then @Ok (option Z) None
        else hash__get_idx_loop fuel meta keys key m mask (hash__next m i 16))
       = Ok None)
    \/ (no_hit_in meta keys mask key i /\ ~ free_in meta i /\
        (if negb (free =? 0) then @Ok (option Z) None
         else hash__get_idx_loop fuel meta keys key m mask (hash__next m i 16))
        = hash__get_idx_loop fuel meta keys key m mask (hash__next m i 16))).
  { intros Hno. destruct (Z.eqb_spec free 0) as [Hz|Hnz]; cbn [negb].
    - right. repeat split; auto. now apply Hfree.
    - left. repeat split; auto.
      destruct (classic_free meta i) as [Hf|Hf]; [exact Hf|].
      apply Hfree in Hf. contradiction. }
  destruct (Z.eqb_spec mtch 0) as [Hz|Hnz]; cbn [negb bind].
  - right. apply Hmiss. intros j Hj [Hm Hkey].
    unfold mtch in Hz. rewrite (lanes_bitmap_zero _ meta v i Hl Hv) in Hz.
    specialize (Hz j Hj). simpl in Hz. lia.
  - destruct (match_scan_spec keys key i Hi ltac:(lia) 17%nat mtch 0)
      as (hit & -> & Hspec); try lia.
    { apply lanes_bitmap_range. exact Hl. }
    cbn [bind]. destruct hit as [idx|].
    + left. destruct Hspec as (off & -> & Hoff & Hs & Hkey).
      exists (i + off). repeat split; auto; try lia.
      unfold mtch in Hs. rewrite (lanes_testbit _ meta v i off Hv Hoff) in Hs.
      lia.
    + right. apply Hmiss. intros j Hj [Hm Hkey].
      apply (Hspec j Hj); [|exact Hkey].
      unfold mtch. rewrite (lanes_testbit _ meta v i j Hv Hj). lia.
Qed.

(** ** Capacities and the group cursor *)

Lemma pow2_groups (k m : Z) :
  4 <= k <= 63 -> m = 2 ^ k ->
  m / 16 = 2 ^ (k - 4) /\ m = 16 * (m / 16) /\ 1 <= m / 16 /\ 16 <= m <= 2 ^ 63.
Proof.
  intros Hk ->.
  assert (E : 2 ^ k = 2 ^ (k - 4) * 16).
  { replace k with ((k - 4) + 4) at 1 by lia. rewrite Z.pow_add_r by lia.
    reflexivity. }
  assert (Hpos : 0 < 2 ^ (k - 4)) by (apply Z.pow_pos_nonneg; lia).
  assert (Hdiv : 2 ^ k / 16 = 2 ^ (k - 4)).
  { rewrite E. apply Z.div_mul. lia. }
  assert (Hle : 2 ^ k <= 2 ^ 63) by (apply Z.pow_le_mono_r; lia).
  rewrite Hdiv. lia.
Qed.

Lemma land_pow2_pred (k a : Z) : 0 <= k -> Z.land a (2 ^ k - 1) = a mod 2 ^ k.
Proof.
  intros Hk. rewrite <- Z.land_ones by lia. f_equal.
  rewrite Z.ones_equiv. lia.
Qed.

Lemma wrap64_small (z : Z) : 0 <= z < 2 ^ 64 -> wrap64 z = z.
Proof. intros H. unfold wrap64. now apply Z.mod_small. Qed.

Lemma hash__next_mod (k m i step : Z) :
  4 <= k <= 63 -> m = 2 ^ k -> 0 <= i + step < 2 ^ 64 ->
  hash__next m i step = (i + step) mod m.
Proof.
  intros Hk Hm Hs. destruct (pow2_groups k m Hk Hm) as (_ & _ & _ & Hr).
  unfold hash__next. rewrite (wrap64_small (i + step)) by exact Hs.
  rewrite wrap64_small by lia. subst m. apply land_pow2_pred. lia.
Qed.

Lemma hash__start_home (k m key : Z) :
  4 <= k <= 63 -> m = 2 ^ k ->
  hash__start m key = 16 * home m key /\ 0 <= home m key < m / 16.
Proof.
  intros Hk Hm. destruct (pow2_groups k m Hk Hm) as (HG & Hm16 & HG1 & Hr).
  assert (E : hash__start m key
              = 16 * (hash__hash57 (hash__hash key) mod (m / 16))).
  { unfold hash__start. cbv zeta.
    rewrite (wrap64_small (m / 16 - 1)) by lia.
    rewrite HG. rewrite land_pow2_pred by lia. rewrite <- HG.
    pose proof (Z.mod_pos_bound (hash__hash57 (hash__hash key)) (m / 16)
                  ltac:(lia)) as Hb.
    rewrite wrap64_small by lia. lia. }
  unfold home. rewrite E.
  pose proof (Z.mod_pos_bound (hash__hash57 (hash__hash key)) (m / 16)
                ltac:(lia)) as Hb.
  rewrite (Z.mul_comm 16), Z.div_mul by lia. lia.
Qed.

Lemma next_group (k m x : Z) :
  4 <= k <= 63 -> m = 2 ^ k -> 0 <= x < m / 16 ->
  hash__next m (16 * x) 16 = 16 * ((x + 1) mod (m / 16)).
Proof.
  intros Hk Hm Hx. destruct (pow2_groups k m Hk Hm) as (HG & Hm16 & HG1 & Hr).
  rewrite (hash__next_mod k) by lia.
  rewrite Hm16 at 1. replace (16 * x + 16) with (16 * (x + 1)) by lia.
  apply Z.mul_mod_distr_l; lia.
Qed.

Lemma group_shift (G x e : Z) :
  0 < G -> ((x + 1) mod G + e) mod G = (x + (e + 1)) mod G.
Proof.
  intros HG. rewrite Z.add_mod_idemp_l by lia. f_equal. lia.
Qed.

(** Every group is met within one revolution from any start. *)
Lemma group_reached (G x y : Z) :
  0 < G -> 0 <= y < G ->
  0 <= (y - x) mod G < G /\ (x + (y - x) mod G) mod G = y.
Proof.
  intros HG Hy. split; [apply Z.mod_pos_bound; lia|].
  rewrite Z.add_mod_idemp_r by lia. replace (x + (y - x)) with y by lia.
  apply Z.mod_small. lia.
Qed.

(** ** The match probe as a whole *)

Lemma get_idx_loop_spec (meta keys : list Z) (key m mask : Z) :
  shape meta keys m ->
  forall fuel x, 0 <= x < m / 16 ->
  match hash__get_idx_loop fuel meta keys key m mask (16 * x) with
  | Ok (Some idx) =>
      exists e, 0 <= e < Z.of_nat fuel /\
        16 * ((x + e) mod (m / 16)) <= idx < 16 * ((x + e) mod (m / 16)) + 16 /\
        rd meta idx = mask /\ rd keys idx = key /\
        forall e', 0 <= e' < e -> quiet meta keys m mask key x e'
  | Ok None =>
      exists e, 0 <= e < Z.of_nat fuel /\
        (forall e', 0 <= e' < e -> quiet meta keys m mask key x e') /\
        no_hit_in meta keys mask key (16 * ((x + e) mod (m / 16))) /\
        free_in meta (16 * ((x + e) mod (m / 16)))
  | Diverge =>
      forall e', 0 <= e' < Z.of_nat fuel -> quiet meta keys m mask key x e'
  | Fault => False
  end.
Proof.
  intros ((k & Hk & Hm) & Hlm & Hlk).
  destruct (pow2_groups k m Hk Hm) as (HG & Hm16 & HG1 & Hr).
  induction fuel as [|fuel IH]; intros x Hx.
  - cbn [hash__get_idx_loop]. intros e' He'. lia.
  - assert (Hx0 : (x + 0) mod (m / 16) = x)
      by (rewrite Z.add_0_r; apply Z.mod_small; lia).
    destruct (get_idx_step fuel meta keys key m mask (16 * x))
      as [(idx & Hidx & Hmt & Hky & ->)|[(Hno & Hfr & ->)|(Hno & Hnf & ->)]];
      try lia.
    { rewrite Z.mul_comm. apply Z.mod_mul. lia. }
    + exists 0. rewrite Hx0.
      split; [lia|]. split; [lia|]. split; [exact Hmt|]. split; [exact Hky|].
      intros e' He'. lia.
    + exists 0. rewrite Hx0.
      split; [lia|]. split; [|split; assumption]. intros e' He'. lia.
    + rewrite (next_group k m x Hk Hm Hx).
      assert (Hx' : 0 <= (x + 1) mod (m / 16) < m / 16)
        by (apply Z.mod_pos_bound; lia).
      specialize (IH _ Hx').
      assert (Hq : forall e e0, 0 <= e0 < e + 1 ->
                (forall e', 0 <= e' < e ->
                   quiet meta keys m mask key ((x + 1) mod (m / 16)) e') ->
                quiet meta keys m mask key x e0).
      { intros e e0 He0 Hall. destruct (Z.eq_dec e0 0) as [->|Hne].
        - unfold quiet. rewrite Hx0. split; assumption.
        - specialize (Hall (e0 - 1) ltac:(lia)). unfold quiet in *.
          rewrite group_shift in Hall by lia.
          replace (e0 - 1 + 1) with e0 in Hall by lia. exact Hall. }
      destruct (hash__get_idx_loop fuel meta keys key m mask
                  (16 * ((x + 1) mod (m / 16)))) as [[idx|]| |].
      * destruct IH as (e & He & Hin & Hmt & Hky & Hall).
        exists (e + 1). rewrite <- group_shift by lia.
        split; [lia|]. split; [lia|]. split; [exact Hmt|]. split; [exact Hky|].
        intros e0 He0. apply (Hq e); auto.
      * destruct IH as (e & He & Hall & Hno' & Hfr').
        exists (e + 1). rewrite <- group_shift by lia.
        split; [lia|]. split; [|split; assumption].
        intros e0 He0. apply (Hq e); auto.
      * exact IH.
      * intros e0 He0. apply (Hq (Z.of_nat fuel)); [lia|exact IH].
Qed.

(** ** The executable invariant and its propositional reading *)

Lemma group_no_free_iff (meta : list Z) (g : Z) :
  group_no_free meta g = true <-> ~ free_in meta (16 * g).
Proof.
  unfold group_no_free, free_in, hash_is_free. rewrite forall_range_spec. split.
  - intros H [j [Hj Hz]]. specialize (H j Hj). rewrite Hz in H. discriminate.
  - intros H j Hj. destruct (Z.eqb_spec (rd meta (16 * g + j)) 0); auto.
    exfalso. apply H. eauto.
Qed.

Lemma on_probe_path_iff (meta : list Z) (m key i : Z) :
  on_probe_path meta m key i = true <-> pathP meta m key i.
Proof.
  unfold on_probe_path, pathP, home. cbv zeta. rewrite forall_range_spec.
  split; intros H e He; apply group_no_free_iff; auto.
Qed.

Lemma probe_inv_iff (meta keys : list Z) (m : Z) :
  probe_inv meta keys m = true <-> probeP meta keys m.
Proof.
  unfold probe_inv, probeP. rewrite forall_range_spec. split.
  - intros H i Hi Hf. specialize (H i Hi). rewrite Hf in H.
    now apply on_probe_path_iff.
  - intros H i Hi. destruct (hash_is_full (rd meta i)) eqn:Hf; [|reflexivity].
    apply on_probe_path_iff. auto.
Qed.

Lemma tags_ok_iff (meta keys : list Z) (m : Z) :
  tags_ok meta keys m = true <-> tagsP meta keys m.
Proof.
  unfold tags_ok, tagsP. rewrite forall_range_spec. split.
  - intros H i Hi Hf. specialize (H i Hi). rewrite Hf in H. simpl in H. lia.
  - intros H i Hi. destruct (hash_is_full (rd meta i)) eqn:Hf; [|reflexivity].
    simpl. specialize (H i Hi Hf). lia.
Qed.

Lemma keys_unique_iff (meta keys : list Z) (m : Z) :
  keys_unique meta keys m = true <-> uniqP meta keys m.
Proof.
  unfold keys_unique, uniqP. rewrite forall_range_spec. split.
  - intros H i j Hi Hj Hfi Hfj Hk. specialize (H i Hi).
    rewrite forall_range_spec in H. specialize (H j Hj).
    rewrite Hfi, Hfj, Hk, Z.eqb_refl in H. simpl in H. lia.
  - intros H i Hi. rewrite forall_range_spec. intros j Hj.
    destruct (hash_is_full (rd meta i)) eqn:Hfi; [|reflexivity].
    destruct (hash_is_full (rd meta j)) eqn:Hfj; [|reflexivity].
    destruct (Z.eqb_spec (rd keys i) (rd keys j)) as [Hk|]; [|reflexivity].
    simpl. specialize (H i j Hi Hj Hfi Hfj Hk). lia.
Qed.

Lemma bytes_ok_iff (meta : list Z) (m : Z) :
  bytes_ok meta m = true <-> bytesP meta m.
Proof.
  unfold bytes_ok, bytesP, HASH__FREE, HASH__TOMB. rewrite forall_range_spec.
  split; intros H i Hi; specialize (H i Hi); cbv zeta in *; lia.
Qed.

Lemma pow2_log2_iff (m : Z) :
  (((m =? 2 ^ Z.log2 m) = true /\ (16 <=? m) = true) /\ (m <=? 2 ^ 63) = true)
  <-> exists k, 4 <= k <= 63 /\ m = 2 ^ k.
Proof.
  split.
  - intros [[H1 H2] H3]. exists (Z.log2 m).
    apply Z.eqb_eq in H1. apply Z.leb_le in H2, H3. split; [|exact H1].
    split.
    + change 4 with (Z.log2 16). apply Z.log2_le_mono. exact H2.
    + change 63 with (Z.log2 (2 ^ 63)). apply Z.log2_le_mono. exact H3.
  - intros [k [Hk ->]]. rewrite Z.log2_pow2 by lia.
    rewrite Z.eqb_refl, Z.leb_le, Z.leb_le. split; [split; [reflexivity|]|].
    + change 16 with (2 ^ 4). apply Z.pow_le_mono_r; lia.
    + apply Z.pow_le_mono_r; lia.
Qed.

Lemma hash_wf_iff (t : image) : hash_wf t = true <-> WF t.
Proof.
  unfold hash_wf. cbv zeta.
  rewrite !andb_true_iff, pow2_log2_iff, bytes_ok_iff, tags_ok_iff,
    keys_unique_iff, probe_inv_iff, !Z.eqb_eq.
  split.
  - intros [[[[[[[[Hp H2] H3] H4] H5] H6] H7] H8] H9].
    constructor; auto. constructor; auto. split; auto.
  - intros [[[Hp [Hlm Hlk]] Hb Ht Hu Hpr] Hv Hs].
    repeat split; assumption.
Qed.

(** ** What the match probe returns *)

Lemma slot_group (m s : Z) :
  m = 16 * (m / 16) -> 0 <= s < m ->
  0 <= s / 16 < m / 16 /\ s = 16 * (s / 16) + s mod 16 /\ 0 <= s mod 16 < 16.
Proof.
  intros Hm Hs. pose proof (Z.div_mod s 16 ltac:(lia)) as Hd.
  pose proof (Z.mod_pos_bound s 16 ltac:(lia)) as Hb.
  repeat split; lia.
Qed.

Lemma in_group_div (y idx : Z) : 16 * y <= idx < 16 * y + 16 -> idx / 16 = y.
Proof.
  intros H. symmetry. apply (Z.div_unique idx 16 y (idx - 16 * y)); lia.
Qed.

Lemma get_idx_loop_found (meta keys : list Z) (key m mask idx : Z) :
  shape meta keys m ->
  hash__get_idx_loop (Z.to_nat (m / 16)) meta keys key m mask (hash__start m key)
    = Ok (Some idx) ->
  0 <= idx < m /\ rd meta idx = mask /\ rd keys idx = key.
Proof.
  intros Hsh Hr. pose proof Hsh as ((k & Hk & Hm) & _).
  destruct (pow2_groups k m Hk Hm) as (HG & Hm16 & HG1 & Hrg).
  destruct (hash__start_home k m key Hk Hm) as (Hst & Hh).
  pose proof (get_idx_loop_spec meta keys key m mask Hsh
                (Z.to_nat (m / 16)) (home m key) Hh) as Hspec.
  rewrite <- Hst, Hr in Hspec. destruct Hspec as (e & He & Hin & Hmt & Hky & _).
  pose proof (Z.mod_pos_bound (home m key + e) (m / 16) ltac:(lia)).
  repeat split; auto; lia.
Qed.

Lemma get_idx_loop_finds (meta keys : list Z) (key m mask s : Z) :
  shape meta keys m -> 0 <= s < m ->
  rd meta s = mask -> rd keys s = key -> pathP meta m key s ->
  exists idx,
    hash__get_idx_loop (Z.to_nat (m / 16)) meta keys key m mask
      (hash__start m key) = Ok (Some idx)
    /\ 0 <= idx < m /\ rd meta idx = mask /\ rd keys idx = key.
Proof.
  intros Hsh Hs Hmt Hky Hpath. pose proof Hsh as ((k & Hk & Hm) & _).
  destruct (pow2_groups k m Hk Hm) as (HG & Hm16 & HG1 & Hrg).
  destruct (hash__start_home k m key Hk Hm) as (Hst & Hh).
  destruct (slot_group m s Hm16 Hs) as (Hy & Hsd & Hsm).
  destruct (group_reached (m / 16) (home m key) (s / 16) ltac:(lia) Hy)
    as (Hd & Hdy).
  set (d := (s / 16 - home m key) mod (m / 16)) in *.
  assert (Hhit : forall e, e = d ->
            ~ no_hit_in meta keys mask key
                (16 * ((home m key + e) mod (m / 16)))).
  { intros e -> Hno. rewrite Hdy in Hno. apply (Hno (s mod 16) Hsm).
    rewrite <- Hsd. split; assumption. }
  pose proof (get_idx_loop_spec meta keys key m mask Hsh
                (Z.to_nat (m / 16)) (home m key) Hh) as Hspec.
  rewrite <- Hst in Hspec.
  destruct (hash__get_idx_loop (Z.to_nat (m / 16)) meta keys key m mask
              (hash__start m key)) as [[idx|]| |] eqn:Hr.
  - exists idx. split; [reflexivity|].
    now apply get_idx_loop_found.
  - exfalso. destruct Hspec as (e & He & Hall & Hno & Hfr).
    destruct (Z.lt_trichotomy d e) as [Hlt|[Heq|Hgt]].
    + apply (Hhit d eq_refl). apply (Hall d). lia.
    + apply (Hhit e); auto.
    + apply (Hpath e); [fold d; lia|exact Hfr].
  - destruct Hspec.
  - exfalso. apply (Hhit d eq_refl). apply (Hspec d). lia.
Qed.

Lemma get_idx_loop_misses (meta keys : list Z) (key m mask : Z) :
  shape meta keys m ->
  (forall s, 0 <= s < m -> ~ (rd meta s = mask /\ rd keys s = key)) ->
  (exists s, 0 <= s < m /\ rd meta s = 0) ->
  hash__get_idx_loop (Z.to_nat (m / 16)) meta keys key m mask (hash__start m key)
    = Ok None.
Proof.
  intros Hsh Hno [s [Hs Hz]]. pose proof Hsh as ((k & Hk & Hm) & _).
  destruct (pow2_groups k m Hk Hm) as (HG & Hm16 & HG1 & Hrg).
  destruct (hash__start_home k m key Hk Hm) as (Hst & Hh).
  destruct (slot_group m s Hm16 Hs) as (Hy & Hsd & Hsm).
  destruct (group_reached (m / 16) (home m key) (s / 16) ltac:(lia) Hy)
    as (Hd & Hdy).
  pose proof (get_idx_loop_spec meta keys key m mask Hsh
                (Z.to_nat (m / 16)) (home m key) Hh) as Hspec.
  rewrite <- Hst in Hspec.
  destruct (hash__get_idx_loop (Z.to_nat (m / 16)) meta keys key m mask
              (hash__start m key)) as [[idx|]| |] eqn:Hr.
  - exfalso. apply get_idx_loop_found in Hr; [|exact Hsh].
    destruct Hr as (Hi & Hmt & Hky). apply (Hno idx Hi). split; assumption.
  - reflexivity.
  - destruct Hspec.
  - exfalso.
    destruct (Hspec ((s / 16 - home m key) mod (m / 16)) ltac:(lia))
      as [_ Hnf].
    apply Hnf. rewrite Hdy. exists (s mod 16). split; [exact Hsm|].
    rewrite <- Hsd. exact Hz.
Qed.

(** A miss is reported at a group with a Free byte. *)
Lemma get_idx_loop_none_free (meta keys : list Z) (key m mask : Z) :
  shape meta keys m ->
  hash__get_idx_loop (Z.to_nat (m / 16)) meta keys key m mask (hash__start m key)
    = Ok None ->
  exists s, 0 <= s < m /\ rd meta s = 0.
Proof.
  intros Hsh Hr. pose proof Hsh as ((k & Hk & Hm) & _).
  destruct (pow2_groups k m Hk Hm) as (HG & Hm16 & HG1 & Hrg).
  destruct (hash__start_home k m key Hk Hm) as (Hst & Hh).
  pose proof (get_idx_loop_spec meta keys key m mask Hsh
                (Z.to_nat (m / 16)) (home m key) Hh) as Hspec.
  rewrite <- Hst, Hr in Hspec.
  destruct Hspec as (e & He & _ & _ & (j & Hj & Hz)).
  pose proof (Z.mod_pos_bound (home m key + e) (m / 16) ltac:(lia)).
  eexists. split; [|exact Hz]. lia.
Qed.

Lemma get_idx_loop_no_fault (meta keys : list Z) (key m mask : Z) :
  shape meta keys m ->
  hash__get_idx_loop (Z.to_nat (m / 16)) meta keys key m mask (hash__start m key)
    <> Fault.
Proof.
  intros Hsh Hr. pose proof Hsh as ((k & Hk & Hm) & _).
  destruct (hash__start_home k m key Hk Hm) as (Hst & Hh).
  pose proof (get_idx_loop_spec meta keys key m mask Hsh
                (Z.to_nat (m / 16)) (home m key) Hh) as Hspec.
  rewrite <- Hst, Hr in Hspec. exact Hspec.
Qed.

(** ** Bytes *)

Lemma land_128 (x : Z) : Z.land x 128 = if Z.testbit x 7 then 128 else 0.
Proof.
  apply Z.bits_inj'. intros n Hn. rewrite Z.land_spec.
  change 128 with (2 ^ 7) at 1. rewrite Z.pow2_bits_eqb by lia.
  destruct (Z.eqb_spec 7 n) as [<-|Hne].
  - destruct (Z.testbit x 7); reflexivity.
  - rewrite andb_false_r. destruct (Z.testbit x 7).
    + change 128 with (2 ^ 7). rewrite Z.pow2_bits_eqb by lia.
      symmetry. now apply Z.eqb_neq.
    + now rewrite Z.testbit_0_l.
Qed.

Lemma nonfull_lane (x : Z) : (Z.land x 128 =? 0) = negb (hash_is_full x).
Proof.
  unfold hash_is_full. rewrite land_128. now destruct (Z.testbit x 7).
Qed.

Lemma hash__hash7_range (h : Z) : 0 <= hash__hash7 h < 128.
Proof.
  unfold hash__hash7. change 127 with (2 ^ 7 - 1).
  rewrite land_pow2_pred by lia. apply Z.mod_pos_bound. lia.
Qed.

Lemma lor_128_all :
  forall_range 128 (fun a => (Z.lor a 128 =? a + 128)) = true.
Proof. vm_compute. reflexivity. Qed.

Lemma full_byte_all :
  forall_range 256 (fun b => eqb (hash_is_full b) (128 <=? b)) = true.
Proof. vm_compute. reflexivity. Qed.

Lemma hash__mask_range (key : Z) : 128 <= hash__mask key <= 255.
Proof.
  unfold hash__mask. pose proof (hash__hash7_range (hash__hash key)) as Hr.
  pose proof (proj1 (forall_range_spec _ _) lor_128_all _ Hr) as H.
  cbv beta in H. apply Z.eqb_eq in H. lia.
Qed.

Lemma full_byte (b : Z) : 0 <= b <= 255 -> hash_is_full b = (128 <=? b).
Proof.
  intros Hb.
  pose proof (proj1 (forall_range_spec _ _) full_byte_all b ltac:(lia)) as H.
  now apply eqb_prop in H.
Qed.

Lemma hash__mask_full (key : Z) : hash_is_full (hash__mask key) = true.
Proof.
  pose proof (hash__mask_range key) as Hr. rewrite full_byte by lia. lia.
Qed.

Lemma full_not_free (b : Z) : hash_is_full b = true -> b <> 0.
Proof. intros H ->. discriminate. Qed.

Lemma count_full_bounds (meta : list Z) : 0 <= count_full meta <= len meta.
Proof.
  unfold len. induction meta as [|b meta IH]; cbn [count_full length]; [lia|].
  destruct (hash_is_full b); simpl Z.b2z; lia.
Qed.

Lemma count_full_insert (meta : list Z) (n : nat) (old b : Z) :
  meta !! n = Some old ->
  count_full (<[n := b]> meta)
  = count_full meta - Z.b2z (hash_is_full old) + Z.b2z (hash_is_full b).
Proof.
  revert n. induction meta as [|y meta IH]; intros n H; [discriminate|].
  destruct n as [|n]; simpl in H.
  - injection H as ->. change (<[0%nat:=b]> (old :: meta)) with (b :: meta).
    cbn [count_full]. lia.
  - specialize (IH n H).
    change (<[S n:=b]> (y :: meta)) with (y :: <[n:=b]> meta).
    cbn [count_full]. lia.
Qed.

Lemma count_full_upd (meta : list Z) (i b : Z) :
  0 <= i < len meta ->
  count_full (upd meta i b)
  = count_full meta - Z.b2z (hash_is_full (rd meta i)) + Z.b2z (hash_is_full b).
Proof.
  intros Hi. unfold upd. apply count_full_insert.
  pose proof (slot_rd meta i Hi) as H. unfold slot in H.
  destruct (Z.leb_spec 0 i); [exact H|lia].
Qed.

(** A slot that is not Full exists when fewer than all bytes are Full. *)
Lemma count_full_room (meta : list Z) :
  count_full meta < len meta ->
  exists s, 0 <= s < len meta /\ hash_is_full (rd meta s) = false.
Proof.
  unfold len. induction meta as [|b meta IH]; cbn [count_full length]; [lia|].
  intros H. destruct (hash_is_full b) eqn:Hb.
  - destruct IH as (s & Hs & Hf); [simpl Z.b2z in H; lia|].
    exists (s + 1). split; [lia|]. unfold rd, slot in *.
    destruct (Z.leb_spec 0 s); [|lia]. destruct (Z.leb_spec 0 (s + 1)); [|lia].
    replace (Z.to_nat (s + 1)) with (S (Z.to_nat s)) by lia. exact Hf.
  - exists 0. split; [lia|]. exact Hb.
Qed.

(** Overwriting a byte with a non-zero byte creates no Free byte. *)
Lemma free_in_upd (meta : list Z) (idx b i : Z) :
  0 <= idx < len meta -> b <> 0 ->
  free_in (upd meta idx b) i -> free_in meta i.
Proof.
  intros Hidx Hb (j & Hj & Hz). exists j. split; [exact Hj|].
  destruct (Z.eq_dec idx (i + j)) as [E|E].
  - rewrite <- E, rd_upd_eq in Hz by exact Hidx. contradiction.
  - rewrite rd_upd_ne in Hz by lia. exact Hz.
Qed.

Lemma pathP_upd (meta : list Z) (m key i idx b : Z) :
  0 <= idx < len meta -> b <> 0 ->
  pathP meta m key i -> pathP (upd meta idx b) m key i.
Proof.
  intros Hidx Hb H e He Hf. apply (H e He). eapply free_in_upd; eauto.
Qed.

(** ** The free-or-tombstone probe *)

Lemma freetomb_step (fuel : nat) (meta : list Z) (m i : Z) :
  0 <= i -> i mod 16 = 0 -> i + 16 <= len meta ->
  let r := hash__get_freetombidx_loop (S fuel) meta m i in
  (exists off, 0 <= off < 16 /\ hash_is_full (rd meta (i + off)) = false /\
     r = Ok (i + off))
  \/ ((forall j, 0 <= j < 16 -> hash_is_full (rd meta (i + j)) = true) /\
      r = hash__get_freetombidx_loop fuel meta m (hash__next m i 16)).
Proof.
  intros Hi Hal Hlen r. subst r. cbn [hash__get_freetombidx_loop].
  destruct (load16_lanes meta i Hi Hal Hlen) as (v & -> & Hl & Hv).
  cbn [bind]. rewrite movemask_nonfull by exact Hl.
  set (freetomb := bits_to_Z (map (fun x => Z.land x 128 =? 0) v)).
  assert (Hrange : 0 <= freetomb < 2 ^ 16) by (apply lanes_bitmap_range; exact Hl).
  destruct (Z.eqb_spec freetomb 0) as [Hz|Hnz]; cbn [negb].
  - right. split; [|reflexivity]. intros j Hj.
    unfold freetomb in Hz. rewrite (lanes_bitmap_zero _ meta v i Hl Hv) in Hz.
    specialize (Hz j Hj). cbv beta in Hz. rewrite nonfull_lane in Hz.
    now apply negb_false_iff in Hz.
  - left. destruct (_BitScanForward freetomb) as [off|] eqn:Hb.
    + destruct (clear_lowest freetomb off Hrange Hb) as (Hoff & _ & _).
      destruct (BitScanForward_Some freetomb off Hb) as (Hoff0 & Hset & _).
      exists off. split; [lia|]. split; [|reflexivity].
      unfold freetomb in Hset.
      rewrite (lanes_testbit _ meta v i off Hv ltac:(lia)) in Hset.
      rewrite nonfull_lane in Hset. now apply negb_true_iff in Hset.
    + apply BitScanForward_zero in Hb; [contradiction|exact Hrange].
Qed.

Lemma freetomb_loop_spec (meta keys : list Z) (m : Z) :
  shape meta keys m ->
  forall fuel x, 0 <= x < m / 16 ->
  match hash__get_freetombidx_loop fuel meta m (16 * x) with
  | Ok idx =>
      exists e, 0 <= e < Z.of_nat fuel /\
        16 * ((x + e) mod (m / 16)) <= idx < 16 * ((x + e) mod (m / 16)) + 16 /\
        hash_is_full (rd meta idx) = false /\
        forall e', 0 <= e' < e ->
          ~ free_in meta (16 * ((x + e') mod (m / 16)))
  | Diverge =>
      forall e' j, 0 <= e' < Z.of_nat fuel -> 0 <= j < 16 ->
        hash_is_full (rd meta (16 * ((x + e') mod (m / 16)) + j)) = true
  | Fault => False
  end.
Proof.
  intros ((k & Hk & Hm) & Hlm & Hlk).
  destruct (pow2_groups k m Hk Hm) as (HG & Hm16 & HG1 & Hr).
  induction fuel as [|fuel IH]; intros x Hx.
  - cbn [hash__get_freetombidx_loop]. intros e' j He'. lia.
  - assert (Hx0 : (x + 0) mod (m / 16) = x)
      by (rewrite Z.add_0_r; apply Z.mod_small; lia).
    destruct (freetomb_step fuel meta m (16 * x))
      as [(off & Hoff & Hnf & ->)|(Hall & ->)]; try lia.
    { rewrite Z.mul_comm. apply Z.mod_mul. lia. }
    + exists 0. rewrite Hx0. split; [lia|]. split; [lia|].
      split; [exact Hnf|]. intros e' He'. lia.
    + rewrite (next_group k m x Hk Hm Hx).
      assert (Hx' : 0 <= (x + 1) mod (m / 16) < m / 16)
        by (apply Z.mod_pos_bound; lia).
      specialize (IH _ Hx').
      assert (Hfull0 : ~ free_in meta (16 * x)).
      { intros (j & Hj & Hz). specialize (Hall j Hj). rewrite Hz in Hall.
        discriminate. }
      destruct (hash__get_freetombidx_loop fuel meta m
                  (16 * ((x + 1) mod (m / 16)))) as [idx| |].
      * destruct IH as (e & He & Hin & Hnf & Hbefore).
        exists (e + 1). rewrite <- group_shift by lia.
        split; [lia|]. split; [lia|]. split; [exact Hnf|].
        intros e0 He0. destruct (Z.eq_dec e0 0) as [->|Hne].
        -- now rewrite Hx0.
        -- specialize (Hbefore (e0 - 1) ltac:(lia)).
           rewrite group_shift in Hbefore by lia.
           now replace (e0 - 1 + 1) with e0 in Hbefore by lia.
      * exact IH.
      * intros e0 j He0 Hj. destruct (Z.eq_dec e0 0) as [->|Hne].
        -- rewrite Hx0. now apply Hall.
        -- specialize (IH (e0 - 1) j ltac:(lia) Hj).
           rewrite group_shift in IH by lia.
           now replace (e0 - 1 + 1) with e0 in IH by lia.
Qed.

Lemma freetomb_loop_finds (meta keys : list Z) (m key : Z) :
  shape meta keys m ->
  (exists s, 0 <= s < m /\ hash_is_full (rd meta s) = false) ->
  exists idx,
    hash__get_freetombidx_loop (Z.to_nat (m / 16)) meta m (hash__start m key)
      = Ok idx
    /\ 0 <= idx < m /\ hash_is_full (rd meta idx) = false
    /\ pathP meta m key idx.
Proof.
  intros Hsh (s & Hs & Hnf). pose proof Hsh as ((k & Hk & Hm) & _).
  destruct (pow2_groups k m Hk Hm) as (HG & Hm16 & HG1 & Hrg).
  destruct (hash__start_home k m key Hk Hm) as (Hst & Hh).
  destruct (slot_group m s Hm16 Hs) as (Hy & Hsd & Hsm).
  destruct (group_reached (m / 16) (home m key) (s / 16) ltac:(lia) Hy)
    as (Hd & Hdy).
  pose proof (freetomb_loop_spec meta keys m Hsh
                (Z.to_nat (m / 16)) (home m key) Hh) as Hspec.
  rewrite <- Hst in Hspec.
  destruct (hash__get_freetombidx_loop (Z.to_nat (m / 16)) meta m
              (hash__start m key)) as [idx| |].
  - destruct Hspec as (e & He & Hin & Hnf' & Hbefore).
    exists idx. split; [reflexivity|].
    pose proof (Z.mod_pos_bound (home m key + e) (m / 16) ltac:(lia)).
    split; [lia|]. split; [exact Hnf'|].
    intros e' He'. apply Hbefore.
    rewrite (in_group_div _ _ Hin) in He'.
    rewrite Zminus_mod_idemp_l in He'.
    replace (home m key + e - home m key) with e in He' by lia.
    rewrite Z.mod_small in He' by lia. exact He'.
  - destruct Hspec.
  - exfalso.
    specialize (Hspec ((s / 16 - home m key) mod (m / 16)) (s mod 16)
                  ltac:(lia) Hsm).
    rewrite Hdy, <- Hsd in Hspec. congruence.
Qed.

(** ** The match probe on a well-formed image *)

Lemma get_idx_held (t : image) (key s : Z) :
  WF t -> held t key s -> hash__get_idx t key = Ok (Some s).
Proof.
  intros [[Hsh _ Ht Hu Hp] _ _] (Hs & Hf & Hk).
  destruct (get_idx_loop_finds (meta t) (keys t) key (capacity (info t))
              (hash__mask key) s Hsh Hs) as (idx & Hr & Hi & Hmt & Hky).
  - rewrite <- Hk. now apply Ht.
  - exact Hk.
  - rewrite <- Hk. now apply Hp.
  - unfold hash__get_idx, hash__groups. rewrite Hr. do 2 f_equal.
    apply Hu; auto; [|congruence].
    rewrite Hmt. apply hash__mask_full.
Qed.

Lemma get_idx_Some (t : image) (key idx : Z) :
  WF t -> hash__get_idx t key = Ok (Some idx) ->
  held t key idx /\ rd (meta t) idx = hash__mask key.
Proof.
  intros [[Hsh _ _ _ _] _ _] Hr.
  apply get_idx_loop_found in Hr; [|exact Hsh].
  destruct Hr as (Hi & Hmt & Hky). unfold held. rewrite Hmt.
  repeat split; auto; try lia. apply hash__mask_full.
Qed.

Lemma get_idx_None (t : image) (key : Z) :
  WF t -> hash__get_idx t key = Ok None ->
  (forall s, ~ held t key s)
  /\ exists s, 0 <= s < capacity (info t) /\ rd (meta t) s = 0.
Proof.
  intros Hwf Hr. split.
  - intros s Hs. rewrite (get_idx_held t key s Hwf Hs) in Hr. discriminate.
  - destruct Hwf as [[Hsh _ _ _ _] _ _].
    now apply get_idx_loop_none_free in Hr.
Qed.

Lemma get_idx_absent (t : image) (key : Z) :
  WF t -> (forall s, ~ held t key s) -> has_free t = true ->
  hash__get_idx t key = Ok None.
Proof.
  intros [[Hsh _ Ht _ _] _ _] Hno Hfree.
  apply get_idx_loop_misses; [exact Hsh| |].
  - intros s Hs [Hmt Hky]. apply (Hno s). unfold held.
    rewrite Hmt. repeat split; auto; try lia. apply hash__mask_full.
  - unfold has_free in Hfree. apply negb_true_iff in Hfree.
    apply forall_range_false in Hfree. destruct Hfree as (s & Hs & Hz).
    exists s. split; [exact Hs|]. apply negb_false_iff in Hz.
    unfold hash_is_free in Hz. lia.
Qed.

Lemma has_free_false (t : image) :
  has_free t = false ->
  forall s, 0 <= s < capacity (info t) -> rd (meta t) s <> 0.
Proof.
  unfold has_free. intros H s Hs Hz. apply negb_false_iff in H.
  rewrite forall_range_spec in H. specialize (H s Hs).
  rewrite Hz in H. discriminate.
Qed.

Lemma get_idx_no_fault (t : image) (key : Z) :
  WF t -> hash__get_idx t key <> Fault.
Proof.
  intros [[Hsh _ _ _ _] _ _]. now apply get_idx_loop_no_fault.
Qed.

(** The probe for a key that no Full slot holds runs forever exactly when
    the image has no Free byte. *)
Lemma get_idx_Diverge (t : image) (key : Z) :
  WF t ->
  (hash__get_idx t key = Diverge
   <-> (forall s, ~ held t key s) /\ has_free t = false).
Proof.
  intros Hwf. split.
  - intros Hr. split.
    + intros s Hs. rewrite (get_idx_held t key s Hwf Hs) in Hr. discriminate.
    + destruct (has_free t) eqn:Hf; [|reflexivity].
      assert (Hno : forall s, ~ held t key s).
      { intros s Hs. rewrite (get_idx_held t key s Hwf Hs) in Hr.
        discriminate. }
      rewrite (get_idx_absent t key Hwf Hno Hf) in Hr. discriminate.
  - intros [Hno Hf].
    destruct (hash__get_idx t key) as [[idx|]| |] eqn:Hr; [| | |reflexivity].
    + exfalso. apply (Hno idx). now apply get_idx_Some.
    + exfalso. apply get_idx_None in Hr; [|exact Hwf].
      destruct Hr as (_ & s & Hs & Hz). now apply (has_free_false t Hf s).
    + exfalso. now apply (get_idx_no_fault t key).
Qed.

(** More fuel never changes an answer the probe has given. *)
Lemma hash__get_idx_loop_more_fuel (fuel extra : nat) (meta keys : list Z)
    (key m mask : Z) :
  forall i r,
    hash__get_idx_loop fuel meta keys key m mask i = Ok r ->
    hash__get_idx_loop (fuel + extra) meta keys key m mask i = Ok r.
Proof.
  induction fuel as [|fuel IH]; intros i r H; [discriminate|].
  cbn [Nat.add hash__get_idx_loop] in *.
  destruct (_mm_load_si128 meta i) as [v| |]; cbn [bind] in *;
    try discriminate.
  match goal with
  | |- context [bind ?c _] => destruct c as [[idx|]| |]
  end; cbn [bind] in *; try discriminate; [exact H|].
  match goal with
  | |- context [if ?b then _ else _] => destruct b
  end; [exact H|]. now apply IH.
Qed.

(** When one revolution of the group cursor ends without an answer, no
    amount of fuel produces one: the loop of the source does not exit. *)
Lemma hash__get_idx_loop_diverges (t : image) (key : Z) :
  WF t -> hash__get_idx t key = Diverge ->
  forall fuel,
    hash__get_idx_loop fuel (meta t) (keys t) key (capacity (info t))
      (hash__mask key) (hash__start (capacity (info t)) key) = Diverge.
Proof.
  intros Hwf Hr fuel. apply get_idx_Diverge in Hr; [|exact Hwf].
  destruct Hr as [Hno Hf]. pose proof Hwf as [[Hsh _ _ _ _] _ _].
  pose proof Hsh as ((k & Hk & Hm) & _).
  destruct (pow2_groups k _ Hk Hm) as (HG & Hm16 & HG1 & Hrg).
  destruct (hash__start_home k _ key Hk Hm) as (Hst & Hh).
  pose proof (get_idx_loop_spec (meta t) (keys t) key _ (hash__mask key) Hsh
                fuel (home (capacity (info t)) key) Hh) as Hspec.
  rewrite <- Hst in Hspec.
  destruct (hash__get_idx_loop fuel (meta t) (keys t) key (capacity (info t))
              (hash__mask key) (hash__start (capacity (info t)) key))
    as [[idx|]| |]; [| | |reflexivity].
  - exfalso. destruct Hspec as (e & He & Hin & Hmt & Hky & _).
    pose proof (Z.mod_pos_bound (home (capacity (info t)) key + e)
                  (capacity (info t) / 16) ltac:(lia)).
    apply (Hno idx). unfold held. rewrite Hmt.
    repeat split; auto; try lia. apply hash__mask_full.
  - exfalso. destruct Hspec as (e & He & _ & _ & (j & Hj & Hz)).
    pose proof (Z.mod_pos_bound (home (capacity (info t)) key + e)
                  (capacity (info t) / 16) ltac:(lia)).
    eapply (has_free_false t Hf); [|exact Hz]. lia.
  - destruct Hspec.
Qed.

(** ** Claiming a slot that is not Full *)

Lemma Core_claim (meta keys : list Z) (m idx key : Z) :
  Core meta keys m -> 0 <= idx < m ->
  hash_is_full (rd meta idx) = false ->
  (forall s, 0 <= s < m -> hash_is_full (rd meta s) = true -> rd keys s <> key) ->
  pathP meta m key idx ->
  Core (upd meta idx (hash__mask key)) (upd keys idx key) m.
Proof.
  intros [Hsh Hb Ht Hu Hp] Hidx Hnf Hfresh Hpath.
  pose proof Hsh as (Hk & Hlm & Hlk).
  pose proof (hash__mask_range key) as Hmr.
  pose proof (hash__mask_full key) as Hmf.
  assert (Hm0 : hash__mask key <> 0) by lia.
  assert (Hsame : forall s, s <> idx ->
            rd (upd meta idx (hash__mask key)) s = rd meta s
            /\ rd (upd keys idx key) s = rd keys s).
  { intros s Hs. split; apply rd_upd_ne; lia. }
  assert (Hnew : rd (upd meta idx (hash__mask key)) idx = hash__mask key
                 /\ rd (upd keys idx key) idx = key).
  { split; apply rd_upd_eq; lia. }
  constructor.
  - split; [exact Hk|]. rewrite !len_upd. split; assumption.
  - intros i Hi. destruct (Z.eq_dec i idx) as [->|Hne].
    + rewrite (proj1 Hnew). lia.
    + rewrite (proj1 (Hsame i Hne)). now apply Hb.
  - intros i Hi Hf. destruct (Z.eq_dec i idx) as [->|Hne].
    + now rewrite (proj1 Hnew), (proj2 Hnew).
    + destruct (Hsame i Hne) as [E1 E2]. rewrite E1, E2 in *. now apply Ht.
  - intros i j Hi Hj Hfi Hfj Hkk.
    destruct (Z.eq_dec i idx) as [->|Hni]; destruct (Z.eq_dec j idx) as [->|Hnj];
      [reflexivity| | |].
    + exfalso. destruct (Hsame j Hnj) as [E1 E2].
      rewrite (proj2 Hnew), E2 in Hkk. rewrite E1 in Hfj.
      now apply (Hfresh j Hj Hfj).
    + exfalso. destruct (Hsame i Hni) as [E1 E2].
      rewrite (proj2 Hnew), E2 in Hkk. rewrite E1 in Hfi.
      now apply (Hfresh i Hi Hfi).
    + destruct (Hsame i Hni) as [E1 E2]. destruct (Hsame j Hnj) as [E3 E4].
      rewrite E1 in Hfi. rewrite E3 in Hfj. rewrite E2, E4 in Hkk.
      now apply Hu.
  - intros i Hi Hf. apply pathP_upd; [lia|exact Hm0|].
    destruct (Z.eq_dec i idx) as [->|Hne].
    + now rewrite (proj2 Hnew).
    + destruct (Hsame i Hne) as [E1 E2]. rewrite E1 in Hf. rewrite E2.
      now apply Hp.
Qed.

Lemma count_full_claim (meta : list Z) (idx key : Z) :
  0 <= idx < len meta -> hash_is_full (rd meta idx) = false ->
  count_full (upd meta idx (hash__mask key)) = count_full meta + 1.
Proof.
  intros Hidx Hnf. rewrite count_full_upd by exact Hidx.
  rewrite Hnf, hash__mask_full. simpl Z.b2z. lia.
Qed.

(** ** The linear probe of the rehash *)

Lemma mod_group (G a r : Z) :
  0 < G -> 0 <= r < 16 -> (16 * a + r) mod (16 * G) = 16 * (a mod G) + r.
Proof.
  intros HG Hr. symmetry. apply Z.mod_unique with (q := a / G).
  - pose proof (Z.mod_pos_bound a G HG). lia.
  - pose proof (Z.div_mod a G ltac:(lia)). lia.
Qed.

Lemma rehash_probe_spec (k ncap : Z) (nbase : list Z) :
  4 <= k <= 63 -> ncap = 2 ^ k -> len nbase = ncap ->
  forall fuel i d0, 0 <= d0 -> 
  match hash__rehash_probe fuel nbase ncap ((i + d0) mod ncap) with
  | Ok idx =>
      exists d, d0 <= d < d0 + Z.of_nat fuel /\ idx = (i + d) mod ncap /\
        rd nbase idx = 0 /\
        forall d', d0 <= d' < d -> rd nbase ((i + d') mod ncap) <> 0
  | Diverge =>
      forall d', d0 <= d' < d0 + Z.of_nat fuel ->
        rd nbase ((i + d') mod ncap) <> 0
  | Fault => False
  end.
Proof.
  intros Hk Hm Hlen.
  destruct (pow2_groups k ncap Hk Hm) as (HG & Hm16 & HG1 & Hrg).
  induction fuel as [|fuel IH]; intros i d0 Hd0.
  - cbn [hash__rehash_probe]. intros d' Hd'. lia.
  - cbn [hash__rehash_probe].
    pose proof (Z.mod_pos_bound (i + d0) ncap ltac:(lia)) as Hpos.
    rewrite load_rd by lia. cbn [bind]. unfold hash_is_free.
    destruct (Z.eqb_spec (rd nbase ((i + d0) mod ncap)) 0) as [Hz|Hnz];
      cbn [negb].
    + exists d0. split; [lia|]. split; [reflexivity|]. split; [exact Hz|].
      intros d' Hd'. lia.
    + rewrite (hash__next_mod k) by lia.
      rewrite Z.add_mod_idemp_l by lia.
      replace (i + d0 + 1) with (i + (d0 + 1)) by lia.
      specialize (IH i (d0 + 1) ltac:(lia)).
      destruct (hash__rehash_probe fuel nbase ncap ((i + (d0 + 1)) mod ncap))
        as [idx| |].
      * destruct IH as (d & Hd & -> & Hz & Hbefore).
        exists d. split; [lia|]. split; [reflexivity|]. split; [exact Hz|].
        intros d' Hd'. destruct (Z.eq_dec d' d0) as [->|Hne]; [exact Hnz|].
        apply Hbefore. lia.
      * exact IH.
      * intros d' Hd'. destruct (Z.eq_dec d' d0) as [->|Hne]; [exact Hnz|].
        apply IH. lia.
Qed.

(** With a Free byte somewhere the linear probe stops, at a Free byte that
    lies on the probe sequence of the key. *)
Lemma rehash_probe_finds (nbase nkeys : list Z) (ncap key : Z) :
  shape nbase nkeys ncap ->
  (exists s, 0 <= s < ncap /\ rd nbase s = 0) ->
  exists idx,
    hash__rehash_probe (Z.to_nat ncap) nbase ncap (hash__start ncap key) = Ok idx
    /\ 0 <= idx < ncap /\ rd nbase idx = 0 /\ pathP nbase ncap key idx.
Proof.
  intros ((k & Hk & Hm) & Hlen & _) (s & Hs & Hz).
  destruct (pow2_groups k ncap Hk Hm) as (HG & Hm16 & HG1 & Hrg).
  destruct (hash__start_home k ncap key Hk Hm) as (Hst & Hh).
  unfold pathP.
  set (g := home ncap key) in *. set (G := ncap / 16) in *.
  clearbody g G.
  pose proof (rehash_probe_spec k ncap nbase Hk Hm Hlen (Z.to_nat ncap)
                (16 * g) 0 ltac:(lia)) as Hspec.
  rewrite Z.add_0_r, Z.mod_small in Hspec by lia. rewrite Hst.
  destruct (hash__rehash_probe (Z.to_nat ncap) nbase ncap (16 * g))
    as [idx| |].
  - destruct Hspec as (d & Hd & Hidx & Hz' & Hbefore).
    exists idx. split; [reflexivity|].
    pose proof (Z.mod_pos_bound (16 * g + d) ncap ltac:(lia)) as Hpos.
    rewrite <- Hidx in Hpos.
    split; [exact Hpos|]. split; [exact Hz'|].
    (* the groups before the one of [idx] *)
    pose proof (Z.div_mod d 16 ltac:(lia)) as Hdd.
    pose proof (Z.mod_pos_bound d 16 ltac:(lia)) as Hdr.
    assert (Hdq : 0 <= d / 16 < G) by lia.
    assert (Hi : idx = 16 * ((g + d / 16) mod G) + d mod 16).
    { rewrite Hidx. rewrite Hm16 at 1.
      replace (16 * g + d) with (16 * (g + d / 16) + d mod 16) by lia.
      apply mod_group; lia. }
    pose proof (Z.mod_pos_bound (g + d / 16) G ltac:(lia)) as Hgq.
    assert (Hq : (idx / 16 - g) mod G = d / 16).
    { rewrite (in_group_div ((g + d / 16) mod G) idx) by lia.
      rewrite Zminus_mod_idemp_l. replace (g + d / 16 - g) with (d / 16) by lia.
      apply Z.mod_small. lia. }
    intros e He (j & Hj & Hfz). rewrite Hq in He.
    apply (Hbefore (16 * e + j)); [lia|].
    rewrite Hm16 at 1.
    replace (16 * g + (16 * e + j)) with (16 * (g + e) + j) by lia.
    rewrite mod_group by lia. exact Hfz.
  - destruct Hspec.
  - exfalso. apply (Hspec ((s - 16 * g) mod ncap)).
    + pose proof (Z.mod_pos_bound (s - 16 * g) ncap ltac:(lia)). lia.
    + rewrite Z.add_mod_idemp_r by lia.
      replace (16 * g + (s - 16 * g)) with s by lia.
      rewrite Z.mod_small by lia. exact Hz.
Qed.

(** ** hash__rehash *)

Lemma count_full_app (l1 l2 : list Z) :
  count_full (l1 ++ l2) = count_full l1 + count_full l2.
Proof.
  induction l1 as [|b l1 IH]; cbn [app count_full]; [reflexivity|].
  change ((b :: l1) ++ l2) with (b :: (l1 ++ l2)). cbn [count_full]. lia.
Qed.

Lemma count_full_take_S (l : list Z) (n : nat) :
  Z.of_nat n < len l ->
  count_full (take (S n) l)
  = count_full (take n l) + Z.b2z (hash_is_full (rd l (Z.of_nat n))).
Proof.
  intros Hn.
  pose proof (slot_rd l (Z.of_nat n) ltac:(lia)) as Hs. unfold slot in Hs.
  destruct (Z.leb_spec 0 (Z.of_nat n)); [|lia]. rewrite Nat2Z.id in Hs.
  rewrite (take_S_r l n _ Hs), count_full_app. cbn [count_full]. lia.
Qed.

Lemma count_full_replicate_free (n : nat) :
  count_full (replicate n HASH__FREE) = 0.
Proof. induction n as [|n IH]; cbn [replicate count_full]; [reflexivity|]. rewrite IH. reflexivity. Qed.

Lemma rehashed_fresh (t : image) (ncap sz vsz : Z) :
  (exists k, 4 <= k <= 63 /\ ncap = 2 ^ k) ->
  rehashed t (fresh_image ncap sz vsz) 0.
Proof.
  intros Hk. pose proof Hk as (k & Hkr & Hm).
  destruct (pow2_groups k ncap Hkr Hm) as (_ & _ & _ & Hrg).
  assert (Hrd : forall s, 0 <= s < ncap ->
            rd (replicate (Z.to_nat ncap) HASH__FREE) s = 0).
  { intros s Hs. now apply rd_replicate. }
  unfold fresh_image. constructor; cbn [meta keys vals info capacity].
  - constructor.
    + split; [exact Hk|]. split; apply len_replicate; lia.
    + intros i Hi. left. now apply Hrd.
    + intros i Hi Hf. rewrite Hrd in Hf by exact Hi. discriminate.
    + intros i j Hi Hj Hf. rewrite Hrd in Hf by exact Hi. discriminate.
    + intros i Hi Hf. rewrite Hrd in Hf by exact Hi. discriminate.
  - apply len_replicate. lia.
  - intros s Hs. left. now apply Hrd.
  - intros s Hs Hf. rewrite Hrd in Hf by exact Hs. discriminate.
  - intros i Hi. lia.
  - rewrite count_full_replicate_free. reflexivity.
Qed.

Lemma rehash_slot_spec (t nm : image) (n : nat) :
  WF t -> rehashed t nm n ->
  Z.of_nat n < capacity (info t) -> capacity (info t) < capacity (info nm) ->
  exists nm', hash__rehash_slot t nm (Z.of_nat n) = Ok nm'
    /\ info nm' = info nm /\ rehashed t nm' (S n).
Proof.
  intros [[Hsh Hb Ht Hu Hp] Hv Hsz] [Hc Hnv Hcl Hfrom Hto Hcnt] Hn Hlt.
  pose proof Hsh as (_ & Hlm & Hlk).
  set (i := Z.of_nat n) in *.
  assert (Hi : 0 <= i < capacity (info t)) by (unfold i; lia).
  unfold hash__rehash_slot. rewrite load_rd by lia. cbn [bind].
  assert (Hcount : count_full (take (S n) (meta t))
                   = count_full (take n (meta t))
                     + Z.b2z (hash_is_full (rd (meta t) i))).
  { apply count_full_take_S. fold i. lia. }
  destruct (hash_is_full (rd (meta t) i)) eqn:Hf.
  - (* a Full slot moves *)
    rewrite load_rd by lia. cbn [bind]. cbv zeta.
    set (key := rd (keys t) i) in *.
    pose proof Hc as [Hnsh Hnb Hnt Hnu Hnp].
    pose proof Hnsh as (Hnk & Hnlm & Hnlk).
    assert (Hroom : exists s, 0 <= s < capacity (info nm)
                              /\ rd (meta nm) s = 0).
    { destruct (count_full_room (meta nm)) as (s & Hs & Hnf).
      - rewrite Hcnt, Hnlm.
        pose proof (count_full_bounds (take n (meta t))) as Hbd.
        unfold len in Hbd. rewrite length_take in Hbd. lia.
      - exists s. split; [lia|]. destruct (Hcl s ltac:(lia)) as [Hz|Hfs];
          [exact Hz|congruence]. }
    destruct (rehash_probe_finds (meta nm) (keys nm) _ key Hnsh Hroom)
      as (idx & -> & Hidx & Hz & Hpath).
    cbn [bind]. rewrite store_ok by lia. cbn [bind].
    rewrite store_ok by lia. cbn [bind].
    destruct (load_slot (vals t) i ltac:(lia)) as (v & Hsv & ->).
    cbn [bind]. rewrite store_ok by lia. cbn [bind].
    eexists. split; [reflexivity|]. split; [reflexivity|].
    assert (Hbm : rd (meta t) i = hash__mask key) by (apply Ht; auto).
    rewrite Hbm.
    assert (Hnf : hash_is_full (rd (meta nm) idx) = false) by (now rewrite Hz).
    assert (Hfresh : forall s, 0 <= s < capacity (info nm) ->
              hash_is_full (rd (meta nm) s) = true -> rd (keys nm) s <> key).
    { intros s Hs Hfs Hks. destruct (Hfrom s Hs Hfs) as (i0 & Hi0 & Hf0 & Hk0 & _).
      assert (i0 = i); [|lia].
      apply Hu; auto; [lia|]. unfold key in Hks. congruence. }
    assert (Hother : forall s, s <> idx ->
              rd (upd (meta nm) idx (hash__mask key)) s = rd (meta nm) s
              /\ rd (upd (keys nm) idx key) s = rd (keys nm) s
              /\ slot (upd (vals nm) idx v) s = slot (vals nm) s).
    { intros s Hs. split; [|split];
        [apply rd_upd_ne|apply rd_upd_ne|apply slot_upd_ne]; lia. }
    assert (Hself : rd (upd (meta nm) idx (hash__mask key)) idx = hash__mask key
              /\ rd (upd (keys nm) idx key) idx = key
              /\ slot (upd (vals nm) idx v) idx = Some v).
    { split; [|split];
        [apply rd_upd_eq|apply rd_upd_eq|apply slot_upd_eq]; lia. }
    constructor; cbn [meta keys vals info].
    + now apply Core_claim.
    + now rewrite len_upd.
    + intros s Hs. destruct (Z.eq_dec s idx) as [->|Hne].
      * right. rewrite (proj1 Hself). apply hash__mask_full.
      * rewrite (proj1 (Hother s Hne)). now apply Hcl.
    + intros s Hs Hfs. destruct (Z.eq_dec s idx) as [->|Hne].
      * exists i. destruct Hself as (_ & E2 & E3). rewrite E2, E3.
        repeat split; auto; lia.
      * destruct (Hother s Hne) as (E1 & E2 & E3). rewrite E1 in Hfs.
        rewrite E2, E3. destruct (Hfrom s Hs Hfs) as (i0 & Hi0 & Hrest).
        exists i0. split; [lia|exact Hrest].
    + intros i0 Hi0 Hf0. destruct (Z.eq_dec i0 i) as [->|Hne].
      * exists idx. destruct Hself as (E1 & E2 & E3). rewrite E1, E2, E3.
        repeat split; auto; try lia. apply hash__mask_full.
      * destruct (Hto i0 ltac:(lia) Hf0) as (s & Hs & Hfs & Hks & Hvs).
        assert (Hne' : s <> idx) by (intros ->; congruence).
        destruct (Hother s Hne') as (E1 & E2 & E3).
        exists s. rewrite E1, E2, E3. repeat split; auto; lia.
    + rewrite count_full_claim; [|lia|exact Hnf].
      rewrite Hcount, Hcnt. simpl Z.b2z. lia.
  - (* nothing to move *)
    eexists. split; [reflexivity|]. split; [reflexivity|]. constructor; auto.
    + intros s Hs Hfs. destruct (Hfrom s Hs Hfs) as (i0 & Hi0 & Hrest).
      exists i0. split; [lia|exact Hrest].
    + intros i0 Hi0 Hf0. apply Hto; [|exact Hf0].
      destruct (Z.eq_dec i0 i) as [->|Hne]; [congruence|lia].
    + rewrite Hcount, Hcnt. simpl Z.b2z. lia.
Qed.

Lemma rehash_upto_spec (t : image) (ncap sz vsz : Z) :
  WF t -> (exists k, 4 <= k <= 63 /\ ncap = 2 ^ k) ->
  capacity (info t) < ncap ->
  forall n, Z.of_nat n <= capacity (info t) ->
  exists nm, hash__rehash_upto t (fresh_image ncap sz vsz) n = Ok nm
    /\ info nm = info (fresh_image ncap sz vsz) /\ rehashed t nm n.
Proof.
  intros Hwf Hk Hlt. induction n as [|n IH]; intros Hn.
  - eexists. split; [reflexivity|]. split; [reflexivity|].
    now apply rehashed_fresh.
  - destruct IH as (nm & Hr & Hinfo & Hri); [lia|].
    cbn [hash__rehash_upto]. rewrite Hr. cbn [bind].
    destruct (rehash_slot_spec t nm n Hwf Hri) as (nm' & Hr' & Hinfo' & Hri').
    + lia.
    + rewrite Hinfo. cbn [fresh_image info capacity]. exact Hlt.
    + exists nm'. split; [exact Hr'|]. split; [congruence|exact Hri'].
Qed.

(** ** hash__resize *)

Lemma has_free_intro (t : image) (s : Z) :
  0 <= s < capacity (info t) -> rd (meta t) s = 0 -> has_free t = true.
Proof.
  intros Hs Hz. unfold has_free. apply negb_true_iff.
  destruct (forall_range _ _) eqn:E; [|reflexivity].
  rewrite forall_range_spec in E. specialize (E s Hs). rewrite Hz in E.
  discriminate.
Qed.

Lemma has_free_elim (t : image) :
  has_free t = true ->
  exists s, 0 <= s < capacity (info t) /\ rd (meta t) s = 0.
Proof.
  unfold has_free. intros H. apply negb_true_iff in H.
  apply forall_range_false in H. destruct H as (s & Hs & Hz).
  exists s. split; [exact Hs|]. apply negb_false_iff in Hz.
  unfold hash_is_free in Hz. lia.
Qed.

Lemma resize_spec (t : image) (ncap : Z) :
  WF t -> (exists k, 4 <= k <= 63 /\ ncap = 2 ^ k) ->
  capacity (info t) < ncap ->
  hash__malloc ncap (val_size (info t)) = true ->
  exists t', hash__resize t ncap = Ok t'
    /\ WF t'
    /\ info t' = {| size := size (info t); capacity := ncap;
                    val_size := val_size (info t) |}
    /\ no_tombstone t' /\ same_content t t' /\ has_free t' = true.
Proof.
  intros Hwf Hk Hlt Halloc. unfold hash__resize. rewrite Halloc.
  unfold hash__rehash.
  pose proof Hwf as [[Hsh _ _ _ _] Hv Hsz]. pose proof Hsh as ((k0 & Hk0 & Hm0) & Hlm & _).
  destruct (pow2_groups k0 _ Hk0 Hm0) as (_ & _ & _ & Hrg).
  destruct (rehash_upto_spec t ncap (size (info t)) (val_size (info t))
              Hwf Hk Hlt (Z.to_nat (capacity (info t))) ltac:(lia))
    as (nm & Hr & Hinfo & [Hc Hnv Hcl Hfrom Hto Hcnt]).
  cbn [fresh_image info] in Hinfo.
  assert (Hcap : capacity (info nm) = ncap) by (now rewrite Hinfo).
  assert (Hall : count_full (meta nm) = count_full (meta t)).
  { rewrite Hcnt. rewrite take_ge; [reflexivity|]. unfold len in Hlm. lia. }
  exists nm. split; [exact Hr|]. split; [|split; [exact Hinfo|]].
  - constructor; auto. rewrite Hall, Hinfo. exact Hsz.
  - split; [exact Hcl|]. split.
    + split.
      * intros key s (Hs & Hf & Hkey).
        destruct (Hto s ltac:(lia) Hf) as (s' & Hs' & Hf' & Hk' & Hv').
        exists s'. split; [|exact Hv']. unfold held.
        split; [lia|]. split; [exact Hf'|congruence].
      * intros key s' (Hs' & Hf' & Hkey).
        destruct (Hfrom s' Hs' Hf') as (i & Hi & Hfi & Hki & Hvi).
        exists i. split; [|exact Hvi]. unfold held.
        split; [lia|]. split; [exact Hfi|congruence].
    + destruct (count_full_room (meta nm)) as (s & Hs & Hnf).
      * pose proof (count_full_bounds (meta t)).
        destruct Hc as [(_ & Hnlm & _) _ _ _ _]. lia.
      * destruct Hc as [(_ & Hnlm & _) _ _ _ _].
        apply (has_free_intro nm s); [lia|].
        destruct (Hcl s ltac:(lia)) as [Hz|Hfs]; [exact Hz|congruence].
Qed.

(** Lookups through the new image agree with lookups through the old. *)
Lemma same_content_get (t t' : image) (key : Z) :
  WF t -> WF t' -> same_content t t' -> has_free t' = true ->
  match hash__get_idx t key with
  | Ok (Some i) =>
      exists i', hash__get_idx t' key = Ok (Some i')
        /\ slot (vals t') i' = slot (vals t) i
  | _ => hash__get_idx t' key = Ok None
  end.
Proof.
  intros Hwf Hwf' [Hto Hfrom] Hfree.
  assert (Hmiss : (forall s, ~ held t key s) -> hash__get_idx t' key = Ok None).
  { intros Hno. apply get_idx_absent; auto.
    intros s' Hs'. destruct (Hfrom key s' Hs') as (s & Hs & _).
    now apply (Hno s). }
  destruct (hash__get_idx t key) as [[i|]| |] eqn:Hr.
  - apply get_idx_Some in Hr; [|exact Hwf]. destruct Hr as [Hh _].
    destruct (Hto key i Hh) as (i' & Hh' & Hv').
    exists i'. split; [|exact Hv']. now apply get_idx_held.
  - apply Hmiss. now apply get_idx_None in Hr.
  - exfalso. now apply (get_idx_no_fault t key).
  - apply Hmiss. now apply get_idx_Diverge in Hr.
Qed.

(** ** hash_put: the write *)

Lemma WF_set_val (t : image) (idx : Z) (val : V) : WF t -> WF (set_val t idx val).
Proof.
  intros [Hc Hv Hsz]. constructor; cbn [set_val meta keys vals info]; auto.
  now rewrite len_upd.
Qed.

Lemma WF_claim (t : image) (idx key : Z) (val : V) :
  WF t -> 0 <= idx < capacity (info t) ->
  hash_is_full (rd (meta t) idx) = false ->
  (forall s, ~ held t key s) ->
  pathP (meta t) (capacity (info t)) key idx ->
  WF (claim t idx key val).
Proof.
  intros [Hc Hv Hsz] Hidx Hnf Hno Hpath.
  pose proof Hc as [(_ & Hlm & _) _ _ _ _].
  constructor; cbn [claim meta keys vals info capacity size].
  - apply Core_claim; auto. intros s Hs Hf Hk. apply (Hno s).
    unfold held. auto.
  - now rewrite len_upd.
  - rewrite count_full_claim; [lia|lia|exact Hnf].
Qed.

Lemma put_slot_hit (t : image) (key idx : Z) (val : V) :
  WF t -> hash__get_idx t key = Ok (Some idx) ->
  hash__put_slot t key (hash__mask key) val = Ok (set_val t idx val).
Proof.
  intros Hwf Hr. unfold hash__put_slot. rewrite Hr. cbn [bind].
  apply get_idx_Some in Hr; [|exact Hwf]. destruct Hr as [(Hi & _) _].
  destruct Hwf as [_ Hv _]. rewrite store_ok by lia. reflexivity.
Qed.

Lemma put_slot_miss (t : image) (key : Z) (val : V) :
  WF t -> hash__get_idx t key = Ok None ->
  exists idx, 0 <= idx < capacity (info t)
    /\ hash_is_full (rd (meta t) idx) = false
    /\ hash__put_slot t key (hash__mask key) val = Ok (claim t idx key val)
    /\ WF (claim t idx key val).
Proof.
  intros Hwf Hr. unfold hash__put_slot. rewrite Hr. cbn [bind].
  apply get_idx_None in Hr; [|exact Hwf]. destruct Hr as (Hno & s & Hs & Hz).
  pose proof Hwf as [[Hsh _ _ _ _] Hv Hsz]. pose proof Hsh as ((k0 & Hk0 & Hm0) & Hlm & Hlk).
  destruct (pow2_groups k0 _ Hk0 Hm0) as (_ & _ & _ & Hrg).
  destruct (freetomb_loop_finds (meta t) (keys t) _ key Hsh)
    as (idx & Hft & Hidx & Hnf & Hpath).
  { exists s. split; [exact Hs|]. now rewrite Hz. }
  exists idx. split; [exact Hidx|]. split; [exact Hnf|]. split.
  - unfold hash__get_freetombidx, hash__groups. rewrite Hft. cbn [bind].
    rewrite !store_ok by lia. cbn [bind]. unfold claim.
    rewrite wrap64_small; [reflexivity|].
    pose proof (count_full_bounds (meta t)). lia.
  - now apply WF_claim.
Qed.

Lemma deref_slot (t : image) (idx : Z) :
  deref (Some t) (Some idx) = slot (vals t) idx.
Proof. reflexivity. Qed.

(** The write of [hash_put], whenever the match probe comes back. *)
Lemma put_slot_spec (t : image) (key : Z) (val : V) :
  WF t -> hash__get_idx t key <> Diverge ->
  exists t1 idx,
    hash__put_slot t key (hash__mask key) val = Ok t1
    /\ WF t1 /\ held t1 key idx /\ slot (vals t1) idx = Some val
    /\ capacity (info t1) = capacity (info t)
    /\ val_size (info t1) = val_size (info t)
    /\ size (info t1) = match hash__get_idx t key with
                         | Ok (Some _) => size (info t)
                         | _ => size (info t) + 1
                         end.
Proof.
  intros Hwf Hnd. pose proof Hwf as [[((k0 & Hk0 & Hm0) & Hlm & Hlk) _ _ _ _] Hv _].
  destruct (pow2_groups k0 _ Hk0 Hm0) as (_ & _ & _ & Hrg).
  destruct (hash__get_idx t key) as [[idx|]| |] eqn:Hr.
  - exists (set_val t idx val), idx.
    split; [now apply put_slot_hit|]. split; [now apply WF_set_val|].
    apply get_idx_Some in Hr; [|exact Hwf]. destruct Hr as [Hh _].
    split; [exact Hh|]. split; [|auto].
    cbn [set_val vals]. apply slot_upd_eq. destruct Hh. lia.
  - destruct (put_slot_miss t key val Hwf Hr) as (idx & Hidx & Hnf & Hput & Hwf1).
    exists (claim t idx key val), idx. split; [exact Hput|].
    split; [exact Hwf1|]. split; [|split; [|auto]].
    + unfold held. cbn [claim meta keys info capacity].
      rewrite !rd_upd_eq by lia. split; [exact Hidx|].
      split; [apply hash__mask_full|reflexivity].
    + cbn [claim vals]. apply slot_upd_eq. lia.
  - exfalso. now apply (get_idx_no_fault t key).
  - contradiction.
Qed.

(** ** hash_del *)

Lemma Core_bury (meta keys : list Z) (m idx : Z) :
  Core meta keys m -> 0 <= idx < m ->
  Core (upd meta idx HASH__TOMB) keys m.
Proof.
  intros [Hsh Hb Ht Hu Hp] Hidx. pose proof Hsh as (Hk & Hlm & Hlk).
  assert (Hsame : forall s, s <> idx -> rd (upd meta idx HASH__TOMB) s = rd meta s).
  { intros s Hs. apply rd_upd_ne; lia. }
  assert (Hnew : rd (upd meta idx HASH__TOMB) idx = 1).
  { apply rd_upd_eq. lia. }
  assert (Hfull : forall s, hash_is_full (rd (upd meta idx HASH__TOMB) s) = true ->
            s <> idx /\ hash_is_full (rd meta s) = true).
  { intros s Hf. destruct (Z.eq_dec s idx) as [->|Hne].
    - rewrite Hnew in Hf. discriminate.
    - split; [exact Hne|]. now rewrite Hsame in Hf. }
  constructor.
  - split; [exact Hk|]. rewrite len_upd. split; assumption.
  - intros i Hi. destruct (Z.eq_dec i idx) as [->|Hne].
    + rewrite Hnew. lia.
    + rewrite Hsame by exact Hne. now apply Hb.
  - intros i Hi Hf. destruct (Hfull i Hf) as [Hne Hf'].
    rewrite Hsame by exact Hne. now apply Ht.
  - intros i j Hi Hj Hfi Hfj Hkk.
    destruct (Hfull i Hfi) as [_ Hfi']. destruct (Hfull j Hfj) as [_ Hfj'].
    now apply Hu.
  - intros i Hi Hf. destruct (Hfull i Hf) as [_ Hf'].
    apply pathP_upd; [lia|discriminate|]. now apply Hp.
Qed.

Lemma WF_bury (t : image) (key idx : Z) :
  WF t -> held t key idx ->
  WF (bury t idx) /\ 1 <= size (info t) <= capacity (info t)
  /\ (forall s, ~ held (bury t idx) key s)
  /\ has_free (bury t idx) = has_free t.
Proof.
  intros [Hc Hv Hsz] (Hidx & Hf & Hkey).
  pose proof Hc as [(_ & Hlm & _) _ _ Hu _].
  assert (Hcnt : count_full (upd (meta t) idx HASH__TOMB) = count_full (meta t) - 1).
  { rewrite count_full_upd by lia. rewrite Hf. simpl Z.b2z. lia. }
  pose proof (count_full_bounds (upd (meta t) idx HASH__TOMB)) as Hb1.
  pose proof (count_full_bounds (meta t)) as Hb2.
  split; [|split; [lia|split]].
  - constructor; cbn [bury meta keys vals info capacity size]; auto.
    + now apply Core_bury.
    + lia.
  - intros s (Hs & Hfs & Hks). cbn [bury meta keys info capacity] in *.
    destruct (Z.eq_dec s idx) as [->|Hne].
    + rewrite rd_upd_eq in Hfs by lia. discriminate.
    + rewrite rd_upd_ne in Hfs by lia. apply Hne. apply Hu; auto. congruence.
  - unfold has_free. f_equal. cbn [bury meta info capacity].
    destruct (forall_range (capacity (info t))
                (fun i => negb (hash_is_free (rd (meta t) i)))) eqn:E.
    + apply forall_range_spec. intros i Hi.
      rewrite forall_range_spec in E. specialize (E i Hi).
      destruct (Z.eq_dec i idx) as [->|Hne].
      * now rewrite rd_upd_eq by lia.
      * now rewrite rd_upd_ne by lia.
    + apply forall_range_false in E. destruct E as (i & Hi & Hz).
      destruct (forall_range (capacity (info t)) _) eqn:E'; [|reflexivity].
      rewrite forall_range_spec in E'. specialize (E' i Hi).
      destruct (Z.eq_dec i idx) as [->|Hne].
      * apply negb_false_iff in Hz. unfold hash_is_free in Hz.
        apply Z.eqb_eq in Hz. rewrite Hz in Hf. discriminate.
      * rewrite rd_upd_ne in E' by lia. congruence.
Qed.

Lemma hash_del_hit (t : image) (key idx : Z) (free_val : bool) :
  WF t -> hash__get_idx t key = Ok (Some idx) ->
  exists rel, hash_del (Some t) key free_val
              = Ok {| deleted := true; after := bury t idx; released := rel |}
    /\ rel = (if free_val then slot (vals t) idx else None).
Proof.
  intros Hwf Hr. unfold hash_del. rewrite Hr. cbn [bind].
  apply get_idx_Some in Hr; [|exact Hwf]. destruct Hr as [Hh _].
  destruct (WF_bury t key idx Hwf Hh) as (_ & Hsz & _).
  destruct Hh as (Hidx & _). pose proof Hwf as [[(_ & Hlm & _) _ _ _ _] Hv _].
  rewrite store_ok by lia. cbn [bind].
  assert (Hw : wrap64 (size (info t) - 1) = size (info t) - 1).
  { apply wrap64_small.
    pose proof Hwf as [[((k0 & Hk0 & Hm0) & _) _ _ _ _] _ _].
    destruct (pow2_groups k0 _ Hk0 Hm0) as (_ & _ & _ & Hrg). lia. }
  destruct free_val.
  - destruct (load_slot (vals t) idx ltac:(lia)) as (v & Hsv & ->).
    cbn [bind]. rewrite Hw. eexists. split; [reflexivity|]. now rewrite Hsv.
  - cbn [bind]. rewrite Hw. eexists. split; reflexivity.
Qed.

(** ** hash_reserve *)

Lemma log2_up_range (n : Z) :
  1 <= n <= 2 ^ 63 -> 0 <= Z.log2_up n <= 63 /\ n <= 2 ^ Z.log2_up n.
Proof.
  intros Hn. split.
  - split; [apply Z.log2_up_nonneg|].
    change 63 with (Z.log2_up (2 ^ 63)). apply Z.log2_up_le_mono. lia.
  - destruct (Z.eq_dec n 1) as [->|Hne];
      [change (Z.log2_up 1) with 0; lia|].
    pose proof (Z.log2_up_spec n ltac:(lia)) as [_ H]. exact H.
Qed.

Lemma round_up_loop (cap : Z) :
  1 <= cap <= 2 ^ 63 ->
  forall fuel j, 0 <= j <= Z.log2_up cap ->
    Z.log2_up cap - j < Z.of_nat fuel ->
    hash__round_up fuel (2 ^ j) cap = Ok (next_pow2 cap).
Proof.
  intros Hcap. destruct (log2_up_range cap Hcap) as (HL & Hle).
  induction fuel as [|fuel IH]; intros j Hj Hfuel; [lia|].
  cbn [hash__round_up]. destruct (Z.ltb_spec (2 ^ j) cap) as [Hlt|Hge].
  - assert (Hjl : j < Z.log2_up cap).
    { destruct (Z.eq_dec j (Z.log2_up cap)) as [->|]; lia. }
    rewrite Z.shiftl_mul_pow2 by lia.
    replace (2 ^ j * 2 ^ 1) with (2 ^ (j + 1))
      by (rewrite Z.pow_add_r by lia; reflexivity).
    assert (Hp : 2 ^ (j + 1) <= 2 ^ 63) by (apply Z.pow_le_mono_r; lia).
    assert (Hp0 : 0 < 2 ^ (j + 1)) by (apply Z.pow_pos_nonneg; lia).
    rewrite wrap64_small by lia. apply IH; lia.
  - unfold next_pow2. do 2 f_equal.
    destruct (Z.eq_dec j (Z.log2_up cap)) as [E|Hne]; [exact E|exfalso].
    assert (H1 : 1 < cap).
    { destruct (Z.eq_dec cap 1) as [->|]; [|lia].
      change (Z.log2_up 1) with 0 in *. lia. }
    pose proof (Z.log2_up_spec cap H1) as [Hlow _].
    assert (Hp : 2 ^ j <= 2 ^ Z.pred (Z.log2_up cap))
      by (apply Z.pow_le_mono_r; lia).
    lia.
Qed.

Lemma round_up_spec (cap : Z) :
  1 <= cap <= 2 ^ 63 -> hash__round_up 66 1 cap = Ok (next_pow2 cap).
Proof.
  intros Hcap. destruct (log2_up_range cap Hcap) as (HL & _).
  change 1 with (2 ^ 0) at 1. apply round_up_loop; auto; lia.
Qed.

(** Past [2 ^ 63] the doubling wraps to zero and the loop never exits. *)
Lemma round_up_overflow (cap : Z) :
  2 ^ 63 < cap ->
  forall fuel j, 0 <= j <= 64 ->
    hash__round_up fuel (wrap64 (2 ^ j)) cap = Diverge.
Proof.
  intros Hcap. induction fuel as [|fuel IH]; intros j Hj; [reflexivity|].
  cbn [hash__round_up].
  assert (Hw : 0 <= wrap64 (2 ^ j) <= 2 ^ 63).
  { destruct (Z.eq_dec j 64) as [->|Hne]; [vm_compute; split; discriminate|].
    assert (2 ^ j <= 2 ^ 63) by (apply Z.pow_le_mono_r; lia).
    assert (0 < 2 ^ j) by (apply Z.pow_pos_nonneg; lia).
    rewrite wrap64_small; lia. }
  destruct (Z.ltb_spec (wrap64 (2 ^ j)) cap) as [_|]; [|lia].
  destruct (Z.eq_dec j 64) as [->|Hne].
  - change (wrap64 (Z.shiftl (wrap64 (2 ^ 64)) 1)) with (wrap64 (2 ^ 64)).
    apply IH. lia.
  - replace (wrap64 (Z.shiftl (wrap64 (2 ^ j)) 1)) with (wrap64 (2 ^ (j + 1)));
      [apply IH; lia|].
    assert (2 ^ j <= 2 ^ 63) by (apply Z.pow_le_mono_r; lia).
    assert (0 < 2 ^ j) by (apply Z.pow_pos_nonneg; lia).
    rewrite (wrap64_small (2 ^ j)) by lia.
    rewrite Z.shiftl_mul_pow2 by lia. rewrite Z.pow_add_r by lia. reflexivity.
Qed.

Lemma next_pow2_spec (n : Z) :
  16 < n <= 2 ^ 63 ->
  (exists k, 4 <= k <= 63 /\ next_pow2 n = 2 ^ k)
  /\ n <= next_pow2 n
  /\ forall j, 0 <= j -> n <= 2 ^ j -> next_pow2 n <= 2 ^ j.
Proof.
  intros Hn. destruct (log2_up_range n ltac:(lia)) as (HL & Hle).
  unfold next_pow2. split; [|split; [exact Hle|]].
  - exists (Z.log2_up n). split; [|reflexivity]. split; [|lia].
    change 4 with (Z.log2_up 16). apply Z.log2_up_le_mono. lia.
  - intros j Hj Hnj. apply Z.pow_le_mono_r; [lia|].
    rewrite <- (Z.log2_up_pow2 j) by exact Hj. apply Z.log2_up_le_mono. exact Hnj.
Qed.

Lemma reserve_within (t : image) (n : Z) :
  0 <= n <= capacity (info t) -> capacity (info t) < 2 ^ 64 ->
  hash_reserve (Some t) n = Ok (Some t).
Proof.
  intros Hn Hc. unfold hash_reserve. rewrite wrap64_small by lia.
  cbn [hash_capacity]. destruct (Z.gtb_spec n (capacity (info t))); [lia|].
  reflexivity.
Qed.

Lemma reserve_grows (t : image) (n : Z) :
  WF t -> capacity (info t) < n <= 2 ^ 63 ->
  hash_reserve (Some t) n
  = (do t' <- hash__resize t (next_pow2 n); Ok (Some t')).
Proof.
  intros [[((k0 & Hk0 & Hm0) & _) _ _ _ _] _ _] Hn.
  destruct (pow2_groups k0 _ Hk0 Hm0) as (_ & _ & _ & Hrg).
  unfold hash_reserve. rewrite wrap64_small by lia. cbn [hash_capacity].
  destruct (Z.gtb_spec n (capacity (info t))); [|lia].
  rewrite round_up_spec by lia. reflexivity.
Qed.

(** ** The operations on a well-formed image *)

Lemma WF_probe_ok (t : image) : WF t -> probe_ok t.
Proof.
  intros Hwf. split.
  - apply probe_inv_iff. now destruct Hwf as [[_ _ _ _ Hp] _ _].
  - intros i Hi Hf. apply get_idx_held; [exact Hwf|]. unfold held. auto.
Qed.

Lemma get_idx_value (t : image) (key idx : Z) (v : option V) :
  WF t -> held t key idx -> slot (vals t) idx = v ->
  hash_get (Some t) key = Ok (Some idx) /\ deref (Some t) (Some idx) = v.
Proof.
  intros Hwf Hh Hv. split; [now apply get_idx_held|]. now rewrite deref_slot.
Qed.

Lemma pow2_double (m : Z) :
  (exists k, 4 <= k <= 63 /\ m = 2 ^ k) -> m <= 2 ^ 62 ->
  (exists k, 4 <= k <= 63 /\ 2 * m = 2 ^ k) /\ 0 < m.
Proof.
  intros (k & Hk & ->) Hle. split.
  - exists (k + 1). split.
    + destruct (Z.le_gt_cases k 62) as [|Hgt]; [lia|].
      assert (2 ^ 63 <= 2 ^ k) by (apply Z.pow_le_mono_r; lia). lia.
    + rewrite Z.pow_add_r by lia. lia.
  - apply Z.pow_pos_nonneg; lia.
Qed.

Section AllocationSucceeds.

Hypothesis alloc_ok : forall bytes align, hash__aligned_allocation bytes align = true.

Lemma malloc_ok (cap vsz : Z) : hash__malloc cap vsz = true.
Proof using alloc_ok. unfold hash__malloc. apply alloc_ok. Qed.

Lemma hash_put_spec (t : image) (key : Z) (val : V) :
  WF t -> capacity (info t) <= 2 ^ 62 -> hash__get_idx t key <> Diverge ->
  exists t1 t' idx,
    hash__put_slot t key (hash__mask key) val = Ok t1
    /\ WF t1 /\ held t1 key idx /\ slot (vals t1) idx = Some val
    /\ capacity (info t1) = capacity (info t)
    /\ size (info t1) = match hash__get_idx t key with
                         | Ok (Some _) => size (info t)
                         | _ => size (info t) + 1
                         end
    /\ hash_put (Some t) key val = Ok (Some t') /\ WF t'
    /\ (if size (info t1) >=? capacity (info t1) / 4 * 3
        then hash__resize t1 (2 * capacity (info t1)) = Ok t'
             /\ capacity (info t') = 2 * capacity (info t)
             /\ size (info t') = size (info t1)
             /\ no_tombstone t' /\ same_content t1 t' /\ has_free t' = true
        else t' = t1).
Proof using alloc_ok.
  intros Hwf Hcap Hnd.
  destruct (put_slot_spec t key val Hwf Hnd)
    as (t1 & idx & Hput & Hwf1 & Hh & Hv & Hc1 & Hvs1 & Hsz1).
  pose proof Hwf1 as [[(Hk1 & _) _ _ _ _] _ _].
  destruct (pow2_double _ Hk1 ltac:(lia)) as (Hk2 & Hpos).
  assert (Hp : hash_put (Some t) key val
               = if size (info t1) >=? capacity (info t1) / 4 * 3
                 then do t2 <- hash__resize t1 (2 * capacity (info t1));
                      Ok (Some t2)
                 else Ok (Some t1)).
  { unfold hash_put. rewrite Hput. cbn [bind].
    rewrite (wrap64_small (capacity (info t1) / 4 * 3))
      by (Z.to_euclidean_division_equations; lia).
    rewrite (wrap64_small (capacity (info t1) * 2)) by lia.
    now rewrite (Z.mul_comm (capacity (info t1)) 2). }
  destruct (size (info t1) >=? capacity (info t1) / 4 * 3) eqn:Hload.
  - destruct (resize_spec t1 (2 * capacity (info t1)) Hwf1 Hk2 ltac:(lia)
                (malloc_ok _ _))
      as (t2 & Hrs & Hwf2 & Hinfo & Hnt & Hsame & Hfree).
    rewrite Hrs in Hp. cbn [bind] in Hp. exists t1, t2, idx.
    repeat (split; [assumption|]). rewrite Hload, Hinfo. cbn [capacity size].
    repeat (split; [assumption || lia || reflexivity|]). exact Hfree.
  - exists t1, t1, idx. repeat (split; [assumption|]). now rewrite Hload.
Qed.

(** After [hash_put] the key is found, with the value just written. *)
Lemma hash_put_visible (t : image) (key : Z) (val : V) :
  WF t -> capacity (info t) <= 2 ^ 62 -> hash__get_idx t key <> Diverge ->
  exists t' i, hash_put (Some t) key val = Ok (Some t') /\ WF t'
    /\ hash_get (Some t') key = Ok (Some i)
    /\ deref (Some t') (Some i) = Some val.
Proof using alloc_ok.
  intros Hwf Hcap Hnd.
  destruct (hash_put_spec t key val Hwf Hcap Hnd)
    as (t1 & t' & idx & _ & Hwf1 & Hh & Hv & _ & _ & Hput & Hwf' & Hgrow).
  destruct (size (info t1) >=? capacity (info t1) / 4 * 3).
  - destruct Hgrow as (_ & _ & _ & _ & [Hto _] & _).
    destruct (Hto key idx Hh) as (i & Hh' & Hv').
    exists t', i. split; [exact Hput|]. split; [exact Hwf'|].
    apply get_idx_value; auto. congruence.
  - subst t'. exists t1, idx. split; [exact Hput|]. split; [exact Hwf1|].
    now apply get_idx_value.
Qed.

Lemma hash_reserve_grow_spec (t : image) (n : Z) :
  WF t -> capacity (info t) < n <= 2 ^ 63 ->
  exists t', hash_reserve (Some t) n = Ok (Some t')
    /\ hash__resize t (next_pow2 n) = Ok t'
    /\ WF t'
    /\ info t' = {| size := size (info t); capacity := next_pow2 n;
                    val_size := val_size (info t) |}
    /\ no_tombstone t' /\ same_content t t' /\ has_free t' = true.
Proof using alloc_ok.
  intros Hwf Hn. pose proof Hwf as [[((k0 & Hk0 & Hm0) & _) _ _ _ _] _ _].
  destruct (pow2_groups k0 _ Hk0 Hm0) as (_ & _ & _ & Hrg).
  destruct (next_pow2_spec n ltac:(lia)) as (Hk & Hle & _).
  destruct (resize_spec t (next_pow2 n) Hwf Hk ltac:(lia) (malloc_ok _ _))
    as (t' & Hrs & Hrest).
  exists t'. rewrite (reserve_grows t n Hwf Hn), Hrs. cbn [bind].
  split; [reflexivity|]. split; [reflexivity|exact Hrest].
Qed.

End AllocationSucceeds.

Lemma hash_del_spec (t : image) (key : Z) (free_val : bool) :
  WF t ->
  match hash__get_idx t key with
  | Ok (Some idx) =>
      held t key idx
      /\ hash_del (Some t) key free_val
         = Ok {| deleted := true; after := bury t idx;
                 released := if free_val then slot (vals t) idx else None |}
      /\ WF (bury t idx)
      /\ (forall s, ~ held (bury t idx) key s)
      /\ has_free (bury t idx) = has_free t
  | Ok None =>
      (forall s, ~ held t key s)
      /\ hash_del (Some t) key free_val
         = Ok {| deleted := false; after := t; released := None |}
  | Diverge => hash_del (Some t) key free_val = Diverge
  | Fault => False
  end.
Proof.
  intros Hwf. destruct (hash__get_idx t key) as [[idx|]| |] eqn:Hr.
  - destruct (hash_del_hit t key idx free_val Hwf Hr) as (rel & Hd & ->).
    apply get_idx_Some in Hr; [|exact Hwf]. destruct Hr as [Hh _].
    destruct (WF_bury t key idx Hwf Hh) as (Hwf' & _ & Hno & Hfree).
    split; [exact Hh|]. split; [exact Hd|]. split; [exact Hwf'|].
    split; [exact Hno|exact Hfree].
  - split; [now apply get_idx_None in Hr|].
    unfold hash_del. rewrite Hr. reflexivity.
  - now apply (get_idx_no_fault t key).
  - unfold hash_del. rewrite Hr. reflexivity.
Qed.

Lemma WF_fresh_start : WF (fresh_image HASH__START_CAPACITY 0 sizeof_V).
Proof.
  destruct (rehashed_fresh (fresh_image HASH__START_CAPACITY 0 sizeof_V)
              HASH__START_CAPACITY 0 sizeof_V) as [Hc Hv _ _ _ Hcnt].
  { exists 4. split; [lia|reflexivity]. }
  constructor; auto.
Qed.

Lemma same_content_lookup (t t' : image) :
  WF t -> WF t' -> same_content t t' -> has_free t' = true ->
  forall key,
    match hash_get (Some t) key with
    | Ok (Some i) =>
        exists i', hash_get (Some t') key = Ok (Some i')
          /\ deref (Some t') (Some i') = deref (Some t) (Some i)
    | _ => hash_get (Some t') key = Ok None
    end.
Proof.
  intros Hwf Hwf' Hsame Hfree key. cbn [hash_get].
  pose proof (same_content_get t t' key Hwf Hwf' Hsame Hfree) as H.
  destruct (hash__get_idx t key) as [[i|]| |]; auto.
Qed.

Lemma no_tombstone_byte (t : image) (s : Z) :
  no_tombstone t -> 0 <= s < capacity (info t) -> rd (meta t) s <> HASH__TOMB.
Proof.
  intros Hnt Hs E. destruct (Hnt s Hs) as [Hz|Hf]; rewrite E in *; discriminate.
Qed.

(** ** The claims *)

(** When its match probe returns, [hash_put] first performs the insert or
    overwrite (the image [t1])
    and only then compares the size of [t1] with [(capacity / 4) * 3]:
    when the size has reached that bound the table is rebuilt at twice the
    capacity, otherwise [t1] is the result.  In both cases the key is found
    through the returned pointer with the value just written, also in the
    step that grows the table.  Stated for any well-formed image on which
    the match probe for the key terminates. *)
Theorem hash_put_writes_then_grows (t : image) (key : Z) (val : V) :
  (forall bytes align, hash__aligned_allocation bytes align = true) ->
  hash_wf t = true -> capacity (info t) <= 2 ^ 62 ->
  hash__get_idx t key <> Diverge ->
  exists t1 t',
    hash__put_slot t key (hash__mask key) val = Ok t1
    /\ (exists i, hash_get (Some t1) key = Ok (Some i)
                  /\ deref (Some t1) (Some i) = Some val)
    /\ hash_put (Some t) key val
       = (if size (info t1) >=? capacity (info t1) / 4 * 3
          then do t2 <- hash__resize t1 (2 * capacity (info t1)); Ok (Some t2)
          else Ok (Some t1))
    /\ hash_put (Some t) key val = Ok (Some t')
    /\ capacity (info t')
       = (if size (info t1) >=? capacity (info t1) / 4 * 3
          then 2 * capacity (info t) else capacity (info t))
    /\ size (info t') = size (info t1)
    /\ (exists i', hash_get (Some t') key = Ok (Some i')
                   /\ deref (Some t') (Some i') = Some val)
    /\ hash_wf t' = true.
Proof.
  intros Halloc Hwf Hcap Hnd. apply hash_wf_iff in Hwf.
  destruct (hash_put_spec Halloc t key val Hwf Hcap Hnd)
    as (t1 & t' & idx & Hslot & Hwf1 & Hh & Hv & Hc1 & _ & Hput & Hwf' & Hgrow).
  exists t1, t'. split; [exact Hslot|].
  split; [exists idx; now apply get_idx_value|].
  destruct (size (info t1) >=? capacity (info t1) / 4 * 3).
  - destruct Hgrow as (Hrs & Hc' & Hs' & _ & [Hto _] & _).
    rewrite Hrs. cbn [bind]. repeat (split; [assumption|]).
    split; [|now apply hash_wf_iff].
    destruct (Hto key idx Hh) as (i & Hh' & Hv').
    exists i. apply get_idx_value; auto. congruence.
  - subst t'. repeat (split; [assumption || reflexivity|]).
    split; [|now apply hash_wf_iff]. exists idx. now apply get_idx_value.
Qed.

(** C6.  Every public operation that changes the table, and growth itself,
    preserves the probe invariant: in the image it leaves behind every Full
    slot lies on the probe sequence of its own key (no group visited
    before the slot's group holds a Free byte), so that the match probe
    for that key ends at that very slot.  Where the caller chooses the new
    capacity ([hash_reserve], [hash__resize]) the byte count of the new
    block must not wrap. *)
Theorem probe_invariant_preserved
    (t : image) (key : Z) (val : V) (free_val : bool) (n ncap : Z) :
  (forall bytes align, hash__aligned_allocation bytes align = true) ->
  hash_wf t = true ->
  (capacity (info t) <= 2 ^ 62 -> hash__get_idx t key <> Diverge ->
     exists t', hash_put (Some t) key val = Ok (Some t') /\ probe_ok t')
  /\ (hash__get_idx t key <> Diverge ->
     exists r, hash_del (Some t) key free_val = Ok r /\ probe_ok (after r))
  /\ (0 <= n <= 2 ^ 63 ->
      (capacity (info t) < n ->
       hash__fits (next_pow2 n) (val_size (info t)) = true) ->
     exists t', hash_reserve (Some t) n = Ok (Some t') /\ probe_ok t')
  /\ ((exists k, 4 <= k <= 63 /\ ncap = 2 ^ k) -> capacity (info t) < ncap ->
      hash__fits ncap (val_size (info t)) = true ->
     exists t', hash__resize t ncap = Ok t' /\ probe_ok t').
Proof.
  intros Halloc Hwf. apply hash_wf_iff in Hwf.
  split; [|split; [|split]].
  - intros Hcap Hnd.
    destruct (hash_put_visible Halloc t key val Hwf Hcap Hnd)
      as (t' & _ & Hput & Hwf' & _).
    exists t'. split; [exact Hput|now apply WF_probe_ok].
  - intros Hnd. pose proof (hash_del_spec t key free_val Hwf) as Hd.
    destruct (hash__get_idx t key) as [[idx|]| |]; [| | |contradiction].
    + destruct Hd as (_ & Hd & Hwf' & _). eexists. split; [exact Hd|].
      now apply WF_probe_ok.
    + destruct Hd as (_ & Hd). eexists. split; [exact Hd|].
      now apply WF_probe_ok.
    + destruct Hd.
  - intros Hn _. destruct (Z.le_gt_cases n (capacity (info t))) as [Hle|Hgt].
    + exists t. split; [|now apply WF_probe_ok].
      apply reserve_within; [lia|].
      destruct Hwf as [[((k0 & Hk0 & Hm0) & _) _ _ _ _] _ _].
      destruct (pow2_groups k0 _ Hk0 Hm0) as (_ & _ & _ & Hrg). lia.
    + destruct (hash_reserve_grow_spec Halloc t n Hwf ltac:(lia))
        as (t' & Hres & _ & Hwf' & _).
      exists t'. split; [exact Hres|now apply WF_probe_ok].
  - intros Hk Hlt _.
    destruct (resize_spec t ncap Hwf Hk Hlt (malloc_ok Halloc _ _))
      as (t' & Hrs & Hwf' & _).
    exists t'. split; [exact Hrs|now apply WF_probe_ok].
Qed.

(** C7.  Growth to a larger power-of-two capacity keeps the content: the
    rebuilt image is well formed (its keys are pairwise distinct and its
    size field counts its Full bytes), has the requested capacity and the
    old size, answers every lookup that found a value with that same value
    and every other lookup with "absent", and holds no Tombstone.  Stated
    for a growth the code completes: the block was obtained and its byte
    count did not wrap. *)
Theorem resize_preserves_content (t : image) (ncap : Z) :
  hash_wf t = true -> (exists k, 4 <= k <= 63 /\ ncap = 2 ^ k) ->
  capacity (info t) < ncap ->
  hash__malloc ncap (val_size (info t)) = true ->
  hash__fits ncap (val_size (info t)) = true ->
  exists t', hash__resize t ncap = Ok t'
    /\ hash_wf t' = true
    /\ capacity (info t') = ncap
    /\ size (info t') = size (info t)
    /\ (forall key,
          match hash_get (Some t) key with
          | Ok (Some i) =>
              exists i', hash_get (Some t') key = Ok (Some i')
                /\ deref (Some t') (Some i') = deref (Some t) (Some i)
          | _ => hash_get (Some t') key = Ok None
          end)
    /\ (forall s, 0 <= s < ncap -> rd (meta t') s <> HASH__TOMB).
Proof.
  intros Hwf Hk Hlt Hmalloc _. apply hash_wf_iff in Hwf.
  destruct (resize_spec t ncap Hwf Hk Hlt Hmalloc)
    as (t' & Hrs & Hwf' & Hinfo & Hnt & Hsame & Hfree).
  exists t'. split; [exact Hrs|]. split; [now apply hash_wf_iff|].
  rewrite Hinfo. cbn [capacity size]. split; [reflexivity|].
  split; [reflexivity|]. split; [now apply same_content_lookup|].
  intros s Hs. apply no_tombstone_byte; [exact Hnt|].
  rewrite Hinfo. exact Hs.
Qed.

(** C9 (amended).  On a table that exists, [hash_reserve] with
    [n <= capacity] changes nothing; with [capacity < n <= 2 ^ 63], when
    the block is obtained and its byte count does not wrap, it rebuilds the
    table at the smallest power of two that is at least [n]:
    the new image is handed to the rehash with every metadata byte Free,
    and size and content are as before.  On a null pointer it first
    allocates the 16-slot start table and then proceeds in the same way. *)
Theorem hash_reserve_spec (t : image) (n : Z) :
  (forall bytes align, hash__aligned_allocation bytes align = true) ->
  hash_wf t = true -> 0 <= n <= 2 ^ 63 ->
  (n <= capacity (info t) -> hash_reserve (Some t) n = Ok (Some t))
  /\ (capacity (info t) < n ->
      hash__fits (next_pow2 n) (val_size (info t)) = true ->
      exists t', hash_reserve (Some t) n = Ok (Some t')
        /\ hash__resize t (next_pow2 n)
           = hash__rehash t (fresh_image (next_pow2 n) (size (info t))
                               (val_size (info t)))
        /\ (forall s, 0 <= s < next_pow2 n ->
              rd (meta (fresh_image (next_pow2 n) (size (info t))
                          (val_size (info t)))) s = HASH__FREE)
        /\ hash__resize t (next_pow2 n) = Ok t'
        /\ capacity (info t') = next_pow2 n
        /\ n <= next_pow2 n
        /\ (forall j, 0 <= j -> n <= 2 ^ j -> next_pow2 n <= 2 ^ j)
        /\ size (info t') = size (info t)
        /\ (forall key,
              match hash_get (Some t) key with
              | Ok (Some i) =>
                  exists i', hash_get (Some t') key = Ok (Some i')
                    /\ deref (Some t') (Some i') = deref (Some t) (Some i)
              | _ => hash_get (Some t') key = Ok None
              end)
        /\ hash_wf t' = true)
  /\ hash_reserve None n
     = hash_reserve (Some (fresh_image HASH__START_CAPACITY 0 sizeof_V)) n.
Proof.
  intros Halloc Hwf Hn. apply hash_wf_iff in Hwf.
  pose proof Hwf as [[((k0 & Hk0 & Hm0) & _) _ _ _ _] _ _].
  destruct (pow2_groups k0 _ Hk0 Hm0) as (_ & _ & _ & Hrg).
  split; [|split].
  - intros Hle. apply reserve_within; lia.
  - intros Hgt _.
    destruct (hash_reserve_grow_spec Halloc t n Hwf ltac:(lia))
      as (t' & Hres & Hrs & Hwf' & Hinfo & Hnt & Hsame & Hfree).
    destruct (next_pow2_spec n ltac:(lia)) as ((k & Hk & Hnp) & Hle & Hmin).
    exists t'. split; [exact Hres|]. split.
    { unfold hash__resize. now rewrite (malloc_ok Halloc). }
    split.
    { intros s Hs. cbn [fresh_image meta]. now apply rd_replicate. }
    split; [exact Hrs|]. rewrite Hinfo. cbn [capacity size].
    repeat (split; [assumption || reflexivity|]).
    split; [now apply same_content_lookup|now apply hash_wf_iff].
  - unfold hash_reserve, hash__init. now rewrite (malloc_ok Halloc).
Qed.

(** C10.  [hash_del] of a key that is present, with [free_val] unset,
    writes the Tombstone byte at the slot the probe found and decrements
    [size]; every other metadata byte, the whole keys array, the whole
    values array (the deleted slot included), the capacity and the value
    width are what they were. *)
Theorem hash_del_frame (t : image) (key idx : Z) :
  hash_wf t = true -> hash_get (Some t) key = Ok (Some idx) ->
  exists r, hash_del (Some t) key false = Ok r
    /\ deleted r = true /\ released r = None
    /\ meta (after r) = upd (meta t) idx HASH__TOMB
    /\ slot (meta (after r)) idx = Some HASH__TOMB
    /\ (forall j, j <> idx -> slot (meta (after r)) j = slot (meta t) j)
    /\ len (meta (after r)) = len (meta t)
    /\ keys (after r) = keys t
    /\ vals (after r) = vals t
    /\ capacity (info (after r)) = capacity (info t)
    /\ val_size (info (after r)) = val_size (info t)
    /\ size (info (after r)) = size (info t) - 1.
Proof.
  intros Hwf Hget. apply hash_wf_iff in Hwf. cbn [hash_get] in Hget.
  pose proof (hash_del_spec t key false Hwf) as Hd. rewrite Hget in Hd.
  destruct Hd as ((Hidx & _) & Hd & _).
  pose proof Hwf as [[(_ & Hlm & _) _ _ _ _] _ _].
  eexists. split; [exact Hd|]. cbn [deleted released after bury meta keys vals info capacity val_size size].
  repeat (split; [reflexivity|]).
  split; [apply slot_upd_eq; lia|].
  split; [intros j Hj; apply slot_upd_ne; lia|].
  split; [apply len_upd|]. repeat split; reflexivity.
Qed.

(** [hash_del] on an image that still has a Free byte: it returns [true]
    exactly for the keys that are present, and then the slot is a
    Tombstone, [size] is one less and the key is no longer found. *)
Theorem hash_del_with_free_byte (t : image) (key : Z) :
  hash_wf t = true -> has_free t = true ->
  match hash_get (Some t) key with
  | Ok (Some idx) =>
      exists r, hash_del (Some t) key false = Ok r /\ deleted r = true
        /\ rd (meta (after r)) idx = HASH__TOMB
        /\ size (info (after r)) = size (info t) - 1
        /\ hash_get (Some (after r)) key = Ok None
  | Ok None =>
      hash_del (Some t) key false
      = Ok {| deleted := false; after := t; released := None |}
  | _ => False
  end.
Proof.
  intros Hwf Hfree. apply hash_wf_iff in Hwf. cbn [hash_get].
  pose proof (hash_del_spec t key false Hwf) as Hd.
  destruct (hash__get_idx t key) as [[idx|]| |] eqn:Hr.
  - destruct Hd as ((Hidx & _) & Hd & Hwf' & Hno & Hfree').
    pose proof Hwf as [[(_ & Hlm & _) _ _ _ _] _ _].
    eexists. split; [exact Hd|]. cbn [deleted after].
    split; [reflexivity|]. split; [cbn [bury meta]; apply rd_upd_eq; lia|].
    split; [reflexivity|]. cbn [hash_get].
    apply get_idx_absent; auto. congruence.
  - now destruct Hd.
  - exact Hd.
  - apply get_idx_Diverge in Hr; [|exact Hwf]. destruct Hr. congruence.
Qed.

Lemma hash_put_null (key : Z) (val : V) :
  (forall bytes align, hash__aligned_allocation bytes align = true) ->
  exists t' i, hash_put None key val = Ok (Some t')
    /\ capacity (info t') = HASH__START_CAPACITY /\ size (info t') = 1
    /\ hash_get (Some t') key = Ok (Some i)
    /\ deref (Some t') (Some i) = Some val.
Proof.
  intros Halloc.
  set (t0 := fresh_image HASH__START_CAPACITY 0 sizeof_V).
  assert (Hnull : hash_put None key val = hash_put (Some t0) key val).
  { unfold hash_put, hash__init. now rewrite (malloc_ok Halloc). }
  pose proof WF_fresh_start as Hwf. fold t0 in Hwf.
  assert (Hmiss : hash__get_idx t0 key = Ok None).
  { apply get_idx_absent; [exact Hwf| |reflexivity].
    intros s (Hs & Hf & _). unfold t0 in Hf. cbn [fresh_image meta capacity info] in *.
    rewrite rd_replicate in Hf by exact Hs. discriminate. }
  destruct (hash_put_spec Halloc t0 key val Hwf)
    as (t1 & t' & idx & _ & Hwf1 & Hh & Hv & Hc1 & Hsz1 & Hput & _ & Hgrow).
  { unfold t0. cbn [fresh_image info capacity]. unfold HASH__START_CAPACITY. lia. }
  { rewrite Hmiss. discriminate. }
  rewrite Hmiss in Hsz1. unfold t0 in Hsz1, Hc1.
  cbn [fresh_image info size capacity] in Hsz1, Hc1.
  rewrite Hsz1, Hc1 in Hgrow. change (0 + 1 >=? HASH__START_CAPACITY / 4 * 3)
    with false in Hgrow. cbv iota in Hgrow. subst t'.
  exists t1, idx. rewrite Hnull. split; [exact Hput|].
  split; [exact Hc1|]. split; [lia|]. now apply get_idx_value.
Qed.

(** ** Sequences of operations against the map they describe *)

Lemma agrees_same_content (t t' : image) (m : Z -> option V) :
  agrees t m -> same_content t t' -> agrees t' m.
Proof.
  intros Ha [Hto Hfrom] key. specialize (Ha key).
  destruct (m key) as [v|].
  - destruct Ha as (s & Hs & Hv). destruct (Hto key s Hs) as (s' & Hs' & Hv').
    exists s'. split; [exact Hs'|congruence].
  - intros s' Hs'. destruct (Hfrom key s' Hs') as (s & Hs & _).
    exact (Ha s Hs).
Qed.

Lemma agrees_set_val (t : image) (m : Z -> option V) (key idx : Z) (val : V) :
  WF t -> agrees t m -> held t key idx ->
  agrees (set_val t idx val) (bind_key m key (Some val)).
Proof.
  intros [_ Hv _] Ha (Hidx & Hf & Hk) K. unfold bind_key.
  destruct (Z.eqb_spec K key) as [->|Hne].
  - exists idx. split; [split; [exact Hidx|split; assumption]|].
    cbn [set_val vals]. apply slot_upd_eq. lia.
  - specialize (Ha K). destruct (m K) as [v|]; [|exact Ha].
    destruct Ha as (s & Hs & Hsv). exists s. split; [exact Hs|].
    cbn [set_val vals]. rewrite slot_upd_ne; [exact Hsv|lia|].
    intros ->. destruct Hs as (_ & _ & Hks). congruence.
Qed.

Lemma agrees_claim (t : image) (m : Z -> option V) (key idx : Z) (val : V) :
  WF t -> agrees t m -> 0 <= idx < capacity (info t) ->
  hash_is_full (rd (meta t) idx) = false ->
  agrees (claim t idx key val) (bind_key m key (Some val)).
Proof.
  intros [[(_ & Hlm & Hlk) _ _ _ _] Hv _] Ha Hidx Hnf K. unfold bind_key.
  assert (Hold : forall K' s, s <> idx ->
            (held (claim t idx key val) K' s <-> held t K' s)).
  { intros K' s Hs. unfold held. cbn [claim meta keys info capacity].
    rewrite !rd_upd_ne by lia. reflexivity. }
  assert (Hnew : forall K', held (claim t idx key val) K' idx -> K' = key).
  { intros K' (_ & _ & Hk). cbn [claim keys] in Hk.
    rewrite rd_upd_eq in Hk by lia. congruence. }
  destruct (Z.eqb_spec K key) as [->|Hne].
  - exists idx. split.
    + unfold held. cbn [claim meta keys info capacity].
      rewrite !rd_upd_eq by lia. split; [exact Hidx|].
      split; [apply hash__mask_full|reflexivity].
    + cbn [claim vals]. apply slot_upd_eq. lia.
  - specialize (Ha K). destruct (m K) as [v|].
    + destruct Ha as (s & Hs & Hsv).
      assert (Hsi : s <> idx) by (intros ->; destruct Hs as (_ & Hf & _); congruence).
      exists s. split; [now apply Hold|].
      cbn [claim vals]. rewrite slot_upd_ne; [exact Hsv|lia|auto].
    + intros s Hs. destruct (Z.eq_dec s idx) as [->|Hsi].
      * apply Hne. now apply Hnew.
      * apply (Ha s). now apply Hold.
Qed.

Lemma agrees_bury (t : image) (m : Z -> option V) (key idx : Z) :
  WF t -> agrees t m -> held t key idx ->
  agrees (bury t idx) (bind_key m key None).
Proof.
  intros Hwf Ha Hh K. unfold bind_key.
  destruct (WF_bury t key idx Hwf Hh) as (_ & _ & Hno & _).
  destruct Hwf as [[(_ & Hlm & _) _ _ _ _] _ _].
  destruct Hh as (Hidx & Hf & Hk).
  assert (Hold : forall K' s, s <> idx ->
            (held (bury t idx) K' s <-> held t K' s)).
  { intros K' s Hs. unfold held. cbn [bury meta keys info capacity].
    rewrite rd_upd_ne by lia. reflexivity. }
  destruct (Z.eqb_spec K key) as [->|Hne]; [exact Hno|].
  specialize (Ha K). destruct (m K) as [v|].
  - destruct Ha as (s & Hs & Hsv).
    assert (Hsi : s <> idx) by (intros ->; destruct Hs as (_ & _ & Hks); congruence).
    exists s. split; [now apply Hold|exact Hsv].
  - intros s Hs. destruct (Z.eq_dec s idx) as [->|Hsi].
    + destruct Hs as (_ & Hfs & _). cbn [bury meta] in Hfs.
      rewrite rd_upd_eq in Hfs by lia. discriminate.
    + apply (Ha s). now apply Hold.
Qed.

Lemma agrees_absent (t : image) (m : Z -> option V) (key : Z) :
  agrees t m -> (forall s, ~ held t key s) -> agrees t (bind_key m key None).
Proof.
  intros Ha Hno K. unfold bind_key.
  destruct (Z.eqb_spec K key) as [->|Hne]; [exact Hno|exact (Ha K)].
Qed.

Lemma agrees_fresh (cap sz vsz : Z) (m : Z -> option V) :
  0 <= cap -> (forall key, m key = None) -> agrees (fresh_image cap sz vsz) m.
Proof.
  intros Hcap Hm key. rewrite Hm. intros s (Hs & Hf & _).
  cbn [fresh_image meta info capacity] in *.
  rewrite rd_replicate in Hf by exact Hs. discriminate.
Qed.

(** What a lookup answers on an image that agrees with [m]: the bound
    value for a bound key, always; for an unbound key "absent" if the
    image has a Free byte, and no answer at all if it has none. *)
Lemma agrees_lookup (t : image) (m : Z -> option V) (key : Z) :
  WF t -> agrees t m ->
  hash_lookup (Some t) key
  = match m key with
    | Some v => Ok (Some v)
    | None => if has_free t then Ok None else Diverge
    end.
Proof.
  intros Hwf Ha. specialize (Ha key). unfold hash_lookup. cbn [hash_get].
  destruct (m key) as [v|].
  - destruct Ha as (s & Hs & Hv). rewrite (get_idx_held t key s Hwf Hs).
    cbn [bind]. now rewrite deref_slot, Hv.
  - destruct (has_free t) eqn:Hf.
    + now rewrite (get_idx_absent t key Hwf Ha Hf).
    + assert (Hd : hash__get_idx t key = Diverge)
        by (apply get_idx_Diverge; auto).
      now rewrite Hd.
Qed.

Section Refinement.

Hypothesis alloc_ok : forall bytes align, hash__aligned_allocation bytes align = true.

Lemma hash_put_agrees (t : image) (m : Z -> option V) (key : Z) (val : V)
    (h' : handle) :
  WF t -> agrees t m -> capacity (info t) <= 2 ^ 62 ->
  hash_put (Some t) key val = Ok h' ->
  handle_agrees h' (bind_key m key (Some val)).
Proof using alloc_ok.
  intros Hwf Ha Hcap Hput.
  assert (Hnd : hash__get_idx t key <> Diverge).
  { intros Hd. unfold hash_put, hash__put_slot in Hput. rewrite Hd in Hput.
    discriminate. }
  destruct (hash_put_spec alloc_ok t key val Hwf Hcap Hnd)
    as (t1 & t' & idx & Hslot & Hwf1 & _ & _ & _ & _ & Hput' & Hwf' & Hgrow).
  rewrite Hput' in Hput. injection Hput as <-.
  assert (Ha1 : agrees t1 (bind_key m key (Some val))).
  { destruct (hash__get_idx t key) as [[i|]| |] eqn:Hr.
    - rewrite (put_slot_hit t key i val Hwf Hr) in Hslot. injection Hslot as <-.
      apply agrees_set_val; auto. now apply get_idx_Some in Hr.
    - destruct (put_slot_miss t key val Hwf Hr) as (i & Hi & Hnf & Hs' & _).
      rewrite Hs' in Hslot. injection Hslot as <-. now apply agrees_claim.
    - exfalso. now apply (get_idx_no_fault t key).
    - contradiction. }
  split; [exact Hwf'|].
  destruct (size (info t1) >=? capacity (info t1) / 4 * 3).
  - destruct Hgrow as (_ & _ & _ & _ & Hsame & _).
    now apply (agrees_same_content t1).
  - now subst t'.
Qed.

Lemma run_op_agrees (h h' : handle) (m : Z -> option V) (o : op V) :
  handle_agrees h m -> hash_capacity h <= 2 ^ 62 ->
  match o with Reserve n => 0 <= n <= 2 ^ 63 | _ => True end ->
  run_op h o = Ok h' ->
  handle_agrees h' (model_op m o).
Proof using alloc_ok.
  intros Hh Hcap Hn Hrun.
  set (t0 := fresh_image HASH__START_CAPACITY 0 sizeof_V).
  assert (Hfresh : forall m0, (forall key, m0 key = None) ->
            WF t0 /\ agrees t0 m0 /\ capacity (info t0) <= 2 ^ 62).
  { intros m0 Hm0. split; [apply WF_fresh_start|]. split.
    - apply agrees_fresh; [unfold HASH__START_CAPACITY; lia|exact Hm0].
    - cbn. unfold HASH__START_CAPACITY. lia. }
  destruct o as [key val|key free_val|n]; cbn [run_op model_op] in *.
  - (* put *)
    destruct h as [t|].
    + destruct Hh as [Hwf Ha]. now apply (hash_put_agrees t m key val).
    + destruct (Hfresh m Hh) as (Hwf0 & Ha0 & Hc0).
      apply (hash_put_agrees t0 m key val); auto.
      rewrite <- Hrun. unfold hash_put, hash__init.
      now rewrite (malloc_ok alloc_ok).
  - (* del *)
    destruct h as [t|]; [|discriminate]. destruct Hh as [Hwf Ha].
    pose proof (hash_del_spec t key free_val Hwf) as Hd.
    destruct (hash__get_idx t key) as [[idx|]| |].
    + destruct Hd as (Hheld & Hd & Hwf' & _). rewrite Hd in Hrun.
      cbn [bind after] in Hrun. injection Hrun as <-.
      split; [exact Hwf'|]. now apply agrees_bury.
    + destruct Hd as (Hno & Hd). rewrite Hd in Hrun.
      cbn [bind after] in Hrun. injection Hrun as <-.
      split; [exact Hwf|]. now apply agrees_absent.
    + destruct Hd.
    + rewrite Hd in Hrun. discriminate.
  - (* reserve *)
    assert (Hsome : forall t, WF t -> agrees t m ->
              hash_reserve (Some t) n = Ok h' -> handle_agrees h' m).
    { intros t Hwf Ha Hres.
      destruct (Z.le_gt_cases n (capacity (info t))) as [Hle|Hgt].
      - rewrite reserve_within in Hres.
        + injection Hres as <-. split; assumption.
        + lia.
        + destruct Hwf as [[((k0 & Hk0 & Hm0) & _) _ _ _ _] _ _].
          destruct (pow2_groups k0 _ Hk0 Hm0) as (_ & _ & _ & Hrg). lia.
      - destruct (hash_reserve_grow_spec alloc_ok t n Hwf ltac:(lia))
          as (t' & Hres' & _ & Hwf' & _ & _ & Hsame & _).
        rewrite Hres' in Hres. injection Hres as <-.
        split; [exact Hwf'|]. now apply (agrees_same_content t). }
    destruct h as [t|].
    + destruct Hh as [Hwf Ha]. now apply (Hsome t).
    + destruct (Hfresh m Hh) as (Hwf0 & Ha0 & _). apply (Hsome t0); auto.
      rewrite <- Hrun. unfold hash_reserve, hash__init.
      now rewrite (malloc_ok alloc_ok).
Qed.

Lemma run_agrees (ops : list (op V)) :
  forall h h' m,
    handle_agrees h m -> in_bounds ops h -> run ops h = Ok h' ->
    handle_agrees h' (model ops m).
Proof using alloc_ok.
  induction ops as [|o ops IH]; intros h h' m Hh Hb Hrun;
    cbn [run model in_bounds] in *.
  - injection Hrun as <-. exact Hh.
  - destruct Hb as (Hcap & Hn & Hrest).
    destruct (run_op h o) as [h1| |] eqn:Hop; cbn [bind] in Hrun;
      try discriminate.
    apply (IH h1 h' (model_op m o)); auto.
    now apply (run_op_agrees h h1 m o).
Qed.

End Refinement.

(** Every sequence of [put], [del] and [reserve] that returns, started on
    the null pointer, leaves an image that satisfies the invariants and
    holds exactly the bindings the sequence describes.  A lookup of a bound
    key returns its latest value; a lookup of an unbound key returns
    "absent" when the image has a Free byte and does not return when it
    has none. *)
Theorem run_refines_model (ops : list (op V)) (t : image) (key : Z) :
  (forall bytes align, hash__aligned_allocation bytes align = true) ->
  in_bounds ops None -> run ops None = Ok (Some t) ->
  hash_wf t = true
  /\ hash_lookup (Some t) key
     = match model ops (fun _ => None) key with
       | Some v => Ok (Some v)
       | None => if has_free t then Ok None else Diverge
       end.
Proof.
  intros Halloc Hb Hrun.
  destruct (run_agrees Halloc ops None (Some t) (fun _ => None)) as [Hwf Ha];
    auto.
  { intros k. reflexivity. }
  split; [now apply hash_wf_iff|now apply agrees_lookup].
Qed.


(** ** The mixer

    [hash__hash] is made of steps each of which can be undone on 64-bit
    words: the xor with the seed, [val ^= val >> 33] (applied twice it
    gives the word back, because [33 + 33 >= 64]) and the multiplication
    by an odd constant. *)

Lemma word_bits_above (x n : Z) : 0 <= x < 2 ^ 64 -> 64 <= n -> Z.testbit x n = false.
Proof.
  intros Hx Hn. destruct (Z.eq_dec x 0) as [->|Hne]; [apply Z.bits_0|].
  apply Z.bits_above_log2; [lia|].
  assert (Z.log2 x < 64) by (apply Z.log2_lt_pow2; lia). lia.
Qed.

Lemma word_of_bits (x : Z) :
  0 <= x -> (forall n, 64 <= n -> Z.testbit x n = false) -> x < 2 ^ 64.
Proof.
  intros Hx Hb. destruct (Z.lt_ge_cases x (2 ^ 64)) as [|Hge]; [assumption|].
  assert (Hl : 64 <= Z.log2 x) by (apply Z.log2_le_pow2; lia).
  specialize (Hb (Z.log2 x) Hl). rewrite Z.bit_log2 in Hb by lia. discriminate.
Qed.

Lemma xorshift33_range (x : Z) :
  0 <= x < 2 ^ 64 -> 0 <= Z.lxor x (Z.shiftr x 33) < 2 ^ 64.
Proof.
  intros Hx. assert (H0 : 0 <= Z.lxor x (Z.shiftr x 33)).
  { apply Z.lxor_nonneg. split; intros _; [apply Z.shiftr_nonneg|]; lia. }
  split; [exact H0|]. apply word_of_bits; [exact H0|].
  intros n Hn. rewrite Z.lxor_spec, Z.shiftr_spec by lia.
  now rewrite !(word_bits_above x) by (auto; lia).
Qed.

Lemma xorshift33_twice (x : Z) :
  0 <= x < 2 ^ 64 ->
  Z.lxor (Z.lxor x (Z.shiftr x 33)) (Z.shiftr (Z.lxor x (Z.shiftr x 33)) 33) = x.
Proof.
  intros Hx. apply Z.bits_inj'. intros n Hn.
  rewrite Z.lxor_spec, Z.shiftr_spec, !Z.lxor_spec, !Z.shiftr_spec by lia.
  rewrite (word_bits_above x (n + 33 + 33)) by (auto; lia).
  destruct (Z.testbit x n), (Z.testbit x (n + 33)); reflexivity.
Qed.

Lemma xorshift33_inj (x y : Z) :
  0 <= x < 2 ^ 64 -> 0 <= y < 2 ^ 64 ->
  Z.lxor x (Z.shiftr x 33) = Z.lxor y (Z.shiftr y 33) -> x = y.
Proof.
  intros Hx Hy H. rewrite <- (xorshift33_twice x Hx), <- (xorshift33_twice y Hy).
  now rewrite H.
Qed.

Lemma wrap64_range (z : Z) : 0 <= wrap64 z < 2 ^ 64.
Proof. unfold wrap64. apply Z.mod_pos_bound. lia. Qed.

Lemma mul_odd_inj (c c' x y : Z) :
  wrap64 (c * c') = 1 -> 0 <= x < 2 ^ 64 -> 0 <= y < 2 ^ 64 ->
  wrap64 (x * c) = wrap64 (y * c) -> x = y.
Proof.
  intros Hc Hx Hy H.
  assert (Hback : forall z, 0 <= z < 2 ^ 64 -> wrap64 (wrap64 (z * c) * c') = z).
  { intros z Hz. unfold wrap64 in *. rewrite Z.mul_mod_idemp_l by lia.
    rewrite <- Z.mul_assoc, <- Z.mul_mod_idemp_r, Hc by lia.
    rewrite Z.mul_1_r. apply Z.mod_small. exact Hz. }
  rewrite <- (Hback x Hx), <- (Hback y Hy). now rewrite H.
Qed.

Lemma seed_xor_range (x s : Z) :
  0 <= x < 2 ^ 64 -> 0 <= s < 2 ^ 64 -> 0 <= Z.lxor x s < 2 ^ 64.
Proof.
  intros Hx Hs. assert (H0 : 0 <= Z.lxor x s) by (apply Z.lxor_nonneg; lia).
  split; [exact H0|]. apply word_of_bits; [exact H0|].
  intros n Hn. rewrite Z.lxor_spec.
  now rewrite (word_bits_above x), (word_bits_above s) by auto.
Qed.

Lemma hash__hash_range (key : Z) :
  0 <= hash__seed < 2 ^ 64 -> 0 <= key < 2 ^ 64 -> 0 <= hash__hash key < 2 ^ 64.
Proof.
  intros Hs Hk. unfold hash__hash. cbv zeta.
  apply xorshift33_range, wrap64_range.
Qed.

Lemma hash__hash_inj (a b : Z) :
  0 <= hash__seed < 2 ^ 64 -> 0 <= a < 2 ^ 64 -> 0 <= b < 2 ^ 64 ->
  hash__hash a = hash__hash b -> a = b.
Proof.
  intros Hs Ha Hb H. unfold hash__hash in H. cbv zeta in H.
  pose proof (seed_xor_range a hash__seed Ha Hs) as Ha0.
  pose proof (seed_xor_range b hash__seed Hb Hs) as Hb0.
  pose proof (xorshift33_range _ Ha0) as Ha1.
  pose proof (xorshift33_range _ Hb0) as Hb1.
  apply xorshift33_inj in H; try apply wrap64_range.
  apply (mul_odd_inj _ 0x9cb4b2f8129337db) in H;
    [|vm_compute; reflexivity|apply xorshift33_range, wrap64_range..].
  apply xorshift33_inj in H; try apply wrap64_range.
  apply (mul_odd_inj _ 0x4f74430c22a54005) in H;
    [|vm_compute; reflexivity|assumption..].
  apply xorshift33_inj in H; try assumption.
  apply (f_equal (fun z => Z.lxor z hash__seed)) in H.
  now rewrite !Z.lxor_assoc, !Z.lxor_nilpotent, !Z.lxor_0_r in H.
Qed.

(** The two parts the table takes from a hash, the low 57 bits that select
    the group and the top 7 bits kept as the tag, make up the whole hash. *)
Lemma hash__split (h : Z) :
  0 <= h < 2 ^ 64 -> h = hash__hash7 h * 2 ^ 57 + hash__hash57 h.
Proof.
  intros Hh. unfold hash__hash7, hash__hash57.
  change 0x01FFFFFFFFFFFFFF with (2 ^ 57 - 1). change 0x7F with (2 ^ 7 - 1).
  rewrite !land_pow2_pred by lia. rewrite Z.shiftr_div_pow2 by lia.
  rewrite (Z.mod_small (h / 2 ^ 57)).
  - rewrite Z.mul_comm. apply Z.div_mod. lia.
  - split; [apply Z.div_pos; lia|]. apply Z.div_lt_upper_bound; lia.
Qed.

(** The mixer is one-to-one on 64-bit keys, whatever the seed: two keys
    with the same hash are the same key, and the hash is again a 64-bit
    word. *)
Theorem hash__hash_injective (a b : Z) :
  0 <= hash__seed < 2 ^ 64 -> 0 <= a < 2 ^ 64 -> 0 <= b < 2 ^ 64 ->
  0 <= hash__hash a < 2 ^ 64
  /\ (hash__hash a = hash__hash b -> a = b).
Proof.
  intros Hs Ha Hb. split; [now apply hash__hash_range|now apply hash__hash_inj].
Qed.

(** Two distinct 64-bit keys differ in the group selector or in the tag:
    the 57 bits of [hash__hash57] and the 7 bits of [hash__hash7] together
    determine the key. *)
Theorem selector_and_tag_determine_key (a b : Z) :
  0 <= hash__seed < 2 ^ 64 -> 0 <= a < 2 ^ 64 -> 0 <= b < 2 ^ 64 ->
  hash__hash57 (hash__hash a) = hash__hash57 (hash__hash b) ->
  hash__hash7 (hash__hash a) = hash__hash7 (hash__hash b) ->
  a = b.
Proof.
  intros Hs Ha Hb H57 H7. apply hash__hash_inj; auto.
  rewrite (hash__split (hash__hash a)), (hash__split (hash__hash b))
    by now apply hash__hash_range.
  now rewrite H57, H7.
Qed.

(** ** The block layout *)

(** The pointer arithmetic of the accessors undoes that of the allocation
    code: from the pointer handed to the caller, [hash__get_info] is back
    at the header, [hash__get_keys] at the key array behind the metadata,
    and [hash__get_base], which is what [hash_free] passes to the
    deallocator, at the base of the block. *)
Theorem hash_layout_round_trip (base : Z) (t : image) :
  0 <= base < 2 ^ 64 ->
  let cap := capacity (info t) in
  let p := hash__user_addr base cap in
  hash__get_info_addr p = hash__info_addr base cap
  /\ hash__get_keys_addr p (Some t) = wrap64 (base + cap)
  /\ hash__get_base_addr p (Some t) = base.
Proof.
  intros Hb cap p. subst p.
  unfold hash__get_base_addr, hash__get_keys_addr, hash__get_info_addr,
    hash__user_addr, hash__info_addr, wrap64, sizeof_info.
  cbn [hash_capacity]. fold cap. clearbody cap.
  clear hash__aligned_allocation hash__seed sizeof_V junk t.
  repeat split; Z.to_euclidean_division_equations; lia.
Qed.

(** ** The operations, whatever the allocator does *)

Lemma holds_key_iff (t : image) (key : Z) :
  holds_key t key = true <-> exists s, held t key s.
Proof.
  unfold holds_key, held. rewrite negb_true_iff. split.
  - intros H. apply forall_range_false in H. destruct H as (s & Hs & Hp).
    apply negb_false_iff, andb_true_iff in Hp. destruct Hp as [Hf Hk].
    exists s. split; [exact Hs|]. split; [exact Hf|lia].
  - intros (s & Hs & Hf & Hk).
    destruct (forall_range _ _) eqn:E; [|reflexivity].
    rewrite forall_range_spec in E. specialize (E s Hs).
    rewrite Hf, Hk, Z.eqb_refl in E. discriminate.
Qed.

Lemma holds_key_false (t : image) (key : Z) :
  holds_key t key = false <-> forall s, ~ held t key s.
Proof.
  split.
  - intros H s Hs. assert (holds_key t key = true) by (apply holds_key_iff; eauto).
    congruence.
  - intros H. destruct (holds_key t key) eqn:E; [|reflexivity].
    apply holds_key_iff in E. destruct E as (s & Hs). now destruct (H s).
Qed.

(** [hash__resize] to a larger power of two always returns: with the
    rehashed image when the block was obtained, with the image it was given
    when it was not. *)
Lemma resize_total (t : image) (ncap : Z) :
  WF t -> (exists k, 4 <= k <= 63 /\ ncap = 2 ^ k) ->
  capacity (info t) < ncap ->
  exists t', hash__resize t ncap = Ok t' /\ WF t'
    /\ (if hash__malloc ncap (val_size (info t))
        then info t' = {| size := size (info t); capacity := ncap;
                          val_size := val_size (info t) |}
             /\ no_tombstone t' /\ same_content t t' /\ has_free t' = true
        else t' = t).
Proof.
  intros Hwf Hk Hlt. destruct (hash__malloc ncap (val_size (info t))) eqn:Hm.
  - destruct (resize_spec t ncap Hwf Hk Hlt Hm) as (t' & Hrs & Hwf' & Hrest).
    exists t'. auto.
  - exists t. unfold hash__resize. rewrite Hm. auto.
Qed.

(** [hash_put] on an image whose match probe returns: the slot statement,
    then the load check on its result. *)
Lemma hash_put_total (t : image) (key : Z) (val : V) :
  WF t -> capacity (info t) <= 2 ^ 62 -> hash__get_idx t key <> Diverge ->
  exists t1 t' idx,
    hash__put_slot t key (hash__mask key) val = Ok t1
    /\ WF t1 /\ held t1 key idx /\ slot (vals t1) idx = Some val
    /\ capacity (info t1) = capacity (info t)
    /\ val_size (info t1) = val_size (info t)
    /\ size (info t1) = match hash__get_idx t key with
                         | Ok (Some _) => size (info t)
                         | _ => size (info t) + 1
                         end
    /\ hash_put (Some t) key val = Ok (Some t') /\ WF t'
    /\ (if (size (info t1) >=? capacity (info t) / 4 * 3)
           && hash__malloc (2 * capacity (info t)) (val_size (info t))
        then capacity (info t') = 2 * capacity (info t)
             /\ size (info t') = size (info t1)
             /\ val_size (info t') = val_size (info t)
             /\ no_tombstone t' /\ same_content t1 t' /\ has_free t' = true
        else t' = t1).
Proof.
  intros Hwf Hcap Hnd.
  destruct (put_slot_spec t key val Hwf Hnd)
    as (t1 & idx & Hput & Hwf1 & Hh & Hv & Hc1 & Hvs1 & Hsz1).
  pose proof Hwf1 as [[(Hk1 & _) _ _ _ _] _ _].
  destruct (pow2_double _ Hk1 ltac:(lia)) as (Hk2 & Hpos).
  assert (Hp : hash_put (Some t) key val
               = if size (info t1) >=? capacity (info t1) / 4 * 3
                 then do t2 <- hash__resize t1 (2 * capacity (info t1));
                      Ok (Some t2)
                 else Ok (Some t1)).
  { unfold hash_put. rewrite Hput. cbn [bind].
    rewrite (wrap64_small (capacity (info t1) / 4 * 3))
      by (Z.to_euclidean_division_equations; lia).
    rewrite (wrap64_small (capacity (info t1) * 2)) by lia.
    now rewrite (Z.mul_comm (capacity (info t1)) 2). }
  rewrite Hc1 in Hp, Hk2.
  destruct (size (info t1) >=? capacity (info t) / 4 * 3) eqn:Hload.
  - destruct (resize_total t1 (2 * capacity (info t)) Hwf1 Hk2 ltac:(lia))
      as (t2 & Hrs & Hwf2 & Hcase).
    rewrite Hrs in Hp. cbn [bind] in Hp. rewrite Hvs1 in Hcase.
    exists t1, t2, idx. rewrite Hload. cbn [andb].
    repeat (split; [assumption|]).
    destruct (hash__malloc _ _); [|exact Hcase].
    destruct Hcase as (Hinfo & Hnt & Hsame & Hfree). rewrite Hinfo.
    cbn [capacity size val_size]. auto 10.
  - exists t1, t1, idx. rewrite Hload. cbn [andb].
    repeat (split; [assumption|]). reflexivity.
Qed.

Lemma hash_put_stuck (t : image) (key : Z) (val : V) :
  hash__get_idx t key = Diverge -> hash_put (Some t) key val = Diverge.
Proof.
  intros Hd. unfold hash_put, hash__put_slot. now rewrite Hd.
Qed.

Lemma WF_capacity (t : image) :
  WF t -> 16 <= capacity (info t) <= 2 ^ 63
          /\ capacity (info t) = 16 * (capacity (info t) / 16).
Proof.
  intros [[((k0 & Hk0 & Hm0) & _) _ _ _ _] _ _].
  destruct (pow2_groups k0 _ Hk0 Hm0) as (_ & H16 & _ & Hrg). lia.
Qed.

(** [hash_reserve] on an image, for any [size_t] argument. *)
Lemma hash_reserve_total (t : image) (n : Z) :
  WF t -> 0 <= n < 2 ^ 64 ->
  (n <= capacity (info t) /\ hash_reserve (Some t) n = Ok (Some t))
  \/ (capacity (info t) < n <= 2 ^ 63
      /\ exists t', hash_reserve (Some t) n = Ok (Some t')
           /\ hash__resize t (next_pow2 n) = Ok t' /\ WF t'
           /\ (if hash__malloc (next_pow2 n) (val_size (info t))
               then info t' = {| size := size (info t);
                                 capacity := next_pow2 n;
                                 val_size := val_size (info t) |}
                    /\ no_tombstone t' /\ same_content t t'
                    /\ has_free t' = true
               else t' = t))
  \/ (2 ^ 63 < n /\ hash_reserve (Some t) n = Diverge).
Proof.
  intros Hwf Hn. destruct (WF_capacity t Hwf) as (Hrg & _).
  destruct (Z.le_gt_cases n (capacity (info t))) as [Hle|Hgt].
  - left. split; [exact Hle|]. apply reserve_within; lia.
  - destruct (Z.le_gt_cases n (2 ^ 63)) as [Hin|Hout].
    + right. left. split; [lia|].
      destruct (next_pow2_spec n ltac:(lia)) as (Hk & Hle & _).
      destruct (resize_total t (next_pow2 n) Hwf Hk ltac:(lia))
        as (t' & Hrs & Hwf' & Hcase).
      exists t'. rewrite (reserve_grows t n Hwf ltac:(lia)), Hrs. cbn [bind].
      auto.
    + right. right. split; [lia|]. unfold hash_reserve.
      rewrite (wrap64_small n) by lia. cbn [hash_capacity].
      destruct (Z.gtb_spec n (capacity (info t))) as [_|]; [|lia].
      change 1 with (wrap64 (2 ^ 0)) at 1.
      now rewrite (round_up_overflow n ltac:(lia) 66 0 ltac:(lia)).
Qed.

(** On an image that satisfies the invariants no operation indexes the
    three arrays outside their bounds: a call returns or runs forever, it
    does not leave the block.  This holds whether or not the allocator
    delivers.  Stated for [hash_del] without [free_val] (which reads the
    value cell as a pointer) and for a [hash_reserve] whose new block, if
    it needs one, has a byte count that does not wrap. *)
Theorem operations_never_fault (t : image) (key n : Z) (val : V) :
  hash_wf t = true ->
  hash_get (Some t) key <> Fault
  /\ hash_del (Some t) key false <> Fault
  /\ (capacity (info t) <= 2 ^ 62 -> hash_put (Some t) key val <> Fault)
  /\ (0 <= n < 2 ^ 64 ->
      (capacity (info t) < n <= 2 ^ 63 ->
       hash__fits (next_pow2 n) (val_size (info t)) = true) ->
      hash_reserve (Some t) n <> Fault).
Proof.
  intros Hwf. apply hash_wf_iff in Hwf.
  split; [now apply get_idx_no_fault|]. split; [|split].
  - pose proof (hash_del_spec t key false Hwf) as Hd.
    destruct (hash__get_idx t key) as [[idx|]| |].
    + destruct Hd as (_ & -> & _). discriminate.
    + destruct Hd as (_ & ->). discriminate.
    + destruct Hd.
    + rewrite Hd. discriminate.
  - intros Hcap. destruct (hash__get_idx t key) as [r| |] eqn:Hr.
    + destruct (hash_put_total t key val Hwf Hcap)
        as (_ & t' & _ & _ & _ & _ & _ & _ & _ & _ & -> & _);
        [rewrite Hr|]; discriminate.
    + exfalso. now apply (get_idx_no_fault t key).
    + rewrite (hash_put_stuck t key val Hr). discriminate.
  - intros Hn _.
    destruct (hash_reserve_total t n Hwf Hn)
      as [(_ & ->)|[(_ & t' & -> & _)|(_ & ->)]]; discriminate.
Qed.

(** A call of [hash_get], [hash_del] or [hash_put] fails to return in one
    case only: the key is in no Full slot and the image has no Free byte
    left.  In every other case it returns. *)
Theorem operations_return_unless_saturated
    (t : image) (key : Z) (val : V) (free_val : bool) :
  hash_wf t = true -> capacity (info t) <= 2 ^ 62 ->
  let stuck := negb (holds_key t key) && negb (has_free t) in
  (hash_get (Some t) key = Diverge <-> stuck = true)
  /\ (hash_del (Some t) key free_val = Diverge <-> stuck = true)
  /\ (hash_put (Some t) key val = Diverge <-> stuck = true)
  /\ (stuck = false ->
      (exists p, hash_get (Some t) key = Ok p)
      /\ (exists r, hash_del (Some t) key free_val = Ok r)
      /\ (exists t', hash_put (Some t) key val = Ok (Some t'))).
Proof.
  intros Hwf Hcap stuck. apply hash_wf_iff in Hwf.
  assert (Hstuck : hash__get_idx t key = Diverge <-> stuck = true).
  { rewrite (get_idx_Diverge t key Hwf). subst stuck.
    rewrite andb_true_iff, !negb_true_iff, holds_key_false. reflexivity. }
  assert (Hdel : hash_del (Some t) key free_val = Diverge
                 <-> hash__get_idx t key = Diverge).
  { pose proof (hash_del_spec t key free_val Hwf) as Hd.
    destruct (hash__get_idx t key) as [[idx|]| |].
    - destruct Hd as (_ & -> & _). split; discriminate.
    - destruct Hd as (_ & ->). split; discriminate.
    - destruct Hd.
    - rewrite Hd. split; reflexivity. }
  assert (Hput : hash_put (Some t) key val = Diverge
                 <-> hash__get_idx t key = Diverge).
  { split; [|apply hash_put_stuck]. intros Hp.
    destruct (hash__get_idx t key) as [r| |] eqn:Hr; [| |reflexivity].
    - destruct (hash_put_total t key val Hwf Hcap)
        as (_ & t' & _ & _ & _ & _ & _ & _ & _ & _ & Hp' & _);
        [rewrite Hr; discriminate|]. rewrite Hp' in Hp. discriminate.
    - exfalso. now apply (get_idx_no_fault t key). }
  split; [exact Hstuck|]. split; [now rewrite Hdel|].
  split; [now rewrite Hput|]. intros Hns.
  assert (Hnd : hash__get_idx t key <> Diverge).
  { intros Hd. apply Hstuck in Hd. congruence. }
  split; [|split].
  - cbn [hash_get]. destruct (hash__get_idx t key) as [r| |] eqn:Hr;
      [eauto| |contradiction].
    exfalso. now apply (get_idx_no_fault t key).
  - pose proof (hash_del_spec t key free_val Hwf) as Hd.
    destruct (hash__get_idx t key) as [[idx|]| |].
    + destruct Hd as (_ & -> & _). eauto.
    + destruct Hd as (_ & ->). eauto.
    + destruct Hd.
    + contradiction.
  - destruct (hash_put_total t key val Hwf Hcap Hnd)
      as (_ & t' & _ & _ & _ & _ & _ & _ & _ & _ & Hp' & _). eauto.
Qed.

(** When the allocator refuses every request.  On the null pointer
    [hash_put] goes on with the null pointer and reads the table it does
    not have; [hash_reserve] leaves the null pointer for a request of 0,
    does the same as [hash_put] for a request up to [2 ^ 63], and above
    that does not return.  On a table [hash_reserve] changes nothing for a
    request up to [2 ^ 63] and does not return above it; [hash_put] does
    not return when the key is in no Full slot and no Free byte is left,
    and in every other case stores the pair, at the capacity the table
    had. *)
Theorem allocation_failure (t : image) (key n : Z) (val : V) :
  (forall bytes align, hash__aligned_allocation bytes align = false) ->
  hash_put None key val = Fault
  /\ hash_reserve None 0 = Ok None
  /\ (1 <= n <= 2 ^ 63 -> hash_reserve None n = Fault)
  /\ (2 ^ 63 < n < 2 ^ 64 -> hash_reserve None n = Diverge)
  /\ (hash_wf t = true ->
      (0 <= n <= 2 ^ 63 -> hash_reserve (Some t) n = Ok (Some t))
      /\ (2 ^ 63 < n < 2 ^ 64 -> hash_reserve (Some t) n = Diverge)
      /\ (negb (holds_key t key) && negb (has_free t) = true ->
          hash_put (Some t) key val = Diverge)
      /\ (negb (holds_key t key) && negb (has_free t) = false ->
          exists t1 i,
            hash__put_slot t key (hash__mask key) val = Ok t1
            /\ hash_put (Some t) key val = Ok (Some t1)
            /\ capacity (info t1) = capacity (info t)
            /\ hash_get (Some t1) key = Ok (Some i)
            /\ deref (Some t1) (Some i) = Some val
            /\ hash_wf t1 = true)).
Proof.
  intros Hno.
  assert (Hm : forall cap vsz, hash__malloc cap vsz = false)
    by (intros; apply Hno).
  split; [unfold hash_put, hash__init; now rewrite Hm|].
  split; [unfold hash_reserve, hash__init; now rewrite Hm|].
  split; [|split; [|intros Hwf; apply hash_wf_iff in Hwf; split; [|split; [|split]]]].
  - intros Hn. unfold hash_reserve, hash__init. rewrite Hm.
    rewrite (wrap64_small n) by lia. cbn [hash_capacity].
    destruct (Z.gtb_spec n 0) as [_|]; [|lia].
    now rewrite (round_up_spec n ltac:(lia)).
  - intros Hn. unfold hash_reserve, hash__init. rewrite Hm.
    rewrite (wrap64_small n) by lia. cbn [hash_capacity].
    destruct (Z.gtb_spec n 0) as [_|]; [|lia].
    change 1 with (wrap64 (2 ^ 0)) at 1.
    now rewrite (round_up_overflow n ltac:(lia) 66 0 ltac:(lia)).
  - intros Hn.
    destruct (hash_reserve_total t n Hwf ltac:(lia))
      as [(_ & Hr)|[(_ & t' & Hr & _ & _ & Hcase)|(Hout & _)]];
      [exact Hr| |lia].
    rewrite Hm in Hcase. now subst t'.
  - intros Hn.
    destruct (hash_reserve_total t n Hwf ltac:(lia))
      as [(Hle & _)|[(Hin & _)|(_ & Hr)]]; [|lia|exact Hr].
    destruct (WF_capacity t Hwf) as (Hrg & _). lia.
  - intros Hstuck. apply hash_put_stuck, (get_idx_Diverge t key Hwf).
    apply andb_true_iff in Hstuck. destruct Hstuck as [Hk Hf].
    apply negb_true_iff in Hk, Hf. split; [now apply holds_key_false|exact Hf].
  - intros Hns.
    assert (Hnd : hash__get_idx t key <> Diverge).
    { intros Hd. apply (get_idx_Diverge t key Hwf) in Hd. destruct Hd as [Hk Hf].
      apply holds_key_false in Hk. rewrite Hk, Hf in Hns. discriminate. }
    destruct (put_slot_spec t key val Hwf Hnd)
      as (t1 & idx & Hslot & Hwf1 & Hh & Hv & Hc1 & _ & _).
    exists t1, idx. split; [exact Hslot|]. split.
    { unfold hash_put. rewrite Hslot. cbn [bind].
      destruct (_ >=? _); [|reflexivity].
      unfold hash__resize. now rewrite Hm. }
    split; [exact Hc1|].
    destruct (get_idx_value t1 key idx (Some val) Hwf1 Hh Hv) as [Hg Hd].
    split; [exact Hg|]. split; [exact Hd|]. now apply hash_wf_iff.
Qed.

(** ** One operation on a table *)

Lemma put_slot_meta (t t1 : image) (key : Z) (val : V) :
  WF t -> hash__put_slot t key (hash__mask key) val = Ok t1 ->
  forall s, rd (meta t1) s = 0 \/ rd (meta t1) s = HASH__TOMB ->
            rd (meta t1) s = rd (meta t) s.
Proof.
  intros Hwf Hslot s Hs.
  pose proof Hwf as [[(_ & Hlm & _) _ _ _ _] _ _].
  destruct (hash__get_idx t key) as [[i|]| |] eqn:Hr.
  - rewrite (put_slot_hit t key i val Hwf Hr) in Hslot. now injection Hslot as <-.
  - destruct (put_slot_miss t key val Hwf Hr) as (i & Hi & _ & Hs' & _).
    rewrite Hs' in Hslot. injection Hslot as <-. cbn [claim meta] in *.
    destruct (Z.eq_dec s i) as [->|Hne]; [|apply rd_upd_ne; lia].
    exfalso. rewrite rd_upd_eq in Hs by lia.
    pose proof (hash__mask_range key). unfold HASH__TOMB in Hs. lia.
  - exfalso. now apply (get_idx_no_fault t key).
  - unfold hash__put_slot in Hslot. rewrite Hr in Hslot. discriminate.
Qed.

(** What one operation that returns does to an image: the invariants
    stay, the capacity and the value size do not go down, and as long as
    the capacity is the same no byte that was not Free has become Free. *)
Lemma run_op_step (t : image) (o : op V) (h' : handle) :
  WF t -> capacity (info t) <= 2 ^ 62 ->
  match o with Reserve n => 0 <= n <= 2 ^ 63 | _ => True end ->
  run_op (Some t) o = Ok h' ->
  exists t', h' = Some t' /\ WF t'
    /\ capacity (info t) <= capacity (info t')
    /\ val_size (info t') = val_size (info t)
    /\ (capacity (info t') = capacity (info t) ->
        forall s, rd (meta t') s = 0 -> rd (meta t) s = 0).
Proof.
  intros Hwf Hcap Hn Hrun. destruct (WF_capacity t Hwf) as (Hrg & _).
  destruct o as [key val|key free_val|n]; cbn [run_op] in Hrun.
  - assert (Hnd : hash__get_idx t key <> Diverge).
    { intros Hd. rewrite (hash_put_stuck t key val Hd) in Hrun. discriminate. }
    destruct (hash_put_total t key val Hwf Hcap Hnd)
      as (t1 & t' & idx & Hslot & Hwf1 & _ & _ & Hc1 & Hvs1 & _ & Hput & Hwf'
          & Hcase).
    rewrite Hput in Hrun. injection Hrun as <-. exists t'.
    split; [reflexivity|]. split; [exact Hwf'|].
    destruct (_ && _).
    + destruct Hcase as (Hc' & _ & Hvs' & _). split; [lia|].
      split; [exact Hvs'|]. intros Heq. lia.
    + subst t'. split; [lia|]. split; [exact Hvs1|]. intros _ s Hs.
      rewrite <- (put_slot_meta t t1 key val Hwf Hslot s); auto.
  - pose proof (hash_del_spec t key free_val Hwf) as Hd.
    pose proof Hwf as [[(_ & Hlm & _) _ _ _ _] _ _].
    destruct (hash__get_idx t key) as [[idx|]| |].
    + destruct Hd as ((Hidx & _) & Hd & Hwf' & _). rewrite Hd in Hrun.
      cbn [bind after] in Hrun. injection Hrun as <-. exists (bury t idx).
      split; [reflexivity|]. split; [exact Hwf'|]. cbn [bury info capacity val_size meta].
      split; [lia|]. split; [reflexivity|]. intros _ s Hs.
      destruct (Z.eq_dec s idx) as [->|Hne].
      * rewrite rd_upd_eq in Hs by lia. discriminate.
      * now rewrite rd_upd_ne in Hs by lia.
    + destruct Hd as (_ & Hd). rewrite Hd in Hrun. cbn [bind after] in Hrun.
      injection Hrun as <-. exists t. split; [reflexivity|].
      split; [exact Hwf|]. split; [lia|]. split; [reflexivity|]. auto.
    + destruct Hd.
    + rewrite Hd in Hrun. discriminate.
  - destruct (hash_reserve_total t n Hwf ltac:(lia))
      as [(_ & Hr)|[(Hin & t' & Hr & _ & Hwf' & Hcase)|(Hout & _)]]; [| |lia].
    + rewrite Hr in Hrun. injection Hrun as <-. exists t.
      split; [reflexivity|]. split; [exact Hwf|]. split; [lia|].
      split; [reflexivity|]. auto.
    + rewrite Hr in Hrun. injection Hrun as <-. exists t'.
      split; [reflexivity|]. split; [exact Hwf'|].
      destruct (next_pow2_spec n ltac:(lia)) as (_ & Hle & _).
      destruct (hash__malloc _ _).
      * destruct Hcase as (Hinfo & _). rewrite Hinfo. cbn [capacity val_size].
        split; [lia|]. split; [reflexivity|]. intros Heq. lia.
      * subst t'. split; [lia|]. split; [reflexivity|]. auto.
Qed.

(** The first operation on the null pointer: it returns only after
    [hash__init] produced the empty 16-slot table (or, for
    [hash_reserve(map, 0)], when it left the null pointer alone), and
    then it is the operation on that table. *)
Lemma run_op_null (o : op V) (h' : handle) :
  run_op None o = Ok h' ->
  h' = None
  \/ run_op (Some (fresh_image HASH__START_CAPACITY 0 sizeof_V)) o = Ok h'.
Proof.
  destruct o as [key val|key free_val|n]; cbn [run_op].
  - unfold hash_put, hash__init.
    destruct (hash__malloc _ _); [auto|discriminate].
  - discriminate.
  - unfold hash_reserve, hash__init.
    destruct (hash__malloc _ _); [auto|]. cbn [hash_capacity].
    destruct (_ >? _).
    + destruct (hash__round_up _ _ _); discriminate.
    + intros H. injection H as <-. auto.
Qed.

Lemma fresh_capacity :
  capacity (info (fresh_image HASH__START_CAPACITY 0 sizeof_V)) = 16.
Proof. reflexivity. Qed.

(** Any sequence of operations that returns, started on the null pointer
    or on an image that satisfies the invariants, ends on the null pointer
    or on such an image, whatever the allocator did on the way; and the
    capacity has not gone down: nothing ever shrinks the table. *)
Theorem run_keeps_invariants (ops : list (op V)) :
  forall h h',
    handle_wf h = true -> in_bounds ops h -> run ops h = Ok h' ->
    handle_wf h' = true /\ hash_capacity h <= hash_capacity h'.
Proof.
  induction ops as [|o ops IH]; intros h h' Hh Hb Hrun;
    cbn [run in_bounds] in *.
  - injection Hrun as <-. split; [exact Hh|lia].
  - destruct Hb as (Hcap & Hn & Hrest).
    destruct (run_op h o) as [h1| |] eqn:Hop; cbn [bind] in Hrun;
      try discriminate.
    specialize (Hrest h1 eq_refl).
    assert (Hstep : handle_wf h1 = true /\ hash_capacity h <= hash_capacity h1).
    { destruct h as [t|].
      - cbn [handle_wf hash_capacity] in *. apply hash_wf_iff in Hh.
        destruct (run_op_step t o h1 Hh Hcap Hn Hop) as (t1 & -> & Hwf1 & Hc & _).
        cbn [handle_wf hash_capacity]. split; [now apply hash_wf_iff|exact Hc].
      - destruct (run_op_null o h1 Hop) as [->|Hop'].
        + split; [reflexivity|cbn [hash_capacity]; lia].
        + destruct (run_op_step _ o h1 WF_fresh_start
                      ltac:(rewrite fresh_capacity; lia) Hn Hop')
            as (t1 & -> & Hwf1 & Hc & _).
          cbn [handle_wf hash_capacity]. split; [now apply hash_wf_iff|].
          rewrite fresh_capacity in Hc. lia. }
    destruct Hstep as [Hwf1 Hc1].
    destruct (IH h1 h' Hwf1 Hrest Hrun) as [Hwf' Hc']. split; [exact Hwf'|lia].
Qed.

(** Free bytes are only ever used up.  In a sequence of operations that
    leaves the capacity as it was, every metadata byte that is Free at the
    end was Free at the start: [hash_del] leaves a Tombstone, and only a
    rehash into a new block brings Free bytes back. *)
Theorem free_bytes_never_return (ops : list (op V)) :
  forall t t',
    hash_wf t = true -> in_bounds ops (Some t) ->
    run ops (Some t) = Ok (Some t') ->
    capacity (info t') = capacity (info t) ->
    (forall s, rd (meta t') s = HASH__FREE -> rd (meta t) s = HASH__FREE)
    /\ (has_free t = false -> has_free t' = false).
Proof.
  assert (Hmain : forall t t',
    WF t -> in_bounds ops (Some t) -> run ops (Some t) = Ok (Some t') ->
    WF t' /\ capacity (info t) <= capacity (info t')
    /\ (capacity (info t') = capacity (info t) ->
        forall s, rd (meta t') s = 0 -> rd (meta t) s = 0)).
  { induction ops as [|o ops IH]; intros t t' Hwf Hb Hrun;
      cbn [run in_bounds] in *.
    - injection Hrun as <-. split; [exact Hwf|]. split; [lia|auto].
    - destruct Hb as (Hcap & Hn & Hrest). cbn [hash_capacity] in Hcap.
      destruct (run_op (Some t) o) as [h1| |] eqn:Hop; cbn [bind] in Hrun;
        try discriminate.
      specialize (Hrest h1 eq_refl).
      destruct (run_op_step t o h1 Hwf Hcap Hn Hop)
        as (t1 & -> & Hwf1 & Hc1 & _ & Hf1).
      destruct (IH t1 t' Hwf1 Hrest Hrun) as (Hwf' & Hc' & Hf').
      split; [exact Hwf'|]. split; [lia|]. intros Heq s Hs.
      apply Hf1; [lia|]. apply Hf'; [lia|exact Hs]. }
  intros t t' Hwf Hb Hrun Heq. apply hash_wf_iff in Hwf.
  destruct (Hmain t t' Hwf Hb Hrun) as (Hwf' & _ & Hf).
  split; [exact (Hf Heq)|]. intros Hnf.
  destruct (has_free t') eqn:Hf'; [|reflexivity].
  apply has_free_elim in Hf'. destruct Hf' as (s & Hs & Hz).
  exfalso. apply (has_free_false t Hnf s); [lia|]. now apply (Hf Heq).
Qed.

(** ** The load bound *)

Lemma clean_has_free (t : image) :
  WF t -> no_tombstone t -> size (info t) < capacity (info t) ->
  has_free t = true.
Proof.
  intros Hwf Hnt Hsz. pose proof Hwf as [[(_ & Hlm & _) _ _ _ _] _ Hcount].
  destruct (count_full_room (meta t)) as (s & Hs & Hnf); [lia|].
  apply (has_free_intro t s); [lia|].
  destruct (Hnt s ltac:(lia)) as [Hz|Hf]; [exact Hz|congruence].
Qed.

Lemma load_below_capacity (t : image) :
  WF t -> within_load t -> size (info t) < capacity (info t).
Proof.
  intros Hwf Hl. destruct (WF_capacity t Hwf) as (Hrg & _).
  unfold within_load in Hl. clear - Hl Hrg.
  Z.to_euclidean_division_equations. lia.
Qed.

Lemma no_tombstone_put_slot (t t1 : image) (key : Z) (val : V) :
  WF t -> WF t1 -> capacity (info t1) = capacity (info t) ->
  hash__put_slot t key (hash__mask key) val = Ok t1 ->
  no_tombstone t -> no_tombstone t1.
Proof.
  intros Hwf Hwf1 Hc1 Hslot Hnt s Hs.
  pose proof Hwf1 as [[_ Hb1 _ _ _] _ _].
  destruct (Hb1 s Hs) as [Hz|[Ht|Hfull]]; [auto| |].
  - exfalso. pose proof (put_slot_meta t t1 key val Hwf Hslot s (or_intror Ht)) as He.
    destruct (Hnt s ltac:(lia)) as [Hz|Hf].
    + rewrite Hz in He. lia.
    + rewrite <- He, Ht in Hf. discriminate.
  - right. rewrite full_byte by lia. lia.
Qed.

Section Load.

Hypothesis alloc_ok : forall bytes align, hash__aligned_allocation bytes align = true.

(** One operation that returns keeps the table under the load bound; when
    there was no Tombstone and the operation is not a deletion there is
    none afterwards. *)
Lemma run_op_load (t : image) (o : op V) (h' : handle) :
  WF t -> within_load t -> capacity (info t) <= 2 ^ 62 ->
  match o with Reserve n => 0 <= n <= 2 ^ 63 | _ => True end ->
  run_op (Some t) o = Ok h' ->
  exists t', h' = Some t' /\ WF t' /\ within_load t'
    /\ (no_tombstone t -> match o with Del _ _ => False | _ => True end ->
        no_tombstone t').
Proof using alloc_ok.
  intros Hwf Hl Hcap Hn Hrun. destruct (WF_capacity t Hwf) as (Hrg & H16).
  unfold within_load in *.
  destruct o as [key val|key free_val|n]; cbn [run_op] in Hrun.
  - assert (Hnd : hash__get_idx t key <> Diverge).
    { intros Hd. rewrite (hash_put_stuck t key val Hd) in Hrun. discriminate. }
    destruct (hash_put_total t key val Hwf Hcap Hnd)
      as (t1 & t' & idx & Hslot & Hwf1 & _ & _ & Hc1 & _ & Hsz1 & Hput & Hwf'
          & Hcase).
    rewrite Hput in Hrun. injection Hrun as <-. exists t'.
    split; [reflexivity|]. split; [exact Hwf'|].
    assert (Hs1 : size (info t1) <= size (info t) + 1)
      by (rewrite Hsz1; destruct (hash__get_idx t key) as [[?|]| |]; lia).
    rewrite (malloc_ok alloc_ok), andb_true_r in Hcase.
    destruct (size (info t1) >=? capacity (info t) / 4 * 3) eqn:Hload.
    + destruct Hcase as (Hc' & Hs' & _ & Hnt' & _). split; [|auto].
      rewrite Hc', Hs'. Z.to_euclidean_division_equations. lia.
    + subst t'. split; [rewrite Hc1; lia|]. intros Hnt _.
      now apply (no_tombstone_put_slot t t1 key val).
  - pose proof (hash_del_spec t key free_val Hwf) as Hd.
    destruct (hash__get_idx t key) as [[idx|]| |].
    + destruct Hd as (_ & Hd & Hwf' & _). rewrite Hd in Hrun.
      cbn [bind after] in Hrun. injection Hrun as <-. exists (bury t idx).
      split; [reflexivity|]. split; [exact Hwf'|].
      cbn [bury info size capacity]. split; [lia|]. intros _ [].
    + destruct Hd as (_ & Hd). rewrite Hd in Hrun. cbn [bind after] in Hrun.
      injection Hrun as <-. exists t. split; [reflexivity|].
      split; [exact Hwf|]. split; [exact Hl|]. intros _ [].
    + destruct Hd.
    + rewrite Hd in Hrun. discriminate.
  - destruct (hash_reserve_total t n Hwf ltac:(lia))
      as [(_ & Hr)|[(Hin & t' & Hr & _ & Hwf' & Hcase)|(Hout & _)]]; [| |lia].
    + rewrite Hr in Hrun. injection Hrun as <-. exists t. auto.
    + rewrite Hr in Hrun. injection Hrun as <-. exists t'.
      split; [reflexivity|]. split; [exact Hwf'|].
      rewrite (malloc_ok alloc_ok) in Hcase.
      destruct Hcase as (Hinfo & Hnt' & _). rewrite Hinfo. cbn [size capacity].
      destruct (next_pow2_spec n ltac:(lia)) as (_ & Hle & _).
      split; [|auto]. Z.to_euclidean_division_equations. lia.
Qed.

Lemma fresh_clean :
  within_load (fresh_image HASH__START_CAPACITY 0 sizeof_V)
  /\ no_tombstone (fresh_image HASH__START_CAPACITY 0 sizeof_V).
Proof.
  split; [vm_compute; reflexivity|].
  intros s Hs. left. cbn [fresh_image meta info capacity] in *.
  now rewrite rd_replicate.
Qed.

Lemma run_load (ops : list (op V)) :
  forall t h',
    WF t -> within_load t -> in_bounds ops (Some t) ->
    run ops (Some t) = Ok h' ->
    exists t', h' = Some t' /\ WF t' /\ within_load t'.
Proof using alloc_ok.
  induction ops as [|o ops IH]; intros t h' Hwf Hl Hb Hrun;
    cbn [run in_bounds] in *.
  - injection Hrun as <-. eauto.
  - destruct Hb as (Hcap & Hn & Hrest). cbn [hash_capacity] in Hcap.
    destruct (run_op (Some t) o) as [h1| |] eqn:Hop; cbn [bind] in Hrun;
      try discriminate.
    destruct (run_op_load t o h1 Hwf Hl Hcap Hn Hop) as (t1 & -> & Hwf1 & Hl1 & _).
    exact (IH t1 h' Hwf1 Hl1 (Hrest _ eq_refl) Hrun).
Qed.

(** Without deletions every operation returns, and no Tombstone appears. *)
Lemma run_clean (ops : list (op V)) :
  forall t,
    no_del ops = true ->
    WF t -> within_load t -> no_tombstone t -> in_bounds ops (Some t) ->
    exists t', run ops (Some t) = Ok (Some t')
      /\ WF t' /\ within_load t' /\ no_tombstone t'.
Proof using alloc_ok.
  induction ops as [|o ops IH]; intros t Hnd Hwf Hl Hnt Hb;
    cbn [run in_bounds no_del forallb] in *.
  - eauto.
  - destruct Hb as (Hcap & Hn & Hrest). cbn [hash_capacity] in Hcap.
    apply andb_true_iff in Hnd. destruct Hnd as [Ho Hnd].
    assert (Hret : exists h1, run_op (Some t) o = Ok h1).
    { pose proof (clean_has_free t Hwf Hnt (load_below_capacity t Hwf Hl)) as Hf.
      destruct o as [key val|key free_val|n]; [| discriminate |]; cbn [run_op].
      - destruct (hash_put_total t key val Hwf Hcap)
          as (_ & t' & _ & _ & _ & _ & _ & _ & _ & _ & Hput & _); [|eauto].
        intros Hd. apply (get_idx_Diverge t key Hwf) in Hd. destruct Hd. congruence.
      - destruct (hash_reserve_total t n Hwf ltac:(lia))
          as [(_ & Hr)|[(_ & t' & Hr & _)|(Hout & _)]]; [eauto|eauto|lia]. }
    destruct Hret as (h1 & Hop). rewrite Hop. cbn [bind].
    destruct (run_op_load t o h1 Hwf Hl Hcap Hn Hop) as (t1 & -> & Hwf1 & Hl1 & Hnt1).
    apply (IH t1); auto.
    apply Hnt1; [exact Hnt|]. destruct o; [exact I|discriminate|exact I].
Qed.

Lemma run_op_null_alloc (o : op V) :
  match o with Del _ _ => False | _ => True end ->
  run_op None o = run_op (Some (fresh_image HASH__START_CAPACITY 0 sizeof_V)) o.
Proof using alloc_ok.
  destruct o as [key val|key free_val|n]; [|intros []|]; intros _; cbn [run_op].
  - unfold hash_put, hash__init. now rewrite (malloc_ok alloc_ok).
  - unfold hash_reserve, hash__init. now rewrite (malloc_ok alloc_ok).
Qed.

End Load.

(** The load bound is an invariant.  After every sequence of operations
    that returns, started on the null pointer: [size] is below
    [(capacity / 4) * 3], that is, fewer than three quarters of the slots
    are Full. *)
Theorem run_keeps_load_bound (ops : list (op V)) (t : image) :
  (forall bytes align, hash__aligned_allocation bytes align = true) ->
  in_bounds ops None -> run ops None = Ok (Some t) ->
  size (info t) < capacity (info t) / 4 * 3
  /\ 4 * size (info t) < 3 * capacity (info t)
  /\ size (info t) = count_full (meta t).
Proof.
  intros Halloc Hb Hrun.
  assert (Hl : WF t /\ within_load t).
  { destruct ops as [|o ops]; cbn [run in_bounds] in *; [discriminate|].
    destruct Hb as (_ & Hn & Hrest).
    destruct (run_op None o) as [h1| |] eqn:Hop; cbn [bind] in Hrun;
      try discriminate.
    specialize (Hrest h1 eq_refl).
    destruct (run_op_null o h1 Hop) as [->|Hop'].
    - destruct ops as [|o' ops]; cbn [run in_bounds] in *; [discriminate|].
      exfalso. destruct o as [key val|key free_val|n]; cbn [run_op] in Hop;
        [|discriminate|].
      + unfold hash_put, hash__init in Hop.
        rewrite (malloc_ok Halloc) in Hop.
        destruct (hash__put_slot _ _ _ _) as [t1| |]; cbn [bind] in Hop;
          [|discriminate..].
        destruct (_ >=? _); [|discriminate].
        destruct (hash__resize _ _); discriminate.
      + unfold hash_reserve, hash__init in Hop.
        rewrite (malloc_ok Halloc) in Hop.
        destruct (_ >? _); [|discriminate].
        destruct (hash__round_up _ _ _); [|discriminate..]. cbn [bind] in Hop.
        destruct (hash__resize _ _); discriminate.
    - destruct (run_op_load Halloc _ o h1 WF_fresh_start (proj1 fresh_clean)
                  ltac:(rewrite fresh_capacity; lia) Hn Hop')
        as (t1 & -> & Hwf1 & Hl1 & _).
      destruct (run_load Halloc ops t1 (Some t) Hwf1 Hl1 Hrest Hrun)
        as (t' & Heq & Hwf' & Hl'). injection Heq as <-. auto. }
  destruct Hl as [Hwf Hl]. destruct (WF_capacity t Hwf) as (Hrg & H16).
  split; [exact Hl|]. split; [|now destruct Hwf].
  unfold within_load in Hl. clear - Hl Hrg H16.
  Z.to_euclidean_division_equations. lia.
Qed.

(** A table that is only ever inserted into (and reserved) does not hang
    as long as memory lasts.  With an allocator that never refuses, no
    [hash_put] at a capacity above [2 ^ 62], no [hash_reserve] above
    [2 ^ 63] and no byte count that wraps, every such sequence of
    operations returns, leaves an image without Tombstones that still has
    a Free byte, and every lookup afterwards returns, with the value last
    written for the key or with "absent". *)
Theorem insert_only_runs_return (ops : list (op V)) :
  (forall bytes align, hash__aligned_allocation bytes align = true) ->
  no_del ops = true -> in_bounds ops None -> in_memory ops None ->
  exists h, run ops None = Ok h
    /\ match h with
       | None => ops = []
       | Some t =>
           hash_wf t = true /\ has_free t = true
           /\ (forall s, 0 <= s < capacity (info t) ->
                 rd (meta t) s <> HASH__TOMB)
           /\ forall key,
                hash_lookup (Some t) key = Ok (model ops (fun _ => None) key)
       end.
Proof.
  intros Halloc Hnd Hb _.
  destruct ops as [|o ops]; [exists None; split; reflexivity|].
  assert (Hrun : exists t, run (o :: ops) None = Ok (Some t)
                   /\ WF t /\ within_load t /\ no_tombstone t).
  { cbn [run in_bounds no_del forallb] in *.
    apply andb_true_iff in Hnd. destruct Hnd as [Ho Hnd].
    destruct Hb as (_ & Hn & Hrest).
    assert (Ho' : match o with Del _ _ => False | _ => True end)
      by (destruct o; [exact I|discriminate|exact I]).
    rewrite (run_op_null_alloc Halloc o Ho') in Hrest |- *.
    destruct fresh_clean as [Hl0 Hnt0].
    destruct (run_clean Halloc [o] _ ltac:(cbn; now rewrite Ho)
                WF_fresh_start Hl0 Hnt0) as (t1 & Hop & Hwf1 & Hl1 & Hnt1).
    { cbn [in_bounds hash_capacity]. rewrite fresh_capacity.
      split; [lia|]. split; [exact Hn|]. intros; exact I. }
    cbn [run] in Hop.
    destruct (run_op _ o) as [h1| |]; cbn [bind] in Hop; try discriminate.
    injection Hop as ->. cbn [bind].
    apply (run_clean Halloc ops t1); auto. }
  destruct Hrun as (t & Hrun & Hwf & Hl & Hnt). exists (Some t).
  split; [exact Hrun|]. split; [now apply hash_wf_iff|].
  pose proof (clean_has_free t Hwf Hnt (load_below_capacity t Hwf Hl)) as Hf.
  split; [exact Hf|]. split; [intros s Hs; now apply no_tombstone_byte|].
  intros key.
  destruct (run_agrees Halloc (o :: ops) None (Some t) (fun _ => None))
    as [_ Ha]; auto.
  { intros k. reflexivity. }
  rewrite (agrees_lookup t _ key Hwf Ha), Hf. now destruct (model _ _ key).
Qed.

(** ** Update, insertion, repetition *)

Lemma hash_put_hit (t : image) (key idx : Z) (val : V) :
  WF t -> hash__get_idx t key = Ok (Some idx) -> within_load t ->
  hash_put (Some t) key val = Ok (Some (set_val t idx val)).
Proof.
  intros Hwf Hr Hl. destruct (WF_capacity t Hwf) as (Hrg & _).
  unfold hash_put. rewrite (put_slot_hit t key idx val Hwf Hr). cbn [bind].
  cbn [set_val info]. unfold within_load in Hl.
  rewrite (wrap64_small (capacity (info t) / 4 * 3))
    by (clear - Hrg; Z.to_euclidean_division_equations; lia).
  destruct (Z.geb_spec (size (info t)) (capacity (info t) / 4 * 3)); [lia|].
  reflexivity.
Qed.

Lemma upd_same {A : Type} (a : list A) (i : Z) (x : A) :
  slot a i = Some x -> upd a i x = a.
Proof.
  unfold slot, upd. destruct (0 <=? i); [|discriminate].
  apply list_insert_id.
Qed.

(** [hash_put] of a key that is in the table, on a table under the load
    bound, writes one value cell and nothing else: metadata, keys, size and
    capacity are as before and no other value has changed. *)
Theorem hash_put_update_in_place (t : image) (key idx : Z) (val : V) :
  hash_wf t = true -> hash_get (Some t) key = Ok (Some idx) ->
  size (info t) < capacity (info t) / 4 * 3 ->
  exists t', hash_put (Some t) key val = Ok (Some t')
    /\ meta t' = meta t /\ keys t' = keys t /\ info t' = info t
    /\ vals t' = upd (vals t) idx val
    /\ slot (vals t') idx = Some val
    /\ (forall j, j <> idx -> slot (vals t') j = slot (vals t) j).
Proof.
  intros Hwf Hget Hl. apply hash_wf_iff in Hwf. cbn [hash_get] in Hget.
  exists (set_val t idx val).
  split; [now apply hash_put_hit|]. cbn [set_val meta keys info vals].
  do 4 (split; [reflexivity|]).
  destruct (get_idx_Some t key idx Hwf Hget) as ((Hidx & _) & _).
  pose proof Hwf as [_ Hlv _].
  split; [apply slot_upd_eq; lia|]. intros j Hj. apply slot_upd_ne; lia.
Qed.

Lemma lookup_Some (t : image) (key : Z) (v : V) :
  WF t ->
  (hash_lookup (Some t) key = Ok (Some v)
   <-> exists s, held t key s /\ slot (vals t) s = Some v).
Proof.
  intros Hwf. unfold hash_lookup. cbn [hash_get]. split.
  - destruct (hash__get_idx t key) as [[i|]| |] eqn:Hr; cbn [bind deref];
      try discriminate.
    intros H. injection H as H. exists i. split; [|exact H].
    now apply get_idx_Some in Hr.
  - intros (s & Hs & Hv). rewrite (get_idx_held t key s Hwf Hs). cbn [bind].
    now rewrite deref_slot, Hv.
Qed.

(** [hash_put] of a key that is not in the table: the size goes up by
    exactly one, the key is found with the value, and every other key that
    was found is found with the value it had, whether or not the table was
    grown on the way. *)
Theorem hash_put_insert (t : image) (key : Z) (val : V) :
  hash_wf t = true -> capacity (info t) <= 2 ^ 62 ->
  hash_get (Some t) key = Ok None ->
  exists t', hash_put (Some t) key val = Ok (Some t')
    /\ hash_size (Some t') = hash_size (Some t) + 1
    /\ hash_lookup (Some t') key = Ok (Some val)
    /\ (forall k v, k <> key -> hash_lookup (Some t) k = Ok (Some v) ->
          hash_lookup (Some t') k = Ok (Some v)).
Proof.
  intros Hwf Hcap Hget. apply hash_wf_iff in Hwf. cbn [hash_get] in Hget.
  destruct (hash_put_total t key val Hwf Hcap ltac:(rewrite Hget; discriminate))
    as (t1 & t' & idx & Hslot & Hwf1 & Hh & Hv & _ & _ & Hsz1 & Hput & Hwf'
        & Hcase).
  rewrite Hget in Hsz1.
  destruct (put_slot_miss t key val Hwf Hget) as (i & Hi & Hnf & Hs' & _).
  rewrite Hs' in Hslot. injection Hslot as <-.
  pose proof Hwf as [[(_ & Hlm & Hlk) _ _ _ _] Hlv _].
  assert (Hkeep1 : forall k v, k <> key ->
            (exists s, held t k s /\ slot (vals t) s = Some v) ->
            exists s, held (claim t i key val) k s
                      /\ slot (vals (claim t i key val)) s = Some v).
  { intros k v Hk (s & (Hs & Hf & Hks) & Hsv).
    assert (Hsi : s <> i) by (intros ->; congruence).
    exists s. unfold held. cbn [claim meta keys vals info capacity].
    rewrite !rd_upd_ne by lia. rewrite slot_upd_ne by lia. auto. }
  assert (Hto : forall k v,
            (exists s, held (claim t i key val) k s
                       /\ slot (vals (claim t i key val)) s = Some v) ->
            exists s, held t' k s /\ slot (vals t') s = Some v).
  { intros k v (s & Hs & Hsv). destruct (_ && _).
    - destruct Hcase as (_ & _ & _ & _ & [Hsame _] & _).
      destruct (Hsame k s Hs) as (s' & Hs'' & Hv'). exists s'.
      split; [exact Hs''|congruence].
    - subst t'. eauto. }
  assert (Hsz : size (info t') = size (info t) + 1).
  { destruct (_ && _); [|now subst t'].
    destruct Hcase as (_ & -> & _). exact Hsz1. }
  exists t'. split; [exact Hput|]. split; [exact Hsz|]. split.
  - apply (lookup_Some t' key val Hwf'). apply Hto. eauto.
  - intros k v Hk Hlk'. apply (lookup_Some t' k v Hwf'). apply Hto.
    apply Hkeep1; [exact Hk|]. now apply (lookup_Some t k v Hwf).
Qed.

(** [hash_put] is idempotent once the growth it owed has taken place.
    Repeating the call that has just returned, same key and same value,
    leaves the table exactly as it is, if the allocator never refuses or,
    whatever the allocator does, if the table the first call returned is
    under the load bound.  (A first call whose growth was refused leaves
    the table at the bound, and the repeated call tries again.) *)
Theorem hash_put_idempotent (t t' : image) (key : Z) (val : V) :
  hash_wf t = true -> capacity (info t) <= 2 ^ 62 ->
  hash_put (Some t) key val = Ok (Some t') ->
  (forall bytes align, hash__aligned_allocation bytes align = true)
  \/ size (info t') < capacity (info t') / 4 * 3 ->
  hash_put (Some t') key val = Ok (Some t').
Proof.
  intros Hwf Hcap Hrun Hor. apply hash_wf_iff in Hwf.
  assert (Hnd : hash__get_idx t key <> Diverge).
  { intros Hd. rewrite (hash_put_stuck t key val Hd) in Hrun. discriminate. }
  destruct (hash_put_total t key val Hwf Hcap Hnd)
    as (t1 & t2 & idx & Hslot & Hwf1 & Hh & Hv & Hc1 & _ & Hsz1 & Hput & Hwf'
        & Hcase).
  rewrite Hput in Hrun. injection Hrun as ->.
  destruct (WF_capacity t Hwf) as (Hrg & H16).
  pose proof Hwf1 as [_ _ Hcount1]. pose proof Hwf1 as [[(_ & Hlm1 & _) _ _ _ _] _ _].
  pose proof (count_full_bounds (meta t1)) as Hcb.
  assert (Hl' : within_load t').
  { destruct Hor as [Halloc|Hl]; [|exact Hl]. unfold within_load.
    rewrite (malloc_ok Halloc), andb_true_r in Hcase.
    destruct (size (info t1) >=? capacity (info t) / 4 * 3) eqn:Hload.
    - destruct Hcase as (Hc' & Hs' & _). rewrite Hc', Hs'.
      clear - Hrg H16 Hcount1 Hlm1 Hcb Hc1.
      Z.to_euclidean_division_equations. lia.
    - subst t'. rewrite Hc1. lia. }
  assert (Hfound : exists i, held t' key i /\ slot (vals t') i = Some val).
  { destruct (_ && _).
    - destruct Hcase as (_ & _ & _ & _ & [Hsame _] & _).
      destruct (Hsame key idx Hh) as (i & Hi & Hvi). exists i.
      split; [exact Hi|congruence].
    - subst t'. eauto. }
  destruct Hfound as (i & Hi & Hvi).
  rewrite (hash_put_hit t' key i val Hwf' (get_idx_held t' key i Hwf' Hi) Hl').
  unfold set_val. rewrite (upd_same _ _ _ Hvi). now destruct t'.
Qed.

(** On a table of pointers (values of 8 bytes) [free_val] changes nothing
    about a deletion except that the value stored under the key is handed
    to [free]: the image afterwards and the returned flag are those of the
    call with [free_val = 0]. *)
Theorem hash_del_free_val (t : image) (key : Z) :
  hash_wf t = true -> val_size (info t) = 8 ->
  match hash_del (Some t) key false with
  | Ok r0 =>
      exists r1, hash_del (Some t) key true = Ok r1
        /\ after r1 = after r0 /\ deleted r1 = deleted r0
        /\ released r0 = None
        /\ hash_lookup (Some t) key = Ok (released r1)
  | Diverge => hash_del (Some t) key true = Diverge
  | Fault => False
  end.
Proof.
  intros Hwf _. apply hash_wf_iff in Hwf.
  pose proof (hash_del_spec t key false Hwf) as H0.
  pose proof (hash_del_spec t key true Hwf) as H1.
  unfold hash_lookup. cbn [hash_get].
  destruct (hash__get_idx t key) as [[idx|]| |] eqn:Hr.
  - destruct H0 as (_ & -> & _). destruct H1 as (_ & -> & _).
    eexists. split; [reflexivity|]. cbn [after deleted released bind].
    now rewrite deref_slot.
  - destruct H0 as (_ & ->). destruct H1 as (_ & ->).
    eexists. split; [reflexivity|]. cbn [after deleted released bind deref].
    auto.
  - destruct H0.
  - rewrite H0. exact H1.
Qed.

(** [hash_reserve] for more than [2 ^ 63] slots does not return: the
    rounding loop doubles [true_cap] past the last power of two a [size_t]
    holds, to 0, and 0 stays below the request for ever. *)
Theorem hash_reserve_beyond_range (h : handle) (n : Z) :
  hash_capacity h <= 2 ^ 63 -> 2 ^ 63 < n < 2 ^ 64 ->
  hash_reserve h n = Diverge
  /\ forall fuel, hash__round_up fuel 1 n = Diverge.
Proof.
  intros Hc Hn.
  assert (Hloop : forall fuel, hash__round_up fuel 1 n = Diverge).
  { intros fuel. change 1 with (wrap64 (2 ^ 0)).
    apply round_up_overflow; lia. }
  split; [|exact Hloop]. unfold hash_reserve. rewrite (wrap64_small n) by lia.
  rewrite Hloop.
  assert (Hin : hash_capacity (match h with None => hash__init h | Some _ => h end)
                <= 2 ^ 63).
  { destruct h as [t|]; [exact Hc|]. unfold hash__init.
    destruct (hash__malloc _ _);
      cbn [hash_capacity fresh_image info capacity];
      unfold HASH__START_CAPACITY; lia. }
  destruct (Z.gtb_spec n (hash_capacity
              (match h with None => hash__init h | Some _ => h end))); [|lia].
  reflexivity.
Qed.

(** ** The slot [hash__get_freetombidx] picks *)

Lemma freetomb_step_first (fuel : nat) (meta : list Z) (m i : Z) :
  0 <= i -> i mod 16 = 0 -> i + 16 <= len meta ->
  let r := hash__get_freetombidx_loop (S fuel) meta m i in
  (exists off, 0 <= off < 16 /\ hash_is_full (rd meta (i + off)) = false /\
     (forall j, 0 <= j < off -> hash_is_full (rd meta (i + j)) = true) /\
     r = Ok (i + off))
  \/ ((forall j, 0 <= j < 16 -> hash_is_full (rd meta (i + j)) = true) /\
      r = hash__get_freetombidx_loop fuel meta m (hash__next m i 16)).
Proof.
  intros Hi Hal Hlen r. subst r. cbn [hash__get_freetombidx_loop].
  destruct (load16_lanes meta i Hi Hal Hlen) as (v & -> & Hl & Hv).
  cbn [bind]. rewrite movemask_nonfull by exact Hl.
  set (freetomb := bits_to_Z (map (fun x => Z.land x 128 =? 0) v)).
  assert (Hrange : 0 <= freetomb < 2 ^ 16) by (apply lanes_bitmap_range; exact Hl).
  destruct (Z.eqb_spec freetomb 0) as [Hz|Hnz]; cbn [negb].
  - right. split; [|reflexivity]. intros j Hj.
    unfold freetomb in Hz. rewrite (lanes_bitmap_zero _ meta v i Hl Hv) in Hz.
    specialize (Hz j Hj). cbv beta in Hz. rewrite nonfull_lane in Hz.
    now apply negb_false_iff in Hz.
  - left. destruct (_BitScanForward freetomb) as [off|] eqn:Hb.
    + destruct (clear_lowest freetomb off Hrange Hb) as (Hoff & _ & _).
      destruct (BitScanForward_Some freetomb off Hb) as (Hoff0 & Hset & Hlow).
      exists off. split; [lia|]. split; [|split; [|reflexivity]].
      * unfold freetomb in Hset.
        rewrite (lanes_testbit _ meta v i off Hv ltac:(lia)) in Hset.
        rewrite nonfull_lane in Hset. now apply negb_true_iff in Hset.
      * intros j Hj. specialize (Hlow j Hj). unfold freetomb in Hlow.
        rewrite (lanes_testbit _ meta v i j Hv ltac:(lia)) in Hlow.
        rewrite nonfull_lane in Hlow. now apply negb_false_iff in Hlow.
    + apply BitScanForward_zero in Hb; [contradiction|exact Hrange].
Qed.

Lemma freetomb_loop_first (meta keys : list Z) (m : Z) :
  shape meta keys m ->
  forall fuel x idx, 0 <= x < m / 16 ->
  hash__get_freetombidx_loop fuel meta m (16 * x) = Ok idx ->
  exists e off, 0 <= e < Z.of_nat fuel /\ 0 <= off < 16
    /\ idx = 16 * ((x + e) mod (m / 16)) + off
    /\ hash_is_full (rd meta idx) = false
    /\ (forall j, 0 <= j < off ->
          hash_is_full (rd meta (16 * ((x + e) mod (m / 16)) + j)) = true)
    /\ (forall e' j, 0 <= e' < e -> 0 <= j < 16 ->
          hash_is_full (rd meta (16 * ((x + e') mod (m / 16)) + j)) = true).
Proof.
  intros ((k & Hk & Hm) & Hlm & Hlk).
  destruct (pow2_groups k m Hk Hm) as (HG & Hm16 & HG1 & Hr).
  induction fuel as [|fuel IH]; intros x idx Hx Hrun; [discriminate|].
  assert (Hx0 : (x + 0) mod (m / 16) = x)
    by (rewrite Z.add_0_r; apply Z.mod_small; lia).
  destruct (freetomb_step_first fuel meta m (16 * x))
    as [(off & Hoff & Hnf & Hlow & Heq)|(Hall & Heq)]; try lia.
  { rewrite Z.mul_comm. apply Z.mod_mul. lia. }
  - rewrite Heq in Hrun. injection Hrun as <-.
    exists 0, off. rewrite Hx0. split; [lia|]. split; [lia|].
    split; [reflexivity|]. split; [exact Hnf|]. split; [exact Hlow|].
    intros e' j He'. lia.
  - rewrite Heq, (next_group k m x Hk Hm Hx) in Hrun.
    assert (Hx' : 0 <= (x + 1) mod (m / 16) < m / 16)
      by (apply Z.mod_pos_bound; lia).
    destruct (IH _ idx Hx' Hrun) as (e & off & He & Hoff & Hidx & Hnf & Hlow & Hbefore).
    exists (e + 1), off. rewrite <- group_shift by lia.
    split; [lia|]. split; [lia|]. split; [exact Hidx|]. split; [exact Hnf|].
    split; [exact Hlow|]. intros e0 j He0 Hj.
    destruct (Z.eq_dec e0 0) as [->|Hne].
    + rewrite Hx0. now apply Hall.
    + specialize (Hbefore (e0 - 1) j ltac:(lia) Hj).
      rewrite group_shift in Hbefore by lia.
      now replace (e0 - 1 + 1) with e0 in Hbefore by lia.
Qed.

(** [hash__get_freetombidx] is first-fit along the probe sequence of the
    key.  On a table with a slot that is not Full it returns the lowest
    such slot of the first group, counted from the key's own group, that
    has one: every slot of the groups visited before and every lower slot
    of the group itself is Full.  On a table in which every slot is Full it
    does not return. *)
Theorem hash__get_freetombidx_first_fit (t : image) (key : Z) :
  hash_wf t = true ->
  let m := capacity (info t) in
  (size (info t) < m ->
   exists idx, hash__get_freetombidx t key = Ok idx
     /\ 0 <= idx < m
     /\ hash_is_full (rd (meta t) idx) = false
     /\ (forall s, 16 * (idx / 16) <= s < idx ->
           hash_is_full (rd (meta t) s) = true)
     /\ (forall e j, 0 <= e < (idx / 16 - home m key) mod (m / 16) ->
           0 <= j < 16 ->
           hash_is_full
             (rd (meta t) (16 * ((home m key + e) mod (m / 16)) + j)) = true))
  /\ (size (info t) = m ->
      hash__get_freetombidx t key = Diverge
      /\ forall fuel,
           hash__get_freetombidx_loop fuel (meta t) m (hash__start m key)
           = Diverge).
Proof.
  intros Hwf m. apply hash_wf_iff in Hwf.
  pose proof Hwf as [[Hsh _ _ _ _] _ Hcount].
  pose proof Hsh as ((k & Hk & Hm) & Hlm & _). fold m in Hk, Hm, Hlm, Hsh.
  destruct (pow2_groups k m Hk Hm) as (HG & Hm16 & HG1 & Hrg).
  destruct (hash__start_home k m key Hk Hm) as (Hst & Hh).
  unfold hash__get_freetombidx, hash__groups. fold m. rewrite Hst. split.
  - intros Hsz.
    destruct (freetomb_loop_finds (meta t) (keys t) m key Hsh) as (idx & Hrun & _).
    { destruct (count_full_room (meta t)) as (s & Hs & Hnf); [lia|].
      exists s. split; [lia|exact Hnf]. }
    rewrite Hst in Hrun.
    destruct (freetomb_loop_first (meta t) (keys t) m Hsh _ _ idx Hh Hrun)
      as (e & off & He & Hoff & Hidx & Hnf & Hlow & Hbefore).
    pose proof (Z.mod_pos_bound (home m key + e) (m / 16) ltac:(lia)) as Hy.
    assert (Hdiv : idx / 16 = (home m key + e) mod (m / 16))
      by (apply in_group_div; lia).
    exists idx. split; [exact Hrun|]. split; [lia|]. split; [exact Hnf|].
    split.
    + intros s Hs. rewrite Hdiv in Hs.
      replace s with (16 * ((home m key + e) mod (m / 16))
                      + (s - 16 * ((home m key + e) mod (m / 16)))) by lia.
      apply Hlow. lia.
    + intros e' j He' Hj. apply Hbefore; [|exact Hj].
      rewrite Hdiv, Zminus_mod_idemp_l in He'.
      replace (home m key + e - home m key) with e in He' by lia.
      rewrite Z.mod_small in He' by lia. exact He'.
  - intros Hsz.
    assert (Hany : forall fuel,
              hash__get_freetombidx_loop fuel (meta t) m (16 * home m key)
              = Diverge); [|split; [apply Hany|exact Hany]].
    intros fuel.
    pose proof (freetomb_loop_spec (meta t) (keys t) m Hsh
                  fuel (home m key) Hh) as Hspec.
    destruct (hash__get_freetombidx_loop _ _ _ _) as [idx| |];
      [|destruct Hspec|reflexivity].
    exfalso. destruct Hspec as (e & He & Hin & Hnf & _).
    pose proof (Z.mod_pos_bound (home m key + e) (m / 16) ltac:(lia)) as Hy.
    assert (Hidx : 0 <= idx < len (meta t)) by lia.
    assert (Hall : forall l : list Z, count_full l = len l ->
              forall s, 0 <= s < len l -> hash_is_full (rd l s) = true).
    { clear. induction l as [|b l IH]; intros Hc s Hs;
        [unfold len in Hs; cbn in Hs; lia|].
      cbn [count_full] in Hc. pose proof (count_full_bounds l) as Hb.
      assert (Hl : len (b :: l) = len l + 1)
        by (unfold len; cbn [length]; lia).
      destruct (hash_is_full b) eqn:Hfb; cbn [Z.b2z] in Hc; [|lia].
      destruct (Z.eq_dec s 0) as [->|Hne]; [exact Hfb|].
      replace (rd (b :: l) s) with (rd l (s - 1)).
      - apply IH; lia.
      - unfold rd, slot. destruct (Z.leb_spec 0 s); [|lia].
        destruct (Z.leb_spec 0 (s - 1)); [|lia].
        replace (Z.to_nat s) with (S (Z.to_nat (s - 1))) by lia. reflexivity. }
    rewrite (Hall (meta t) ltac:(lia) idx Hidx) in Hnf. discriminate.
Qed.

(** ** What a lookup finds, and where *)

(** [hash_get] returns the slot of a key exactly when that slot is Full
    and holds the key, and it returns "absent" exactly when no Full slot
    holds the key and the image has a Free byte. *)
Theorem hash_get_finds_exactly (t : image) (key : Z) :
  hash_wf t = true ->
  (forall idx,
     hash_get (Some t) key = Ok (Some idx)
     <-> 0 <= idx < capacity (info t)
         /\ hash_is_full (rd (meta t) idx) = true
         /\ rd (keys t) idx = key)
  /\ (hash_get (Some t) key = Ok None
      <-> holds_key t key = false /\ has_free t = true).
Proof.
  intros Hwf. apply hash_wf_iff in Hwf. cbn [hash_get]. split.
  - intros idx. split.
    + intros Hr. now apply get_idx_Some in Hr.
    + intros Hh. now apply get_idx_held.
  - rewrite holds_key_false. split.
    + intros Hr. destruct (get_idx_None t key Hwf Hr) as (Hno & s & Hs & Hz).
      split; [exact Hno|]. now apply (has_free_intro t s).
    + intros [Hno Hf]. now apply get_idx_absent.
Qed.

(** Without growth nothing moves.  After an operation that leaves the
    capacity as it was, a key that was found at a slot is found at the same
    slot (unless it is the key just deleted), so a pointer obtained from
    [hash_get] before the operation still addresses the element; its value
    is the old one, or the new one if the operation was a [hash_put] of
    that key. *)
Theorem pointers_stable_without_growth
    (t t' : image) (o : op V) (k i : Z) :
  hash_wf t = true -> capacity (info t) <= 2 ^ 62 ->
  match o with
  | Reserve n => 0 <= n <= 2 ^ 63
  | Del key _ => k <> key
  | Put _ _ => True
  end ->
  run_op (Some t) o = Ok (Some t') ->
  capacity (info t') = capacity (info t) ->
  hash_get (Some t) k = Ok (Some i) ->
  hash_get (Some t') k = Ok (Some i)
  /\ slot (vals t') i
     = match o with
       | Put key val => if k =? key then Some val else slot (vals t) i
       | _ => slot (vals t) i
       end.
Proof.
  intros Hwf Hcap Hn Hrun Heq Hget. apply hash_wf_iff in Hwf.
  cbn [hash_get] in *. destruct (WF_capacity t Hwf) as (Hrg & _).
  destruct (get_idx_Some t k i Hwf Hget) as ((Hi & Hfi & Hki) & _).
  pose proof Hwf as [[(_ & Hlm & Hlk) _ _ _ _] Hlv _].
  assert (Hfound : forall t2, WF t2 -> capacity (info t2) = capacity (info t) ->
            rd (meta t2) i = rd (meta t) i -> rd (keys t2) i = rd (keys t) i ->
            hash__get_idx t2 k = Ok (Some i)).
  { intros t2 Hwf2 Hc2 Hm2 Hk2. apply get_idx_held; [exact Hwf2|].
    unfold held. rewrite Hc2, Hm2, Hk2. auto. }
  destruct o as [key val|key free_val|n]; cbn [run_op] in Hrun.
  - assert (Hnd : hash__get_idx t key <> Diverge).
    { intros Hd. rewrite (hash_put_stuck t key val Hd) in Hrun. discriminate. }
    destruct (hash_put_total t key val Hwf Hcap Hnd)
      as (t1 & t2 & idx & Hslot & Hwf1 & _ & _ & Hc1 & _ & _ & Hput & _ & Hcase).
    rewrite Hput in Hrun. injection Hrun as ->.
    destruct (_ && _); [destruct Hcase as (Hc' & _); lia|]. subst t'.
    destruct (hash__get_idx t key) as [[i0|]| |] eqn:Hr.
    + rewrite (put_slot_hit t key i0 val Hwf Hr) in Hslot. injection Hslot as <-.
      split; [now apply Hfound|]. cbn [set_val vals].
      destruct (get_idx_Some t key i0 Hwf Hr) as ((Hi0 & Hfi0 & Hki0) & _).
      destruct (Z.eqb_spec k key) as [->|Hne].
      * assert (i = i0).
        { pose proof Hwf as [[_ _ _ Hu _] _ _]. apply Hu; auto. congruence. }
        subst i0. apply slot_upd_eq. lia.
      * apply slot_upd_ne; [lia|]. intros ->. congruence.
    + destruct (put_slot_miss t key val Hwf Hr) as (i0 & Hi0 & Hnf & Hs' & _).
      rewrite Hs' in Hslot. injection Hslot as <-.
      assert (Hne : i <> i0) by (intros ->; congruence).
      split.
      * apply Hfound; [exact Hwf1|reflexivity| |];
          cbn [claim meta keys]; apply rd_upd_ne; lia.
      * cbn [claim vals]. rewrite slot_upd_ne by lia.
        destruct (Z.eqb_spec k key) as [->|]; [|reflexivity].
        exfalso. destruct (get_idx_None t key Hwf Hr) as (Hno & _).
        apply (Hno i). unfold held. auto.
    + exfalso. now apply (get_idx_no_fault t key).
    + contradiction.
  - pose proof (hash_del_spec t key free_val Hwf) as Hd.
    destruct (hash__get_idx t key) as [[i0|]| |].
    + destruct Hd as ((Hi0 & Hfi0 & Hki0) & Hd & Hwf' & _). rewrite Hd in Hrun.
      cbn [bind after] in Hrun. injection Hrun as <-.
      assert (Hne : i <> i0) by (intros ->; congruence).
      split; [|reflexivity].
      apply Hfound; [exact Hwf'|reflexivity| |reflexivity].
      cbn [bury meta]. apply rd_upd_ne; lia.
    + destruct Hd as (_ & Hd). rewrite Hd in Hrun. cbn [bind after] in Hrun.
      injection Hrun as <-. auto.
    + destruct Hd.
    + rewrite Hd in Hrun. discriminate.
  - destruct (hash_reserve_total t n Hwf ltac:(lia))
      as [(_ & Hr)|[(Hin & t2 & Hr & _ & Hwf' & Hcase)|(Hout & _)]]; [| |lia].
    + rewrite Hr in Hrun. injection Hrun as <-. auto.
    + rewrite Hr in Hrun. injection Hrun as ->.
      destruct (next_pow2_spec n ltac:(lia)) as (_ & Hle & _).
      destruct (hash__malloc _ _).
      * destruct Hcase as (Hinfo & _). rewrite Hinfo in Heq.
        cbn [capacity] in Heq. lia.
      * subst t'. auto.
Qed.

(** The three states of a metadata byte do not overlap, and the byte
    [hash_put] writes for a key is a Full one: a tag can be taken neither
    for a Free byte nor for a Tombstone, and a Tombstone neither for a Free
    byte nor for a Full one.  The test of [hash__get_freetombidx] on a
    lane, [(b & 0x80) == 0], is the negation of [hash_is_full]. *)
Theorem slot_states_disjoint (key b : Z) :
  hash_is_full (hash__mask key) = true
  /\ hash_is_free (hash__mask key) = false
  /\ hash__mask key <> HASH__TOMB
  /\ hash_is_full HASH__TOMB = false /\ hash_is_free HASH__TOMB = false
  /\ hash_is_full HASH__FREE = false /\ hash_is_free HASH__FREE = true
  /\ (hash_is_full b = true -> hash_is_free b = false)
  /\ (Z.land b 0x80 =? 0) = negb (hash_is_full b).
Proof.
  pose proof (hash__mask_range key) as Hr.
  split; [apply hash__mask_full|]. split; [unfold hash_is_free; lia|].
  split; [unfold HASH__TOMB; lia|]. do 4 (split; [reflexivity|]).
  split; [|apply nonfull_lane].
  intros Hf. unfold hash_is_free. destruct (Z.eqb_spec b 0) as [->|]; [|reflexivity].
  discriminate.
Qed.

(** ** Growth happens at the load bound only *)

Lemma hash_put_below_load (t : image) (key : Z) (val : V) (h' : handle) :
  WF t -> size (info t) + 1 < capacity (info t) / 4 * 3 ->
  hash_put (Some t) key val = Ok h' ->
  exists t1, h' = Some t1 /\ WF t1
    /\ hash__put_slot t key (hash__mask key) val = Ok t1
    /\ capacity (info t1) = capacity (info t)
    /\ size (info t1) <= size (info t) + 1.
Proof.
  intros Hwf Hl Hrun. destruct (WF_capacity t Hwf) as (Hrg & _).
  assert (Hnd : hash__get_idx t key <> Diverge).
  { intros Hd. rewrite (hash_put_stuck t key val Hd) in Hrun. discriminate. }
  destruct (put_slot_spec t key val Hwf Hnd)
    as (t1 & idx & Hput & Hwf1 & _ & _ & Hc1 & _ & Hsz1).
  assert (Hs1 : size (info t1) <= size (info t) + 1)
    by (rewrite Hsz1; destruct (hash__get_idx t key) as [[?|]| |]; lia).
  unfold hash_put in Hrun. rewrite Hput in Hrun. cbn [bind] in Hrun.
  rewrite Hc1 in Hrun.
  rewrite (wrap64_small (capacity (info t) / 4 * 3)) in Hrun
    by (clear - Hrg; Z.to_euclidean_division_equations; lia).
  destruct (Z.geb_spec (size (info t1)) (capacity (info t) / 4 * 3)); [lia|].
  injection Hrun as <-. exists t1. auto.
Qed.

(** Insertions and deletions that keep the table short of the load bound
    never reallocate: if [size] plus the number of operations stays below
    [(capacity / 4) * 3], the capacity after the sequence is the capacity
    before it, whatever the keys are. *)
Theorem no_growth_below_load (ops : list (op V)) :
  forall t t',
    hash_wf t = true -> no_reserve ops = true ->
    size (info t) + len ops < capacity (info t) / 4 * 3 ->
    run ops (Some t) = Ok (Some t') ->
    capacity (info t') = capacity (info t)
    /\ size (info t') <= size (info t) + len ops
    /\ hash_wf t' = true.
Proof.
  assert (Hmain : forall t t',
    WF t -> no_reserve ops = true ->
    size (info t) + len ops < capacity (info t) / 4 * 3 ->
    run ops (Some t) = Ok (Some t') ->
    capacity (info t') = capacity (info t)
    /\ size (info t') <= size (info t) + len ops /\ WF t').
  { induction ops as [|o ops IH]; intros t t' Hwf Hnr Hl Hrun;
      cbn [run no_reserve forallb] in *.
    - injection Hrun as <-. unfold len; cbn [length]. split; [reflexivity|].
      split; [lia|exact Hwf].
    - apply andb_true_iff in Hnr. destruct Hnr as [Ho Hnr].
      assert (Hlen : len (o :: ops) = len ops + 1)
        by (unfold len; cbn [length]; lia).
      rewrite Hlen in *. pose proof (count_full_bounds (meta t)) as Hcb.
      assert (Hlo : 0 <= len ops) by (unfold len; lia).
      destruct (run_op (Some t) o) as [h1| |] eqn:Hop; cbn [bind] in Hrun;
        try discriminate.
      assert (Hstep : exists t1, h1 = Some t1 /\ WF t1
                /\ capacity (info t1) = capacity (info t)
                /\ size (info t1) <= size (info t) + 1).
      { destruct o as [key val|key free_val|n]; [| |discriminate];
          cbn [run_op] in Hop.
        - destruct (hash_put_below_load t key val h1 Hwf ltac:(lia) Hop)
            as (t1 & -> & Hwf1 & _ & Hc1 & Hs1). eauto.
        - pose proof (hash_del_spec t key free_val Hwf) as Hd.
          destruct (hash__get_idx t key) as [[idx|]| |].
          + destruct Hd as (_ & Hd & Hwf' & _). rewrite Hd in Hop.
            cbn [bind after] in Hop. injection Hop as <-.
            exists (bury t idx). split; [reflexivity|]. split; [exact Hwf'|].
            cbn [bury info capacity size]. split; [reflexivity|lia].
          + destruct Hd as (_ & Hd). rewrite Hd in Hop. cbn [bind after] in Hop.
            injection Hop as <-. exists t. split; [reflexivity|].
            split; [exact Hwf|]. split; [reflexivity|lia].
          + destruct Hd.
          + rewrite Hd in Hop. discriminate. }
      destruct Hstep as (t1 & -> & Hwf1 & Hc1 & Hs1).
      destruct (IH t1 t' Hwf1 Hnr ltac:(rewrite Hc1; lia) Hrun)
        as (Hc' & Hs' & Hwf').
      split; [congruence|]. split; [lia|exact Hwf']. }
  intros t t' Hwf Hnr Hl Hrun. apply hash_wf_iff in Hwf.
  destruct (Hmain t t' Hwf Hnr Hl Hrun) as (Hc & Hs & Hwf').
  split; [exact Hc|]. split; [exact Hs|now apply hash_wf_iff].
Qed.

(** ** What [size] counts *)

Lemma stored_upto_In (meta keys : list Z) (n : nat) (key : Z) :
  In key (stored_upto meta keys n)
  <-> exists i, 0 <= i < Z.of_nat n
        /\ hash_is_full (rd meta i) = true /\ rd keys i = key.
Proof.
  induction n as [|n IH]; cbn [stored_upto].
  - split; [intros []|intros (i & Hi & _); lia].
  - rewrite in_app_iff, IH. split.
    + intros [(i & Hi & Hf & Hk)|Hin].
      * exists i. split; [lia|auto].
      * destruct (hash_is_full (rd meta (Z.of_nat n))) eqn:Hf; [|destruct Hin].
        destruct Hin as [Hk|[]]. exists (Z.of_nat n). split; [lia|auto].
    + intros (i & Hi & Hf & Hk).
      destruct (Z.eq_dec i (Z.of_nat n)) as [->|Hne].
      * right. rewrite Hf. left. exact Hk.
      * left. exists i. split; [lia|auto].
Qed.

Lemma stored_upto_NoDup (meta keys : list Z) (m : Z) (n : nat) :
  uniqP meta keys m -> Z.of_nat n <= m -> List.NoDup (stored_upto meta keys n).
Proof.
  intros Hu. induction n as [|n IH]; intros Hn; cbn [stored_upto];
    [constructor|].
  specialize (IH ltac:(lia)).
  destruct (hash_is_full (rd meta (Z.of_nat n))) eqn:Hf;
    [|now rewrite app_nil_r].
  apply NoDup_ListNoDup, NoDup_app. split; [now apply NoDup_ListNoDup|].
  split; [|apply NoDup_singleton].
  intros x Hx Hx'. apply list_elem_of_singleton in Hx'. subst x.
  apply list_elem_of_In, stored_upto_In in Hx. destruct Hx as (i & Hi & Hfi & Hk).
  assert (i = Z.of_nat n) by (apply Hu; auto; lia). lia.
Qed.

Lemma stored_upto_length (meta keys : list Z) (n : nat) :
  Z.of_nat n <= len meta ->
  len (stored_upto meta keys n) = count_full (take n meta).
Proof.
  induction n as [|n IH]; intros Hn; cbn [stored_upto]; [reflexivity|].
  rewrite count_full_take_S by lia. rewrite <- IH by lia.
  unfold len. rewrite length_app.
  destruct (hash_is_full (rd meta (Z.of_nat n))); cbn [length Z.b2z]; lia.
Qed.

(** [size] is the number of keys in the table.  The keys of the Full
    slots are pairwise distinct, there are [hash_size] of them, and they are
    exactly the keys [hash_get] finds: a walk over the slots that tests
    [hash_is_full] meets every key of the map once. *)
Theorem size_counts_stored_keys (t : image) :
  hash_wf t = true ->
  List.NoDup (stored_keys t)
  /\ hash_size (Some t) = len (stored_keys t)
  /\ (forall key,
        In key (stored_keys t)
        <-> exists idx, hash_get (Some t) key = Ok (Some idx)).
Proof.
  intros Hwf. apply hash_wf_iff in Hwf.
  pose proof Hwf as [[(_ & Hlm & _) _ _ Hu _] _ Hcount].
  destruct (WF_capacity t Hwf) as (Hrg & _). unfold stored_keys.
  split; [apply (stored_upto_NoDup _ _ (capacity (info t))); [exact Hu|lia]|].
  split.
  - cbn [hash_size]. rewrite stored_upto_length by lia.
    rewrite take_ge by (unfold len in Hlm; lia). exact Hcount.
  - intros key. rewrite stored_upto_In. cbn [hash_get].
    rewrite Z2Nat.id by lia. split.
    + intros (i & Hi & Hf & Hk). exists i. apply get_idx_held; [exact Hwf|].
      unfold held. auto.
    + intros (idx & Hr). exists idx. now apply get_idx_Some in Hr.
Qed.

(** ** The value size in the header *)

(** The [val_size] a table carries is [sizeof] of the value type, from
    [hash__init] on and through every reallocation.  So the address
    [(char * )map + val_size * idx] that [hash_get] returns is the address
    of [map[idx]], the element [hash_put] wrote. *)
Theorem val_size_is_sizeof (ops : list (op V)) (t : image) :
  in_bounds ops None -> run ops None = Ok (Some t) ->
  val_size (info t) = sizeof_V.
Proof.
  assert (Hmain : forall ops t0 t',
    WF t0 -> in_bounds ops (Some t0) -> run ops (Some t0) = Ok (Some t') ->
    val_size (info t') = val_size (info t0)).
  { clear ops t. induction ops as [|o ops IH]; intros t0 t' Hwf Hb Hrun;
      cbn [run in_bounds] in *.
    - now injection Hrun as <-.
    - destruct Hb as (Hcap & Hn & Hrest). cbn [hash_capacity] in Hcap.
      destruct (run_op (Some t0) o) as [h1| |] eqn:Hop; cbn [bind] in Hrun;
        try discriminate.
      destruct (run_op_step t0 o h1 Hwf Hcap Hn Hop)
        as (t1 & -> & Hwf1 & _ & Hvs & _).
      rewrite <- Hvs. exact (IH t1 t' Hwf1 (Hrest _ eq_refl) Hrun). }
  intros Hb Hrun.
  destruct ops as [|o ops]; cbn [run in_bounds] in *; [discriminate|].
  destruct Hb as (_ & Hn & Hrest).
  destruct (run_op None o) as [h1| |] eqn:Hop; cbn [bind] in Hrun;
    try discriminate.
  specialize (Hrest h1 eq_refl).
  destruct (run_op_null o h1 Hop) as [->|Hop'].
  - (* the pointer is still null: the rest starts over *)
    clear Hop Hn. revert Hrest Hrun. induction ops as [|o' ops IH];
      cbn [run in_bounds]; [discriminate|].
    intros (_ & Hn' & Hrest') Hrun.
    destruct (run_op None o') as [h2| |] eqn:Hop2; cbn [bind] in Hrun;
      try discriminate.
    specialize (Hrest' h2 eq_refl).
    destruct (run_op_null o' h2 Hop2) as [->|Hop2']; [now apply IH|].
    destruct (run_op_step _ o' h2 WF_fresh_start
                ltac:(rewrite fresh_capacity; lia) Hn' Hop2')
      as (t1 & -> & Hwf1 & _ & Hvs & _).
    rewrite (Hmain ops t1 t Hwf1 Hrest' Hrun). exact Hvs.
  - destruct (run_op_step _ o h1 WF_fresh_start
                ltac:(rewrite fresh_capacity; lia) Hn Hop')
      as (t1 & -> & Hwf1 & _ & Hvs & _).
    rewrite (Hmain ops t1 t Hwf1 Hrest Hrun). exact Hvs.
Qed.

(** ** How many Tombstones it takes *)

Lemma rd_cons_0 (b : Z) (l : list Z) : rd (b :: l) 0 = b.
Proof. reflexivity. Qed.

Lemma rd_cons_S (b : Z) (l : list Z) (s : Z) :
  0 <= s -> rd (b :: l) (s + 1) = rd l s.
Proof.
  intros Hs. unfold rd, slot. destruct (Z.leb_spec 0 (s + 1)); [|lia].
  destruct (Z.leb_spec 0 s); [|lia].
  replace (Z.to_nat (s + 1)) with (S (Z.to_nat s)) by lia. reflexivity.
Qed.

Lemma len_cons (b : Z) (l : list Z) : len (b :: l) = len l + 1.
Proof. unfold len. cbn [length]. lia. Qed.

Lemma count_tomb_bounds (meta : list Z) : 0 <= count_tomb meta <= len meta.
Proof.
  induction meta as [|b l IH]; [unfold len; cbn; lia|].
  cbn [count_tomb]. rewrite len_cons. destruct (b =? HASH__TOMB); cbn [Z.b2z]; lia.
Qed.

(** Without a Free byte every byte is Full or a Tombstone. *)
Lemma count_without_free (meta : list Z) :
  bytesP meta (len meta) ->
  (forall s, 0 <= s < len meta -> rd meta s <> 0) ->
  count_full meta + count_tomb meta = len meta.
Proof.
  induction meta as [|b l IH]; intros Hb Hnf; [reflexivity|].
  rewrite len_cons in *. cbn [count_full count_tomb].
  pose proof (count_full_bounds l). pose proof (count_tomb_bounds l).
  assert (Hl : 0 <= len l) by (unfold len; lia).
  rewrite <- IH.
  - specialize (Hb 0 ltac:(lia)). specialize (Hnf 0 ltac:(lia)).
    rewrite rd_cons_0 in Hb, Hnf. unfold HASH__TOMB.
    destruct Hb as [Hz|[Ht|Hf]]; [contradiction| |].
    + subst b. change (hash_is_full 1) with false.
      change (1 =? 1) with true. cbn [Z.b2z]. lia.
    + rewrite full_byte by lia.
      destruct (Z.leb_spec 128 b); [|lia]. destruct (Z.eqb_spec b 1); [lia|].
      cbn [Z.b2z]. lia.
  - intros s Hs. specialize (Hb (s + 1) ltac:(lia)).
    now rewrite rd_cons_S in Hb by lia.
  - intros s Hs. specialize (Hnf (s + 1) ltac:(lia)).
    now rewrite rd_cons_S in Hnf by lia.
Qed.

Lemma few_tombstones_free (t : image) :
  WF t -> within_load t -> count_tomb (meta t) <= capacity (info t) / 4 ->
  has_free t = true.
Proof.
  intros Hwf Hl Ht. destruct (has_free t) eqn:Hf; [reflexivity|exfalso].
  pose proof Hwf as [[(_ & Hlm & _) Hb _ _ _] _ Hcount].
  destruct (WF_capacity t Hwf) as (Hrg & H16).
  pose proof (count_without_free (meta t)) as Hc. rewrite Hlm in Hc.
  specialize (Hc Hb (has_free_false t Hf)). unfold within_load in Hl.
  clear - Hc Hl Ht Hcount Hrg H16. Z.to_euclidean_division_equations. lia.
Qed.

Lemma count_tomb_insert (meta : list Z) (n : nat) (old b : Z) :
  meta !! n = Some old ->
  count_tomb (<[n := b]> meta)
  = count_tomb meta - Z.b2z (old =? HASH__TOMB) + Z.b2z (b =? HASH__TOMB).
Proof.
  revert n. induction meta as [|x l IH]; intros n H; [discriminate|].
  destruct n as [|n]; simpl in H.
  - injection H as ->. change (<[0%nat := b]> (old :: l)) with (b :: l).
    cbn [count_tomb]. lia.
  - specialize (IH n H).
    change (<[S n := b]> (x :: l)) with (x :: <[n := b]> l).
    cbn [count_tomb]. lia.
Qed.

Lemma count_tomb_upd (meta : list Z) (i b : Z) :
  0 <= i < len meta ->
  count_tomb (upd meta i b)
  = count_tomb meta - Z.b2z (rd meta i =? HASH__TOMB) + Z.b2z (b =? HASH__TOMB).
Proof.
  intros Hi. destruct (slot_in_range meta i Hi) as (old & Hold).
  unfold upd. rewrite (count_tomb_insert meta (Z.to_nat i) old b).
  - unfold rd. now rewrite Hold.
  - unfold slot in Hold. destruct (0 <=? i); [exact Hold|discriminate].
Qed.

Lemma count_tomb_clean (meta : list Z) :
  (forall s, 0 <= s < len meta ->
     rd meta s = 0 \/ hash_is_full (rd meta s) = true) ->
  count_tomb meta = 0.
Proof.
  induction meta as [|b l IH]; intros H; [reflexivity|].
  rewrite len_cons in H. cbn [count_tomb].
  assert (Hl : 0 <= len l) by (unfold len; lia).
  rewrite IH.
  - specialize (H 0 ltac:(lia)). rewrite rd_cons_0 in H.
    destruct H as [->|Hf]; [reflexivity|].
    destruct (Z.eqb_spec b HASH__TOMB) as [->|]; [discriminate|reflexivity].
  - intros s Hs. specialize (H (s + 1) ltac:(lia)).
    now rewrite rd_cons_S in H by lia.
Qed.

Section Deletions.

Hypothesis alloc_ok : forall bytes align, hash__aligned_allocation bytes align = true.

(** One operation on a table with few Tombstones: it returns, and the
    number of Tombstones goes up by one at most, and only for a deletion;
    after growth it is zero. *)
Lemma run_op_tombs (t : image) (o : op V) :
  WF t -> within_load t -> capacity (info t) <= 2 ^ 62 ->
  match o with Reserve n => 0 <= n <= 2 ^ 63 | _ => True end ->
  count_tomb (meta t) <= capacity (info t) / 4 ->
  exists t', run_op (Some t) o = Ok (Some t') /\ WF t' /\ within_load t'
    /\ capacity (info t) <= capacity (info t')
    /\ count_tomb (meta t')
       <= count_tomb (meta t) + match o with Del _ _ => 1 | _ => 0 end.
Proof using alloc_ok.
  intros Hwf Hl Hcap Hn Ht.
  pose proof (few_tombstones_free t Hwf Hl Ht) as Hfree.
  pose proof Hwf as [[(_ & Hlm & _) _ _ _ _] _ _].
  pose proof (count_tomb_bounds (meta t)) as Htb.
  assert (Hnd : forall key, hash__get_idx t key <> Diverge).
  { intros key Hd. apply (get_idx_Diverge t key Hwf) in Hd. destruct Hd.
    congruence. }
  assert (Hret : exists h1, run_op (Some t) o = Ok h1).
  { destruct o as [key val|key free_val|n]; cbn [run_op].
    - destruct (hash_put_total t key val Hwf Hcap (Hnd key))
        as (_ & t' & _ & _ & _ & _ & _ & _ & _ & _ & Hput & _). eauto.
    - pose proof (hash_del_spec t key free_val Hwf) as Hd.
      specialize (Hnd key).
      destruct (hash__get_idx t key) as [[idx|]| |].
      + destruct Hd as (_ & -> & _). cbn [bind]. eauto.
      + destruct Hd as (_ & ->). cbn [bind]. eauto.
      + destruct Hd.
      + contradiction.
    - destruct (hash_reserve_total t n Hwf ltac:(lia))
        as [(_ & Hr)|[(_ & t' & Hr & _)|(Hout & _)]]; [eauto|eauto|lia]. }
  destruct Hret as (h1 & Hop).
  destruct (run_op_load alloc_ok t o h1 Hwf Hl Hcap Hn Hop)
    as (t' & -> & Hwf' & Hl' & _).
  destruct (run_op_step t o (Some t') Hwf Hcap Hn Hop)
    as (t2 & Heq & _ & Hc' & _). injection Heq as <-.
  exists t'. split; [exact Hop|]. split; [exact Hwf'|]. split; [exact Hl'|].
  split; [exact Hc'|].
  pose proof Hwf' as [[(_ & Hlm' & _) _ _ _ _] _ _].
  assert (Hgrown : no_tombstone t' -> count_tomb (meta t') <= count_tomb (meta t)
                                       + match o with Del _ _ => 1 | _ => 0 end).
  { intros Hnt. rewrite (count_tomb_clean (meta t')); [destruct o; lia|].
    rewrite Hlm'. exact Hnt. }
  destruct o as [key val|key free_val|n]; cbn [run_op] in Hop.
  - destruct (hash_put_total t key val Hwf Hcap (Hnd key))
      as (t1 & t2 & idx & Hslot & Hwf1 & _ & _ & _ & _ & _ & Hput & _ & Hcase).
    rewrite Hput in Hop. injection Hop as ->.
    destruct (_ && _); [apply Hgrown; now destruct Hcase as (_ & _ & _ & ? & _)|].
    subst t'. specialize (Hnd key).
    destruct (hash__get_idx t key) as [[i|]| |] eqn:Hr.
    + rewrite (put_slot_hit t key i val Hwf Hr) in Hslot. injection Hslot as <-.
      cbn [set_val meta]. lia.
    + destruct (put_slot_miss t key val Hwf Hr) as (i & Hi & _ & Hs' & _).
      rewrite Hs' in Hslot. injection Hslot as <-. cbn [claim meta].
      rewrite count_tomb_upd by lia. pose proof (hash__mask_range key).
      destruct (Z.eqb_spec (hash__mask key) HASH__TOMB) as [He|_];
        [unfold HASH__TOMB in He; lia|].
      destruct (rd (meta t) i =? HASH__TOMB); cbn [Z.b2z]; lia.
    + exfalso. now apply (get_idx_no_fault t key).
    + contradiction.
  - pose proof (hash_del_spec t key free_val Hwf) as Hd.
    destruct (hash__get_idx t key) as [[idx|]| |].
    + destruct Hd as ((Hidx & _) & Hd & _). rewrite Hd in Hop.
      cbn [bind after] in Hop. injection Hop as <-. cbn [bury meta].
      rewrite count_tomb_upd by lia. rewrite Z.eqb_refl.
      destruct (rd (meta t) idx =? HASH__TOMB); cbn [Z.b2z]; lia.
    + destruct Hd as (_ & Hd). rewrite Hd in Hop. cbn [bind after] in Hop.
      injection Hop as <-. lia.
    + destruct Hd.
    + rewrite Hd in Hop. discriminate.
  - destruct (hash_reserve_total t n Hwf ltac:(lia))
      as [(_ & Hr)|[(_ & t2 & Hr & _ & _ & Hcase)|(Hout & _)]]; [| |lia].
    + rewrite Hr in Hop. injection Hop as <-. lia.
    + rewrite Hr in Hop. injection Hop as ->.
      rewrite (malloc_ok alloc_ok) in Hcase. apply Hgrown.
      now destruct Hcase as (_ & ? & _).
Qed.

Lemma run_tombs (ops : list (op V)) :
  forall t,
    WF t -> within_load t -> in_bounds ops (Some t) ->
    count_tomb (meta t) + count_del ops <= capacity (info t) / 4 ->
    exists t', run ops (Some t) = Ok (Some t') /\ WF t' /\ within_load t'
      /\ count_tomb (meta t') <= capacity (info t') / 4.
Proof using alloc_ok.
  induction ops as [|o ops IH]; intros t Hwf Hl Hb Ht;
    cbn [run in_bounds count_del] in *.
  - exists t. repeat (split; [auto|]). lia.
  - destruct Hb as (Hcap & Hn & Hrest). cbn [hash_capacity] in Hcap.
    assert (Hd0 : 0 <= count_del ops).
    { clear. induction ops as [|[| |] ops IHo]; cbn [count_del]; lia. }
    destruct (run_op_tombs t o Hwf Hl Hcap Hn) as (t1 & Hop & Hwf1 & Hl1 & Hc1 & Ht1).
    { destruct o; lia. }
    rewrite Hop. cbn [bind]. apply (IH t1 Hwf1 Hl1 (Hrest _ Hop)).
    assert (Hmono : capacity (info t) / 4 <= capacity (info t1) / 4)
      by (apply Z.div_le_mono; lia).
    destruct o; lia.
Qed.

End Deletions.

(** It takes more than [capacity / 4] Tombstones to use up the Free
    bytes.  A table under the load bound with at most that many Tombstones
    has a Free byte, so every lookup on it returns. *)
Theorem few_tombstones_keep_a_free_byte (t : image) (key : Z) :
  hash_wf t = true -> size (info t) < capacity (info t) / 4 * 3 ->
  count_tomb (meta t) <= capacity (info t) / 4 ->
  has_free t = true
  /\ exists p, hash_get (Some t) key = Ok p.
Proof.
  intros Hwf Hl Ht. apply hash_wf_iff in Hwf.
  pose proof (few_tombstones_free t Hwf Hl Ht) as Hf. split; [exact Hf|].
  cbn [hash_get]. destruct (hash__get_idx t key) as [p| |] eqn:Hr; [eauto| |].
  - exfalso. now apply (get_idx_no_fault t key).
  - apply (get_idx_Diverge t key Hwf) in Hr. destruct Hr. congruence.
Qed.

(** A bounded number of deletions cannot hang the table.  With an
    allocator that never refuses, no [hash_put] at a capacity above
    [2 ^ 62], no [hash_reserve] above [2 ^ 63] and no byte count that
    wraps: from a table under the load bound, every sequence of operations
    in which the Tombstones present plus the deletions to come stay within
    [capacity / 4] returns, and the table it leaves still has a Free
    byte. *)
Theorem few_deletions_never_hang (ops : list (op V)) (t : image) :
  (forall bytes align, hash__aligned_allocation bytes align = true) ->
  hash_wf t = true -> size (info t) < capacity (info t) / 4 * 3 ->
  in_bounds ops (Some t) -> in_memory ops (Some t) ->
  count_tomb (meta t) + count_del ops <= capacity (info t) / 4 ->
  exists t', run ops (Some t) = Ok (Some t')
    /\ hash_wf t' = true /\ has_free t' = true
    /\ size (info t') < capacity (info t') / 4 * 3.
Proof.
  intros Halloc Hwf Hl Hb _ Ht. apply hash_wf_iff in Hwf.
  destruct (run_tombs Halloc ops t Hwf Hl Hb Ht) as (t' & Hrun & Hwf' & Hl' & Ht').
  exists t'. split; [exact Hrun|]. split; [now apply hash_wf_iff|].
  split; [now apply few_tombstones_free|exact Hl'].
Qed.
End Hash.

(** * The scenarios of the specification, run on the model

    Values are 8-byte integers, a fresh value slot holds 0, the seed is the
    one the header starts with, and the allocator never fails. *)

Local Abbreviation seed0 := hash__seed_default.
Local Abbreviation run0 ops := (run Z 8 0 hash__seed_default plentiful ops None).
Local Abbreviation after0 ops :=
  (image_of Z 8 0 (run Z 8 0 hash__seed_default plentiful ops None)).
Local Abbreviation t11 := (after0 (insert_x10 11)).
Local Abbreviation tsat := (after0 saturating_ops).

(** C2.  The 42 operations of [saturating_ops], starting from the null
    pointer, leave a 32-slot table with 22 keys: within the load bound,
    every invariant in place, and not one Free byte (ten Tombstones and 22
    Full bytes).  On it the match probe for a key that is not there never
    exits, whatever fuel it is given. *)
Theorem lookup_without_free_byte :
  run0 saturating_ops = Ok (Some tsat)
  /\ hash_wf Z seed0 tsat = true
  /\ size (info Z tsat) = 22 /\ capacity (info Z tsat) = 32
  /\ (size (info Z tsat) * 4 <=? capacity (info Z tsat) * 3) = true
  /\ has_free Z tsat = false
  /\ hash_get Z seed0 (Some tsat) 1000 = Diverge
  /\ forall fuel,
       hash__get_idx_loop fuel (meta Z tsat) (keys Z tsat) 1000
         (capacity (info Z tsat)) (hash__mask seed0 1000)
         (hash__start seed0 (capacity (info Z tsat)) 1000) = Diverge.
Proof.
  do 7 (split; [vm_compute; reflexivity|]).
  intros fuel. apply hash__get_idx_loop_diverges.
  - apply (proj1 (hash_wf_iff Z seed0 tsat)). vm_compute. reflexivity.
  - vm_compute. reflexivity.
Qed.

(** C1.  After the same operations a key that is present is found with the
    value last written for it, but the lookup of a key that was inserted
    and then deleted (0), or never inserted (1000), does not return. *)
Theorem lookup_of_absent_key_diverges :
  run0 saturating_ops = Ok (Some tsat)
  /\ hash_lookup Z seed0 (Some tsat) 27 = Ok (Some 127)
  /\ hash_lookup Z seed0 (Some tsat) 24 = Ok (Some 124)
  /\ hash_get Z seed0 (Some tsat) 0 = Diverge
  /\ hash_get Z seed0 (Some tsat) 1000 = Diverge.
Proof.
  do 4 (split; [vm_compute; reflexivity|]). vm_compute. reflexivity.
Qed.

(** C8.  On that table [hash_del] of a key that is not there does not
    return, and after the successful [hash_del] of key 27 the lookup of 27
    does not return either. *)
Theorem del_without_free_byte :
  hash_del Z seed0 (Some tsat) 1000 false = Diverge
  /\ exists r, hash_del Z seed0 (Some tsat) 27 false = Ok r
       /\ deleted Z r = true
       /\ size (info Z (after Z r)) = 21
       /\ hash_get Z seed0 (Some (after Z r)) 27 = Diverge.
Proof.
  split; [vm_compute; reflexivity|].
  eexists. split; [vm_compute; reflexivity|].
  do 2 (split; [vm_compute; reflexivity|]). vm_compute. reflexivity.
Qed.

(** C4.  On the table of [saturating_ops] (well formed, 22 keys in 32
    slots, no Free byte) [hash_put] of a key that is not there performs no
    insertion: the match probe it starts with never exits, whatever fuel it
    is given, so nothing is written, no load check is made and no pointer
    comes back.  A key that is there is still overwritten. *)
Theorem put_of_new_key_diverges :
  run0 saturating_ops = Ok (Some tsat)
  /\ hash_wf Z seed0 tsat = true
  /\ size (info Z tsat) = 22 /\ capacity (info Z tsat) = 32
  /\ hash_put Z 8 0 seed0 plentiful (Some tsat) 1000 7 = Diverge
  /\ hash__put_slot Z seed0 tsat 1000 (hash__mask seed0 1000) 7 = Diverge
  /\ hash_put Z 8 0 seed0 plentiful (Some tsat) 27 7
     = Ok (Some (image_of Z 8 0
                   (hash_put Z 8 0 seed0 plentiful (Some tsat) 27 7)))
  /\ hash_lookup Z seed0
       (Some (image_of Z 8 0
                (hash_put Z 8 0 seed0 plentiful (Some tsat) 27 7))) 27
     = Ok (Some 7)
  /\ forall fuel,
       hash__get_idx_loop fuel (meta Z tsat) (keys Z tsat) 1000
         (capacity (info Z tsat)) (hash__mask seed0 1000)
         (hash__start seed0 (capacity (info Z tsat)) 1000) = Diverge.
Proof.
  do 8 (split; [vm_compute; reflexivity|]).
  intros fuel. apply hash__get_idx_loop_diverges.
  - apply (proj1 (hash_wf_iff Z seed0 tsat)). vm_compute. reflexivity.
  - vm_compute. reflexivity.
Qed.

(** C3.  On a null pointer [hash_size] and [hash_capacity] are 0 and
    [hash_put] allocates the 16-slot table and inserts.  [hash_get] and
    [hash_del] do not test for the null pointer: they begin by reading
    [val_size] from the header in front of it.  [hash_free] does not test
    for it either: it hands the deallocator the null pointer moved back by
    the header, [2 ^ 64 - 24], which is not null and is no block.  None of
    the three gives "absent", [false] or a call without effect. *)
Theorem null_handle_operations
    (V : Type) (sizeof_V : Z) (junk : V) (seed key : Z) (val : V)
    (free_val : bool) :
  hash_size V None = 0 /\ hash_capacity V None = 0
  /\ (exists t' i,
        hash_put V sizeof_V junk seed plentiful None key val = Ok (Some t')
        /\ capacity (info V t') = 16 /\ size (info V t') = 1
        /\ hash_get V seed (Some t') key = Ok (Some i)
        /\ deref V (Some t') (Some i) = Some val)
  /\ hash_get V seed None key = Fault
  /\ hash_del V seed None key free_val = Fault
  /\ hash__get_base_addr V 0 None = 2 ^ 64 - 24
  /\ hash_free V None = Fault.
Proof.
  split; [reflexivity|]. split; [reflexivity|].
  split; [apply hash_put_null; reflexivity|].
  do 3 (split; [reflexivity|]). reflexivity.
Qed.

(** C5: as stated, false.  After the twelfth insertion the capacity is 32. *)
Lemma scenario2_capacity_counterexample :
  run0 (insert_x10 12) = Ok (Some (after0 (insert_x10 12)))
  /\ capacity (info Z (after0 (insert_x10 12))) = 32
  /\ capacity (info Z (after0 (insert_x10 12))) <> 16.
Proof.
  do 2 (split; [vm_compute; reflexivity|]). vm_compute. discriminate.
Qed.

(** C5 (amended).  Inserting keys 0..11 with value key * 10 into an empty
    table leaves all twelve keys retrievable with their values and
    [size = 12]; the capacity is 16 up to the eleventh insertion, and the
    twelfth, which brings the size to [(16 / 4) * 3], doubles it to 32. *)
Theorem scenario2_amended :
  run0 (insert_x10 12) = Ok (Some (after0 (insert_x10 12)))
  /\ map (fun k => hash_lookup Z seed0 (Some (after0 (insert_x10 12)))
                    (Z.of_nat k)) (seq 0 12)
     = map (fun k => Ok (Some (Z.of_nat k * 10))) (seq 0 12)
  /\ hash_size Z (Some (after0 (insert_x10 12))) = 12
  /\ hash_capacity Z (Some (after0 (insert_x10 12))) = 32
  /\ run0 (insert_x10 11) = Ok (Some t11)
  /\ hash_size Z (Some t11) = 11
  /\ hash_capacity Z (Some t11) = 16.
Proof.
  do 6 (split; [vm_compute; reflexivity|]). vm_compute. reflexivity.
Qed.

(** C9: as stated, false on the null pointer.  [hash_reserve(NULL, 5)]
    yields capacity 16, not the smallest power of two from 5 up, and
    [hash_reserve(NULL, 0)] does not leave the pointer null. *)
Lemma hash_reserve_null_counterexample :
  hash_reserve Z 8 0 seed0 plentiful None 5
  = Ok (Some (fresh_image Z 0 16 0 8))
  /\ hash_capacity Z None = 0
  /\ next_pow2 5 = 8
  /\ capacity (info Z (fresh_image Z 0 16 0 8)) <> next_pow2 5
  /\ hash_reserve Z 8 0 seed0 plentiful None 0
     = Ok (Some (fresh_image Z 0 16 0 8))
  /\ hash_reserve Z 8 0 seed0 plentiful None 0 <> Ok None.
Proof.
  do 3 (split; [vm_compute; reflexivity|]).
  split; [vm_compute; discriminate|].
  split; [vm_compute; reflexivity|]. vm_compute. discriminate.
Qed.

(** ** The general theorems at a concrete table: eleven keys in 16 slots *)

Lemma hash_put_writes_then_grows_witness :
  hash_wf Z seed0 t11 = true
  /\ capacity (info Z t11) <= 2 ^ 62
  /\ hash__get_idx Z seed0 t11 11 = Ok None
  /\ exists t1 t',
       hash__put_slot Z seed0 t11 11 (hash__mask seed0 11) 110 = Ok t1
       /\ hash_put Z 8 0 seed0 plentiful (Some t11) 11 110 = Ok (Some t')
       /\ capacity (info Z t')
          = (if size (info Z t1) >=? capacity (info Z t1) / 4 * 3
             then 2 * capacity (info Z t11) else capacity (info Z t11))
       /\ exists i', hash_get Z seed0 (Some t') 11 = Ok (Some i')
                     /\ deref Z (Some t') (Some i') = Some 110.
Proof.
  assert (Hwf : hash_wf Z seed0 t11 = true) by (vm_compute; reflexivity).
  assert (Hcap : capacity (info Z t11) <= 2 ^ 62) by (vm_compute; discriminate).
  assert (Hg : hash__get_idx Z seed0 t11 11 = Ok None) by (vm_compute; reflexivity).
  split; [exact Hwf|]. split; [exact Hcap|]. split; [exact Hg|].
  destruct (hash_put_writes_then_grows Z 8 0 seed0 plentiful t11 11 110)
    as (t1 & t' & H1 & _ & _ & H4 & H5 & _ & H7 & _).
  - intros bytes align. reflexivity.
  - exact Hwf.
  - exact Hcap.
  - rewrite Hg. discriminate.
  - exists t1, t'. auto.
Defined.

Lemma probe_invariant_preserved_witness :
  hash_wf Z seed0 t11 = true
  /\ (exists t', hash_put Z 8 0 seed0 plentiful (Some t11) 11 110 = Ok (Some t')
                 /\ probe_ok Z seed0 t')
  /\ (exists r, hash_del Z seed0 (Some t11) 5 false = Ok r
                /\ probe_ok Z seed0 (after Z r))
  /\ (exists t', hash_reserve Z 8 0 seed0 plentiful (Some t11) 100 = Ok (Some t')
                 /\ probe_ok Z seed0 t')
  /\ (exists t', hash__resize Z 0 seed0 plentiful t11 64 = Ok t'
                 /\ probe_ok Z seed0 t').
Proof.
  assert (Hwf : hash_wf Z seed0 t11 = true) by (vm_compute; reflexivity).
  split; [exact Hwf|].
  split; [|split; [|split]].
  - apply (probe_invariant_preserved Z 8 0 seed0 plentiful t11 11 110 false 100 64);
      [intros; reflexivity|exact Hwf|vm_compute; discriminate|vm_compute; discriminate].
  - apply (probe_invariant_preserved Z 8 0 seed0 plentiful t11 5 110 false 100 64);
      [intros; reflexivity|exact Hwf|vm_compute; discriminate].
  - apply (probe_invariant_preserved Z 8 0 seed0 plentiful t11 11 110 false 100 64);
      [intros; reflexivity|exact Hwf|vm_compute; split; discriminate
      |intros _; vm_compute; reflexivity].
  - apply (probe_invariant_preserved Z 8 0 seed0 plentiful t11 11 110 false 100 64);
      [intros; reflexivity|exact Hwf|exists 6; vm_compute; repeat split; discriminate
      |vm_compute; reflexivity|vm_compute; reflexivity].
Defined.

Lemma resize_preserves_content_witness :
  hash_wf Z seed0 t11 = true
  /\ exists t', hash__resize Z 0 seed0 plentiful t11 32 = Ok t'
       /\ hash_wf Z seed0 t' = true
       /\ capacity (info Z t') = 32
       /\ size (info Z t') = size (info Z t11)
       /\ forall s, 0 <= s < 32 -> rd (meta Z t') s <> HASH__TOMB.
Proof.
  assert (Hwf : hash_wf Z seed0 t11 = true) by (vm_compute; reflexivity).
  split; [exact Hwf|].
  destruct (resize_preserves_content Z 0 seed0 plentiful t11 32)
    as (t' & H1 & H2 & H3 & H4 & _ & H6).
  - exact Hwf.
  - exists 5. vm_compute. repeat split; discriminate.
  - vm_compute. reflexivity.
  - reflexivity.
  - vm_compute. reflexivity.
  - exists t'. auto.
Defined.

Lemma hash_reserve_spec_witness :
  hash_wf Z seed0 t11 = true
  /\ hash_reserve Z 8 0 seed0 plentiful (Some t11) 16 = Ok (Some t11)
  /\ exists t', hash_reserve Z 8 0 seed0 plentiful (Some t11) 100 = Ok (Some t')
       /\ capacity (info Z t') = 128
       /\ size (info Z t') = 11
       /\ hash_wf Z seed0 t' = true.
Proof.
  assert (Hwf : hash_wf Z seed0 t11 = true) by (vm_compute; reflexivity).
  split; [exact Hwf|]. split.
  - apply (hash_reserve_spec Z 8 0 seed0 plentiful t11 16);
      [intros; reflexivity|exact Hwf|vm_compute; split; discriminate
      |vm_compute; discriminate].
  - destruct (hash_reserve_spec Z 8 0 seed0 plentiful t11 100) as (_ & Hgrow & _).
    + intros bytes align. reflexivity.
    + exact Hwf.
    + vm_compute. split; discriminate.
    + destruct Hgrow as (t' & H1 & _ & _ & _ & H5 & _ & _ & H8 & _ & H10).
      { vm_compute. reflexivity. }
      { vm_compute. reflexivity. }
      exists t'. split; [exact H1|]. split; [exact H5|]. split; [exact H8|exact H10].
Defined.

Lemma hash_del_frame_witness :
  hash_wf Z seed0 t11 = true
  /\ hash_get Z seed0 (Some t11) 5 = Ok (Some 5)
  /\ exists r, hash_del Z seed0 (Some t11) 5 false = Ok r
       /\ deleted Z r = true
       /\ meta Z (after Z r) = upd (meta Z t11) 5 HASH__TOMB
       /\ keys Z (after Z r) = keys Z t11
       /\ vals Z (after Z r) = vals Z t11
       /\ size (info Z (after Z r)) = size (info Z t11) - 1.
Proof.
  assert (Hwf : hash_wf Z seed0 t11 = true) by (vm_compute; reflexivity).
  assert (Hg : hash_get Z seed0 (Some t11) 5 = Ok (Some 5))
    by (vm_compute; reflexivity).
  split; [exact Hwf|]. split; [exact Hg|].
  destruct (hash_del_frame Z seed0 t11 5 5 Hwf Hg)
    as (r & H1 & H2 & _ & H4 & _ & _ & _ & H8 & H9 & _ & _ & H12).
  exists r. auto 10.
Defined.

Lemma hash_del_with_free_byte_witness :
  hash_wf Z seed0 t11 = true
  /\ has_free Z t11 = true
  /\ exists r, hash_del Z seed0 (Some t11) 5 false = Ok r
       /\ deleted Z r = true
       /\ rd (meta Z (after Z r)) 5 = HASH__TOMB
       /\ size (info Z (after Z r)) = size (info Z t11) - 1
       /\ hash_get Z seed0 (Some (after Z r)) 5 = Ok None.
Proof.
  assert (Hwf : hash_wf Z seed0 t11 = true) by (vm_compute; reflexivity).
  assert (Hfree : has_free Z t11 = true) by (vm_compute; reflexivity).
  assert (Hg : hash_get Z seed0 (Some t11) 5 = Ok (Some 5))
    by (vm_compute; reflexivity).
  split; [exact Hwf|]. split; [exact Hfree|].
  pose proof (hash_del_with_free_byte Z seed0 t11 5 Hwf Hfree) as H.
  rewrite Hg in H. exact H.
Defined.

Lemma run_refines_model_witness :
  run Z 8 0 seed0 plentiful [Put 1 10; Put 2 20; Del 1 false; Reserve 40] None
  = Ok (Some (after0 [Put 1 10; Put 2 20; Del 1 false; Reserve 40]))
  /\ hash_wf Z seed0 (after0 [Put 1 10; Put 2 20; Del 1 false; Reserve 40])
     = true
  /\ hash_lookup Z seed0
       (Some (after0 [Put 1 10; Put 2 20; Del 1 false; Reserve 40])) 2
     = match model Z [Put 1 10; Put 2 20; Del 1 false; Reserve 40]
               (fun _ => None) 2 with
       | Some v => Ok (Some v)
       | None =>
           if has_free Z (after0 [Put 1 10; Put 2 20; Del 1 false; Reserve 40])
           then Ok None else Diverge
       end.
Proof.
  assert (Hrun : run Z 8 0 seed0 plentiful
                   [Put 1 10; Put 2 20; Del 1 false; Reserve 40] None
                 = Ok (Some (after0 [Put 1 10; Put 2 20; Del 1 false; Reserve 40])))
    by (vm_compute; reflexivity).
  split; [exact Hrun|].
  apply (run_refines_model Z 8 0 seed0 plentiful).
  - intros bytes align. reflexivity.
  - repeat (cbn [in_bounds]; split; [vm_compute; discriminate|];
            split; [exact I || (vm_compute; split; discriminate)|];
            let h := fresh "h" in let H := fresh "H" in
            intros h H; vm_compute in H; injection H as <-).
    exact I.
  - exact Hrun.
Defined.

(** ** The further theorems at concrete tables *)

Local Abbreviation ops4 := [Put 1 10; Put 2 20; Del 1 false; Reserve 40].
Local Abbreviation put0 t k v := (hash_put Z 8 0 hash__seed_default plentiful (Some t) k v).
Local Abbreviation t12 := (image_of Z 8 0 (put0 t11 11 110)).

Ltac in_memory_by_computation :=
  repeat (cbn [in_memory];
          let h := fresh "h" in let H := fresh "H" in
          intros h H; vm_compute in H; injection H as <-;
          split; [vm_compute; reflexivity|]);
  exact I.

Ltac in_bounds_by_computation :=
  repeat (cbn [in_bounds]; split; [vm_compute; discriminate|];
          split; [exact I || (vm_compute; split; discriminate)|];
          let h := fresh "h" in let H := fresh "H" in
          intros h H; vm_compute in H; injection H as <-);
  exact I.

Lemma hash__hash_injective_witness :
  0 <= hash__hash seed0 5 < 2 ^ 64
  /\ (hash__hash seed0 5 = hash__hash seed0 5 -> 5 = 5).
Proof.
  apply (hash__hash_injective seed0 5 5); unfold hash__seed_default; lia.
Defined.

Lemma selector_and_tag_determine_key_witness :
  hash__hash57 (hash__hash seed0 5) = hash__hash57 (hash__hash seed0 5)
  /\ hash__hash7 (hash__hash seed0 5) = hash__hash7 (hash__hash seed0 5)
  /\ 5 = 5.
Proof.
  split; [reflexivity|]. split; [reflexivity|].
  apply (selector_and_tag_determine_key seed0 5 5);
    [unfold hash__seed_default; lia|lia|lia|reflexivity|reflexivity].
Defined.

Lemma hash_layout_round_trip_witness :
  hash__get_base_addr Z (hash__user_addr 4096 (capacity (info Z t11))) (Some t11)
  = 4096.
Proof.
  destruct (hash_layout_round_trip Z 4096 t11 ltac:(lia)) as (_ & _ & H).
  exact H.
Defined.

Lemma operations_never_fault_witness :
  hash_wf Z seed0 t11 = true
  /\ hash_get Z seed0 (Some t11) 5 <> Fault
  /\ hash_del Z seed0 (Some t11) 5 false <> Fault
  /\ hash_put Z 8 0 seed0 plentiful (Some t11) 11 110 <> Fault
  /\ hash__fits (next_pow2 100) (val_size (info Z t11)) = true
  /\ hash_reserve Z 8 0 seed0 plentiful (Some t11) 100 <> Fault.
Proof.
  assert (Hwf : hash_wf Z seed0 t11 = true) by (vm_compute; reflexivity).
  assert (Hfit : hash__fits (next_pow2 100) (val_size (info Z t11)) = true)
    by (vm_compute; reflexivity).
  split; [exact Hwf|].
  destruct (operations_never_fault Z 8 0 seed0 plentiful t11 5 100 110 Hwf)
    as (Hg & Hd & _ & Hr).
  destruct (operations_never_fault Z 8 0 seed0 plentiful t11 11 100 110 Hwf)
    as (_ & _ & Hp & _).
  split; [exact Hg|]. split; [exact Hd|].
  split; [apply Hp; vm_compute; discriminate|]. split; [exact Hfit|].
  apply Hr; [lia|intros _; exact Hfit].
Defined.

Lemma operations_return_unless_saturated_witness :
  hash_wf Z seed0 tsat = true
  /\ capacity (info Z tsat) <= 2 ^ 62
  /\ hash_put Z 8 0 seed0 plentiful (Some tsat) 1000 7 = Diverge
  /\ exists t', hash_put Z 8 0 seed0 plentiful (Some tsat) 27 7 = Ok (Some t').
Proof.
  assert (Hwf : hash_wf Z seed0 tsat = true) by (vm_compute; reflexivity).
  assert (Hcap : capacity (info Z tsat) <= 2 ^ 62) by (vm_compute; discriminate).
  split; [exact Hwf|]. split; [exact Hcap|]. split.
  - destruct (operations_return_unless_saturated Z 8 0 seed0 plentiful
                tsat 1000 7 false Hwf Hcap) as (_ & _ & Hput & _).
    apply Hput. vm_compute. reflexivity.
  - destruct (operations_return_unless_saturated Z 8 0 seed0 plentiful
                tsat 27 7 false Hwf Hcap) as (_ & _ & _ & Hret).
    apply Hret. vm_compute. reflexivity.
Defined.

Lemma allocation_failure_witness :
  hash_wf Z seed0 t11 = true
  /\ hash_put Z 8 0 seed0 refusing None 11 110 = Fault
  /\ hash_reserve Z 8 0 seed0 refusing None 100 = Fault
  /\ hash_reserve Z 8 0 seed0 refusing (Some t11) 100 = Ok (Some t11)
  /\ negb (holds_key Z t11 11) && negb (has_free Z t11) = false
  /\ (exists t1 i,
        hash_put Z 8 0 seed0 refusing (Some t11) 11 110 = Ok (Some t1)
        /\ capacity (info Z t1) = capacity (info Z t11)
        /\ hash_get Z seed0 (Some t1) 11 = Ok (Some i)
        /\ deref Z (Some t1) (Some i) = Some 110)
  /\ negb (holds_key Z tsat 1000) && negb (has_free Z tsat) = true
  /\ hash_put Z 8 0 seed0 refusing (Some tsat) 1000 7 = Diverge.
Proof.
  assert (Hwf : hash_wf Z seed0 t11 = true) by (vm_compute; reflexivity).
  assert (Hwfs : hash_wf Z seed0 tsat = true) by (vm_compute; reflexivity).
  assert (Hns : negb (holds_key Z t11 11) && negb (has_free Z t11) = false)
    by (vm_compute; reflexivity).
  assert (Hst : negb (holds_key Z tsat 1000) && negb (has_free Z tsat) = true)
    by (vm_compute; reflexivity).
  destruct (allocation_failure Z 8 0 seed0 refusing t11 11 100 110)
    as (Hnull & _ & Hrn & _ & Htab); [reflexivity|].
  destruct (Htab Hwf) as (Hres & _ & _ & Hput).
  destruct (allocation_failure Z 8 0 seed0 refusing tsat 1000 100 7)
    as (_ & _ & _ & _ & Hsat); [reflexivity|].
  destruct (Hsat Hwfs) as (_ & _ & Hstuck & _).
  split; [exact Hwf|]. split; [exact Hnull|]. split; [apply Hrn; lia|].
  split; [apply Hres; lia|]. split; [exact Hns|]. split.
  - destruct (Hput Hns) as (t1 & i & _ & H2 & H3 & H4 & H5 & _).
    exists t1, i. auto.
  - split; [exact Hst|exact (Hstuck Hst)].
Defined.

Lemma run_keeps_invariants_witness :
  run0 ops4 = Ok (Some (after0 ops4))
  /\ handle_wf Z seed0 (Some (after0 ops4)) = true
  /\ hash_capacity Z None <= hash_capacity Z (Some (after0 ops4)).
Proof.
  assert (Hrun : run0 ops4 = Ok (Some (after0 ops4))) by (vm_compute; reflexivity).
  split; [exact Hrun|].
  apply (run_keeps_invariants Z 8 0 seed0 plentiful ops4 None);
    [reflexivity|in_bounds_by_computation|exact Hrun].
Defined.

Lemma free_bytes_never_return_witness :
  hash_wf Z seed0 t11 = true
  /\ run Z 8 0 seed0 plentiful [Del 5 false; Put 5 55] (Some t11)
     = Ok (Some (image_of Z 8 0
                   (run Z 8 0 seed0 plentiful [Del 5 false; Put 5 55] (Some t11))))
  /\ forall s,
       rd (meta Z (image_of Z 8 0
                     (run Z 8 0 seed0 plentiful [Del 5 false; Put 5 55]
                        (Some t11)))) s = HASH__FREE ->
       rd (meta Z t11) s = HASH__FREE.
Proof.
  assert (Hwf : hash_wf Z seed0 t11 = true) by (vm_compute; reflexivity).
  assert (Hrun : run Z 8 0 seed0 plentiful [Del 5 false; Put 5 55] (Some t11)
                 = Ok (Some (image_of Z 8 0
                               (run Z 8 0 seed0 plentiful [Del 5 false; Put 5 55]
                                  (Some t11)))))
    by (vm_compute; reflexivity).
  split; [exact Hwf|]. split; [exact Hrun|].
  apply (free_bytes_never_return Z 8 0 seed0 plentiful
           [Del 5 false; Put 5 55] t11 _ Hwf);
    [in_bounds_by_computation|exact Hrun|vm_compute; reflexivity].
Defined.

Lemma run_keeps_load_bound_witness :
  run0 ops4 = Ok (Some (after0 ops4))
  /\ size (info Z (after0 ops4)) < capacity (info Z (after0 ops4)) / 4 * 3
  /\ 4 * size (info Z (after0 ops4)) < 3 * capacity (info Z (after0 ops4))
  /\ size (info Z (after0 ops4)) = count_full (meta Z (after0 ops4)).
Proof.
  assert (Hrun : run0 ops4 = Ok (Some (after0 ops4))) by (vm_compute; reflexivity).
  split; [exact Hrun|].
  apply (run_keeps_load_bound Z 8 0 seed0 plentiful ops4);
    [intros; reflexivity|in_bounds_by_computation|exact Hrun].
Defined.

Lemma insert_only_runs_return_witness :
  no_del Z [Put 1 10; Reserve 40; Put 2 20] = true
  /\ in_memory Z 8 0 seed0 plentiful [Put 1 10; Reserve 40; Put 2 20] None
  /\ exists h, run0 [Put 1 10; Reserve 40; Put 2 20] = Ok h
       /\ match h with
          | None => [Put 1 10; Reserve 40; Put 2 20] = @nil (op Z)
          | Some t =>
              hash_wf Z seed0 t = true /\ has_free Z t = true
              /\ (forall s, 0 <= s < capacity (info Z t) ->
                    rd (meta Z t) s <> HASH__TOMB)
              /\ forall key,
                   hash_lookup Z seed0 (Some t) key
                   = Ok (model Z [Put 1 10; Reserve 40; Put 2 20]
                           (fun _ => None) key)
          end.
Proof.
  assert (Hmem : in_memory Z 8 0 seed0 plentiful
                   [Put 1 10; Reserve 40; Put 2 20] None)
    by in_memory_by_computation.
  split; [reflexivity|]. split; [exact Hmem|].
  apply (insert_only_runs_return Z 8 0 seed0 plentiful);
    [intros; reflexivity|reflexivity|in_bounds_by_computation|exact Hmem].
Defined.

Lemma hash_put_update_in_place_witness :
  hash_wf Z seed0 t11 = true
  /\ hash_get Z seed0 (Some t11) 5 = Ok (Some 5)
  /\ exists t', put0 t11 5 55 = Ok (Some t')
       /\ meta Z t' = meta Z t11 /\ keys Z t' = keys Z t11
       /\ info Z t' = info Z t11
       /\ vals Z t' = upd (vals Z t11) 5 55.
Proof.
  assert (Hwf : hash_wf Z seed0 t11 = true) by (vm_compute; reflexivity).
  assert (Hg : hash_get Z seed0 (Some t11) 5 = Ok (Some 5))
    by (vm_compute; reflexivity).
  split; [exact Hwf|]. split; [exact Hg|].
  destruct (hash_put_update_in_place Z 8 0 seed0 plentiful t11 5 5 55 Hwf Hg)
    as (t' & H1 & H2 & H3 & H4 & H5 & _); [vm_compute; reflexivity|].
  exists t'. auto.
Defined.

Lemma hash_put_insert_witness :
  hash_wf Z seed0 t11 = true
  /\ hash_get Z seed0 (Some t11) 11 = Ok None
  /\ exists t', put0 t11 11 110 = Ok (Some t')
       /\ hash_size Z (Some t') = hash_size Z (Some t11) + 1
       /\ hash_lookup Z seed0 (Some t') 11 = Ok (Some 110)
       /\ hash_lookup Z seed0 (Some t') 5 = Ok (Some 50).
Proof.
  assert (Hwf : hash_wf Z seed0 t11 = true) by (vm_compute; reflexivity).
  assert (Hg : hash_get Z seed0 (Some t11) 11 = Ok None)
    by (vm_compute; reflexivity).
  split; [exact Hwf|]. split; [exact Hg|].
  destruct (hash_put_insert Z 8 0 seed0 plentiful t11 11 110 Hwf)
    as (t' & H1 & H2 & H3 & H4); [vm_compute; discriminate|exact Hg|].
  exists t'. split; [exact H1|]. split; [exact H2|]. split; [exact H3|].
  apply H4; [lia|vm_compute; reflexivity].
Defined.

Lemma hash_put_idempotent_witness :
  hash_wf Z seed0 t11 = true
  /\ put0 t11 11 110 = Ok (Some t12)
  /\ put0 t12 11 110 = Ok (Some t12).
Proof.
  assert (Hwf : hash_wf Z seed0 t11 = true) by (vm_compute; reflexivity).
  assert (Hp : put0 t11 11 110 = Ok (Some t12)) by (vm_compute; reflexivity).
  split; [exact Hwf|]. split; [exact Hp|].
  apply (hash_put_idempotent Z 8 0 seed0 plentiful t11 t12 11 110);
    [exact Hwf|vm_compute; discriminate|exact Hp|left; intros; reflexivity].
Defined.

Lemma hash_del_free_val_witness :
  hash_wf Z seed0 t11 = true
  /\ val_size (info Z t11) = 8
  /\ exists r0 r1,
       hash_del Z seed0 (Some t11) 5 false = Ok r0
       /\ hash_del Z seed0 (Some t11) 5 true = Ok r1
       /\ after Z r1 = after Z r0 /\ deleted Z r1 = deleted Z r0
       /\ released Z r0 = None
       /\ hash_lookup Z seed0 (Some t11) 5 = Ok (released Z r1).
Proof.
  assert (Hwf : hash_wf Z seed0 t11 = true) by (vm_compute; reflexivity).
  assert (Hvs : val_size (info Z t11) = 8) by (vm_compute; reflexivity).
  split; [exact Hwf|]. split; [exact Hvs|].
  pose proof (hash_del_free_val Z seed0 t11 5 Hwf Hvs) as H.
  assert (E : exists r0, hash_del Z seed0 (Some t11) 5 false = Ok r0)
    by (eexists; vm_compute; reflexivity).
  destruct E as (r0 & E). rewrite E in H.
  destruct H as (r1 & H1 & H2 & H3 & H4 & H5).
  exists r0, r1. repeat (split; [assumption|]). assumption.
Defined.

Lemma hash_reserve_beyond_range_witness :
  hash_reserve Z 8 0 seed0 plentiful (Some t11) (2 ^ 63 + 1) = Diverge
  /\ forall fuel, hash__round_up fuel 1 (2 ^ 63 + 1) = Diverge.
Proof.
  apply (hash_reserve_beyond_range Z 8 0 seed0 plentiful (Some t11) (2 ^ 63 + 1));
    [vm_compute; discriminate|lia].
Defined.

Lemma hash__get_freetombidx_first_fit_witness :
  hash_wf Z seed0 t11 = true
  /\ exists idx, hash__get_freetombidx Z seed0 t11 11 = Ok idx
       /\ 0 <= idx < capacity (info Z t11)
       /\ hash_is_full (rd (meta Z t11) idx) = false
       /\ forall s, 16 * (idx / 16) <= s < idx ->
            hash_is_full (rd (meta Z t11) s) = true.
Proof.
  assert (Hwf : hash_wf Z seed0 t11 = true) by (vm_compute; reflexivity).
  split; [exact Hwf|].
  destruct (hash__get_freetombidx_first_fit Z seed0 t11 11 Hwf) as (Hfit & _).
  destruct Hfit as (idx & H1 & H2 & H3 & H4 & _); [vm_compute; reflexivity|].
  exists idx. auto.
Defined.

Lemma hash_get_finds_exactly_witness :
  hash_wf Z seed0 t11 = true
  /\ (hash_get Z seed0 (Some t11) 5 = Ok (Some 5)
      <-> 0 <= 5 < capacity (info Z t11)
          /\ hash_is_full (rd (meta Z t11) 5) = true
          /\ rd (keys Z t11) 5 = 5)
  /\ (hash_get Z seed0 (Some t11) 11 = Ok None
      <-> holds_key Z t11 11 = false /\ has_free Z t11 = true).
Proof.
  assert (Hwf : hash_wf Z seed0 t11 = true) by (vm_compute; reflexivity).
  split; [exact Hwf|].
  destruct (hash_get_finds_exactly Z seed0 t11 5 Hwf) as (Hf & _).
  destruct (hash_get_finds_exactly Z seed0 t11 11 Hwf) as (_ & Hn).
  split; [exact (Hf 5)|exact Hn].
Defined.

Lemma pointers_stable_without_growth_witness :
  hash_wf Z seed0 t11 = true
  /\ hash_get Z seed0 (Some t11) 5 = Ok (Some 5)
  /\ run_op Z 8 0 seed0 plentiful (Some t11) (Del 3 false)
     = Ok (Some (image_of Z 8 0
                   (run_op Z 8 0 seed0 plentiful (Some t11) (Del 3 false))))
  /\ hash_get Z seed0
       (Some (image_of Z 8 0
                (run_op Z 8 0 seed0 plentiful (Some t11) (Del 3 false)))) 5
     = Ok (Some 5)
  /\ slot (vals Z (image_of Z 8 0
                     (run_op Z 8 0 seed0 plentiful (Some t11) (Del 3 false)))) 5
     = slot (vals Z t11) 5.
Proof.
  assert (Hwf : hash_wf Z seed0 t11 = true) by (vm_compute; reflexivity).
  assert (Hg : hash_get Z seed0 (Some t11) 5 = Ok (Some 5))
    by (vm_compute; reflexivity).
  assert (Hrun : run_op Z 8 0 seed0 plentiful (Some t11) (Del 3 false)
                 = Ok (Some (image_of Z 8 0
                               (run_op Z 8 0 seed0 plentiful (Some t11)
                                  (Del 3 false)))))
    by (vm_compute; reflexivity).
  split; [exact Hwf|]. split; [exact Hg|]. split; [exact Hrun|].
  apply (pointers_stable_without_growth Z 8 0 seed0 plentiful t11 _
           (Del 3 false) 5 5 Hwf);
    [vm_compute; discriminate|lia|exact Hrun|vm_compute; reflexivity|exact Hg].
Defined.

Lemma no_growth_below_load_witness :
  hash_wf Z seed0 (after0 [Put 1 10]) = true
  /\ run Z 8 0 seed0 plentiful [Put 2 20; Del 1 false; Put 3 30]
       (Some (after0 [Put 1 10]))
     = Ok (Some (after0 [Put 1 10; Put 2 20; Del 1 false; Put 3 30]))
  /\ capacity (info Z (after0 [Put 1 10; Put 2 20; Del 1 false; Put 3 30]))
     = capacity (info Z (after0 [Put 1 10]))
  /\ size (info Z (after0 [Put 1 10; Put 2 20; Del 1 false; Put 3 30]))
     <= size (info Z (after0 [Put 1 10]))
        + len [Put 2 20; Del 1 false; Put 3 30]
  /\ hash_wf Z seed0 (after0 [Put 1 10; Put 2 20; Del 1 false; Put 3 30])
     = true.
Proof.
  assert (Hwf : hash_wf Z seed0 (after0 [Put 1 10]) = true)
    by (vm_compute; reflexivity).
  assert (Hrun : run Z 8 0 seed0 plentiful [Put 2 20; Del 1 false; Put 3 30]
                   (Some (after0 [Put 1 10]))
                 = Ok (Some (after0 [Put 1 10; Put 2 20; Del 1 false; Put 3 30])))
    by (vm_compute; reflexivity).
  split; [exact Hwf|]. split; [exact Hrun|].
  apply (no_growth_below_load Z 8 0 seed0 plentiful
           [Put 2 20; Del 1 false; Put 3 30] _ _ Hwf);
    [reflexivity|vm_compute; reflexivity|exact Hrun].
Defined.

Lemma size_counts_stored_keys_witness :
  hash_wf Z seed0 t11 = true
  /\ List.NoDup (stored_keys Z t11)
  /\ hash_size Z (Some t11) = len (stored_keys Z t11)
  /\ (In 5 (stored_keys Z t11)
      <-> exists idx, hash_get Z seed0 (Some t11) 5 = Ok (Some idx)).
Proof.
  assert (Hwf : hash_wf Z seed0 t11 = true) by (vm_compute; reflexivity).
  split; [exact Hwf|].
  destruct (size_counts_stored_keys Z seed0 t11 Hwf) as (Hnd & Hsz & Hin).
  split; [exact Hnd|]. split; [exact Hsz|exact (Hin 5)].
Defined.

Lemma val_size_is_sizeof_witness :
  run0 ops4 = Ok (Some (after0 ops4))
  /\ val_size (info Z (after0 ops4)) = 8.
Proof.
  assert (Hrun : run0 ops4 = Ok (Some (after0 ops4))) by (vm_compute; reflexivity).
  split; [exact Hrun|].
  apply (val_size_is_sizeof Z 8 0 seed0 plentiful ops4);
    [in_bounds_by_computation|exact Hrun].
Defined.

Lemma few_tombstones_keep_a_free_byte_witness :
  hash_wf Z seed0 t11 = true
  /\ size (info Z t11) < capacity (info Z t11) / 4 * 3
  /\ count_tomb (meta Z t11) <= capacity (info Z t11) / 4
  /\ has_free Z t11 = true
  /\ exists p, hash_get Z seed0 (Some t11) 1000 = Ok p.
Proof.
  assert (Hwf : hash_wf Z seed0 t11 = true) by (vm_compute; reflexivity).
  assert (Hl : size (info Z t11) < capacity (info Z t11) / 4 * 3)
    by (vm_compute; reflexivity).
  assert (Ht : count_tomb (meta Z t11) <= capacity (info Z t11) / 4)
    by (vm_compute; discriminate).
  split; [exact Hwf|]. split; [exact Hl|]. split; [exact Ht|].
  exact (few_tombstones_keep_a_free_byte Z seed0 t11 1000 Hwf Hl Ht).
Defined.

Lemma few_deletions_never_hang_witness :
  hash_wf Z seed0 (after0 [Put 1 10]) = true
  /\ count_tomb (meta Z (after0 [Put 1 10]))
     + count_del Z [Put 2 20; Del 1 false; Put 1 11; Del 2 true]
     <= capacity (info Z (after0 [Put 1 10])) / 4
  /\ in_memory Z 8 0 seed0 plentiful
       [Put 2 20; Del 1 false; Put 1 11; Del 2 true] (Some (after0 [Put 1 10]))
  /\ exists t',
       run Z 8 0 seed0 plentiful [Put 2 20; Del 1 false; Put 1 11; Del 2 true]
         (Some (after0 [Put 1 10])) = Ok (Some t')
       /\ hash_wf Z seed0 t' = true /\ has_free Z t' = true
       /\ size (info Z t') < capacity (info Z t') / 4 * 3.
Proof.
  assert (Hwf : hash_wf Z seed0 (after0 [Put 1 10]) = true)
    by (vm_compute; reflexivity).
  assert (Ht : count_tomb (meta Z (after0 [Put 1 10]))
               + count_del Z [Put 2 20; Del 1 false; Put 1 11; Del 2 true]
               <= capacity (info Z (after0 [Put 1 10])) / 4)
    by (vm_compute; discriminate).
  assert (Hmem : in_memory Z 8 0 seed0 plentiful
                   [Put 2 20; Del 1 false; Put 1 11; Del 2 true]
                   (Some (after0 [Put 1 10])))
    by in_memory_by_computation.
  split; [exact Hwf|]. split; [exact Ht|]. split; [exact Hmem|].
  apply (few_deletions_never_hang Z 8 0 seed0 plentiful
           [Put 2 20; Del 1 false; Put 1 11; Del 2 true] _);
    [intros; reflexivity|exact Hwf|vm_compute; reflexivity
    |in_bounds_by_computation|exact Hmem|exact Ht].
Defined.
